(** * The Twenty-One service: a two-party authorization handshake

    A shallow embedding of [TwentyOneService] (the service class of the
    Twenty-One game front end).  Player 1 builds a [start_game] transaction,
    finds its own authorization entry among the simulated ones, signs it and
    exports it as base64 XDR; player 2 parses that artifact, rebuilds the
    transaction with itself as the source account and merges the entry in.

    The service is glue over three collaborators that are not part of it:
    the Stellar SDK (XDR codec, addresses, [authorizeEntry]), the generated
    contract client together with the network behind it, and the wallet that
    signs.  The SDK's pure functions are taken as a record [Sdk]; everything
    that is awaited is an oracle whose answer may depend on the calls made so
    far, and every such call is written to a trace. *)

From Stdlib Require Import ZArith List String Ascii Bool Lia DecimalString.
Import ListNotations.

Set Warnings "-register-all".

Local Open Scope string_scope.

(* ================================================================== *)
(** * JavaScript values that matter here *)

Module Js.

(** What a [throw] carries: an instance of [Error] with its message, or a
    value that is not an [Error] (the handler of [parseAuthEntry] tells the
    two apart with [instanceof]). *)
Inductive Exception : Type :=
| Error (message : string)
| NonError.

(** How the evaluation of an expression or block ends. *)
Inductive Completion (A : Type) : Type :=
| Normal (value : A)
| Throw (e : Exception).
Arguments Normal {A} value.
Arguments Throw {A} e.

Definition bind {A B} (c : Completion A) (k : A -> Completion B)
  : Completion B :=
  match c with
  | Normal a => k a
  | Throw e => Throw e
  end.

(** [try { body } catch (err) { handler }] *)
Definition try_catch {A} (body : Completion A)
           (handler : Exception -> Completion A) : Completion A :=
  match body with
  | Normal a => Normal a
  | Throw e => handler e
  end.

(** [err instanceof Error ? err.message : fallback] *)
Definition message_or (err : Exception) (fallback : string) : string :=
  match err with
  | Error m => m
  | NonError => fallback
  end.

(** A template literal's rendering of a non-negative integer. *)
Definition string_of_nat (n : nat) : string :=
  NilEmpty.string_of_uint (Nat.to_uint n).

(** Truthiness of a [number]: [0] is falsy.  The numbers tested here are
    whole minutes, so [NaN] does not arise; [undefined], the other falsy
    value of an optional parameter, is the [None] of its [option]. *)
Definition truthy (n : Z) : bool := negb (Z.eqb n 0).

End Js.
Export Js.

Declare Scope completion_scope.
Delimit Scope completion_scope with completion.
Notation "x <- c ;; k" := (Js.bind c (fun x => k))
  (at level 61, c at next level, right associativity) : completion_scope.

(* ================================================================== *)
(** * The XDR data the service looks at

    The part of the Stellar XDR schema reachable from a
    [SorobanAuthorizationEntry].  Integers are [Z]; the width of each field
    is stated by [Wf] below.  Arms of [ScVal] that neither the service nor
    [authorizeEntry] builds or inspects are left out. *)

Module Xdr.

Definition Bytes := list Byte.byte.

Inductive ScAddress : Type :=
| ScAddressTypeAccount (ed25519 : Bytes)
| ScAddressTypeContract (contractId : Bytes).

(** [Int128Parts]: a signed high word and an unsigned low word. *)
Record Int128Parts : Type := mkInt128Parts { hi : Z; lo : Z }.

Inductive ScVal : Type :=
| ScvBool (b : bool)
| ScvVoid
| ScvU32 (u32 : Z)
| ScvI32 (i32 : Z)
| ScvU64 (u64 : Z)
| ScvI64 (i64 : Z)
| ScvI128 (i128 : Int128Parts)
| ScvBytes (bytes : Bytes)
| ScvSymbol (sym : string)
| ScvVec (vec : list ScVal)
| ScvMap (map : list (ScVal * ScVal))
| ScvAddress (address : ScAddress).

Record InvokeContractArgs : Type := mkInvokeContractArgs {
  contractAddress : ScAddress;
  functionName : string;
  args : list ScVal
}.

(** [SorobanAuthorizedFunction]: a contract call, or the deployment of a
    contract (its arguments kept as the executable's hash and the salt). *)
Inductive SorobanAuthorizedFunction : Type :=
| ContractFn (contractFn : InvokeContractArgs)
| CreateContractHostFn (deployer : ScAddress) (salt wasmHash : Bytes).

Inductive SorobanAuthorizedInvocation : Type :=
| mkInvocation (function : SorobanAuthorizedFunction)
               (subInvocations : list SorobanAuthorizedInvocation).

Definition function (i : SorobanAuthorizedInvocation) :=
  let (f, _) := i in f.
Definition subInvocations (i : SorobanAuthorizedInvocation) :=
  let (_, s) := i in s.

Record SorobanAddressCredentials : Type := mkAddressCredentials {
  address : ScAddress;
  nonce : Z;
  signatureExpirationLedger : Z;
  signature : ScVal
}.

Inductive SorobanCredentials : Type :=
| SorobanCredentialsSourceAccount
| SorobanCredentialsAddress (c : SorobanAddressCredentials).

(** [credentials.switch().name] *)
Definition switch_name (c : SorobanCredentials) : string :=
  match c with
  | SorobanCredentialsSourceAccount => "sorobanCredentialsSourceAccount"
  | SorobanCredentialsAddress _ => "sorobanCredentialsAddress"
  end.

Record SorobanAuthorizationEntry : Type := mkEntry {
  credentials : SorobanCredentials;
  rootInvocation : SorobanAuthorizedInvocation
}.

(** What is hashed and signed ([HashIdPreimageSorobanAuthorization]). *)
Record HashIdPreimage : Type := mkPreimage {
  networkId : Bytes;
  preimageNonce : Z;
  invocation : SorobanAuthorizedInvocation;
  preimageExpirationLedger : Z
}.

(** ** Union accessors

    Reading the arm of a union that is not the one set throws. *)

Definition armNotSet {A} (arm : string) : Completion A :=
  Throw (Error (arm ++ " not set")).

Definition credentials_address (c : SorobanCredentials)
  : Completion SorobanAddressCredentials :=
  match c with
  | SorobanCredentialsAddress a => Normal a
  | SorobanCredentialsSourceAccount => armNotSet "address"
  end.

Definition function_contractFn (f : SorobanAuthorizedFunction)
  : Completion InvokeContractArgs :=
  match f with
  | ContractFn c => Normal c
  | CreateContractHostFn _ _ _ => armNotSet "contractFn"
  end.

Definition ScVal_u32 (v : ScVal) : Completion Z :=
  match v with
  | ScvU32 n => Normal n
  | _ => armNotSet "u32"
  end.

Definition ScVal_i128 (v : ScVal) : Completion Int128Parts :=
  match v with
  | ScvI128 p => Normal p
  | _ => armNotSet "i128"
  end.

(** [a[i]] followed by a method call: [undefined] has no methods. *)
Definition index {A} (a : list A) (i : nat) : Completion A :=
  match nth_error a i with
  | Some x => Normal x
  | None => Throw (Error "undefined is not an object")
  end.

(** The value of an [i128] and the parts of a value, as the contract
    client writes a [bigint] argument. *)
Definition i128_value (p : Int128Parts) : Z :=
  (hi p * 2 ^ 64 + lo p)%Z.

Definition i128_parts (n : Z) : Int128Parts :=
  {| hi := (n / 2 ^ 64)%Z; lo := (n mod 2 ^ 64)%Z |}.

End Xdr.
Export Xdr.

(** ** Field widths

    What the XDR schema fixes about each integer and opaque field; a value
    that breaks one of these cannot be written by the codec. *)

Module Wf.

Definition u32 (n : Z) : bool := ((0 <=? n) && (n <? 2 ^ 32))%Z.
Definition i32 (n : Z) : bool := ((- 2 ^ 31 <=? n) && (n <? 2 ^ 31))%Z.
Definition u64 (n : Z) : bool := ((0 <=? n) && (n <? 2 ^ 64))%Z.
Definition i64 (n : Z) : bool := ((- 2 ^ 63 <=? n) && (n <? 2 ^ 63))%Z.
Definition bytes32 (b : Bytes) : bool := Nat.eqb (List.length b) 32.
Definition opaque (b : Bytes) : bool := (Z.of_nat (List.length b) <? 2 ^ 32)%Z.
Definition symbol (s : string) : bool := Nat.leb (String.length s) 32.

Definition scAddress (a : ScAddress) : bool :=
  match a with
  | ScAddressTypeAccount k => bytes32 k
  | ScAddressTypeContract h => bytes32 h
  end.

Definition count {A} (l : list A) : bool :=
  (Z.of_nat (List.length l) <? 2 ^ 32)%Z.

Fixpoint scVal (v : ScVal) : bool :=
  match v with
  | ScvBool _ | ScvVoid => true
  | ScvU32 n => u32 n
  | ScvI32 n => i32 n
  | ScvU64 n => u64 n
  | ScvI64 n => i64 n
  | ScvI128 p => i64 (hi p) && u64 (lo p)
  | ScvBytes b => opaque b
  | ScvSymbol s => symbol s
  | ScvVec l => count l && forallb scVal l
  | ScvMap m =>
      count m && forallb (fun kv => scVal (fst kv) && scVal (snd kv)) m
  | ScvAddress a => scAddress a
  end.

Definition invokeContractArgs (c : InvokeContractArgs) : bool :=
  scAddress (contractAddress c) && symbol (functionName c)
  && count (args c) && forallb scVal (args c).

Definition authorizedFunction (f : SorobanAuthorizedFunction) : bool :=
  match f with
  | ContractFn c => invokeContractArgs c
  | CreateContractHostFn d s w => scAddress d && bytes32 s && bytes32 w
  end.

Fixpoint authorizedInvocation (i : SorobanAuthorizedInvocation) : bool :=
  match i with
  | mkInvocation f subs =>
      authorizedFunction f && count subs && forallb authorizedInvocation subs
  end.

Definition sorobanCredentials (c : SorobanCredentials) : bool :=
  match c with
  | SorobanCredentialsSourceAccount => true
  | SorobanCredentialsAddress a =>
      scAddress (address a) && i64 (nonce a)
      && u32 (signatureExpirationLedger a) && scVal (signature a)
  end.

Definition entry (e : SorobanAuthorizationEntry) : bool :=
  sorobanCredentials (credentials e) && authorizedInvocation (rootInvocation e).

End Wf.

(* ================================================================== *)
(** * The SDK

    The functions of [@stellar/stellar-sdk] and [buffer] that the service
    calls and that are pure.  Their code is not part of the service; the one
    property used of them is that decoding inverts encoding ([CodecLaw]). *)

(** A transaction as the contract client assembles it: the built envelope
    and, once simulated, the authorization entries the simulation asks for
    ([tx.simulationData?.result?.auth], each link of which may be absent). *)
Record SimulationResult : Type := mkSimulationResult {
  auth : option (list SorobanAuthorizationEntry)
}.

Record SimulationData : Type := mkSimulationData {
  result : option SimulationResult
}.

Record AssembledTransaction : Type := mkAssembledTransaction {
  built : string;
  simulationData : option SimulationData
}.

Record Sdk : Type := mkSdk {
  (** [xdr.SorobanAuthorizationEntry.fromXDR(s, 'base64')] *)
  entry_fromXDR : string -> Completion SorobanAuthorizationEntry;
  (** [entry.toXDR('base64')] *)
  entry_toXDR : SorobanAuthorizationEntry -> string;
  (** [Address.fromScAddress(a).toString()] *)
  Address_toString : ScAddress -> Completion string;
  (** [preimage.toXDR('base64')]; [preimage.toXDR()] is the same
      serialization before its transport encoding.  Writing throws when a
      field does not fit its XDR type, as an expiration ledger that is not
      a [u32] does. *)
  preimage_toXDR : HashIdPreimage -> Completion string;
  (** [Buffer.from(s, 'base64')] *)
  Buffer_from_base64 : string -> Bytes;
  (** [hash(Buffer.from(networkPassphrase))] *)
  hash : string -> Bytes;
  (** [Keypair.fromPublicKey(k).verify(hash(preimage.toXDR()), sig)] *)
  Keypair_verify : string -> HashIdPreimage -> Bytes -> Completion bool;
  (** [StrKey.decodeEd25519PublicKey(k)] *)
  decodeEd25519PublicKey : string -> Bytes;
  (** [tx.toXDR()] *)
  transaction_toXDR : AssembledTransaction -> string
}.

(** Decoding what was encoded gives the entry back. *)
Definition CodecLaw (sdk : Sdk) : Prop :=
  forall e : SorobanAuthorizationEntry,
    Wf.entry e = true -> entry_fromXDR sdk (entry_toXDR sdk e) = Normal e.

(* ================================================================== *)
(** * Awaited calls

    An [async] method is a function from the trace of awaited calls made so
    far to its completion and the trace it leaves.  [await] asks an oracle,
    which sees the trace, and records the call. *)

Record ClientOptions : Type := mkClientOptions {
  contractId : string;
  networkPassphrase : string;
  rpcUrl : string;
  publicKey : option string
}.

Record MethodOptions : Type := mkMethodOptions { timeoutInSeconds : Z }.

Record StartGameArgs : Type := mkStartGameArgs {
  session_id : Z;
  player1 : string;
  player2 : string;
  player1_points : Z;
  player2_points : Z
}.

Record SignAuthEntryOptions : Type := mkSignAuthEntryOptions {
  sign_networkPassphrase : string;
  sign_address : string
}.

Inductive Call : Type :=
| Call_start_game (options : ClientOptions) (args : StartGameArgs)
                  (methodOptions : MethodOptions)
| Call_get_game (options : ClientOptions) (sessionId : Z)
| Call_get_hand_value (options : ClientOptions) (sessionId : Z)
                      (player : string)
| Call_simulate
| Call_resimulate (tx : AssembledTransaction)
| Call_calculateValidUntilLedger (url : string) (ttlMinutes : Z)
| Call_signAuthEntry (preimageXdr : string) (opts : SignAuthEntryOptions).

Definition Trace := list Call.

Definition Async (A : Type) : Type := Trace -> Completion A * Trace.

Module Async.

Definition ret {A} (a : A) : Async A := fun t => (Normal a, t).

Definition throw {A} (e : Exception) : Async A := fun t => (Throw e, t).

Definition bind {A B} (m : Async A) (k : A -> Async B) : Async B :=
  fun t =>
    match m t with
    | (Normal a, t') => k a t'
    | (Throw e, t') => (Throw e, t')
    end.

(** A synchronous expression evaluated inside an [async] method. *)
Definition lift {A} (c : Completion A) : Async A := fun t => (c, t).

(** [await f(...)] for an [f] that reaches outside the service. *)
Definition await {A} (c : Call) (answer : Trace -> Completion A) : Async A :=
  fun t => (answer t, (t ++ [c])%list).

(** [try { body } catch (err) { handler }] around awaited code. *)
Definition try_catch {A} (body : Async A) (handler : Exception -> Async A)
  : Async A :=
  fun t =>
    match body t with
    | (Normal a, t') => (Normal a, t')
    | (Throw e, t') => handler e t'
    end.

End Async.

Declare Scope async_scope.
Delimit Scope async_scope with async.
Notation "x <- c ;; k" := (Async.bind c (fun x => k))
  (at level 61, c at next level, right associativity) : async_scope.

(** An [async] computation keeps the calls made before it and adds its
    own. *)
Definition Extends {A} (m : Async A) : Prop :=
  forall t, exists more, snd (m t) = (t ++ more)%list.

(** ** The wallet *)

Record WalletError : Type := mkWalletError {
  wallet_message : string;
  wallet_code : Z
}.

Record SignAuthEntryResult : Type := mkSignAuthEntryResult {
  signedAuthEntry : string;
  error : option WalletError
}.

(** [Pick<ClientOptions, 'signTransaction' | 'signAuthEntry'>]: both
    capabilities are optional. *)
Record Signer : Type := mkSigner {
  signTransaction : option (Trace -> string -> Completion string);
  signAuthEntry :
    option (Trace -> string -> SignAuthEntryOptions
            -> Completion SignAuthEntryResult)
}.

(** ** The contract client and the ledger utilities *)

(** [Result<T>] of a contract call. *)
Inductive ContractResult (T : Type) : Type :=
| Ok (value : T)
| Err (cause : string).
Arguments Ok {T} value.
Arguments Err {T} cause.

(** A simulated read-only transaction; its [result] getter may throw. *)
Record Simulated (T : Type) : Type := mkSimulated {
  tx_result : Completion (ContractResult T)
}.
Arguments tx_result {T} s.
Arguments mkSimulated {T} tx_result.

(** A read-only transaction as built, with its [simulate] method. *)
Record QueryTransaction (T : Type) : Type := mkQueryTransaction {
  simulate : Trace -> Completion (Simulated T)
}.
Arguments simulate {T} q t.
Arguments mkQueryTransaction {T} simulate.

Record World (Game : Type) : Type := mkWorld {
  start_game : Trace -> ClientOptions -> StartGameArgs -> MethodOptions
               -> Completion AssembledTransaction;
  get_game : Trace -> ClientOptions -> Z
             -> Completion (QueryTransaction Game);
  get_hand_value : Trace -> ClientOptions -> Z -> string
                   -> Completion (QueryTransaction Z);
  calculateValidUntilLedger : Trace -> string -> Z -> Completion Z;
  resimulate : Trace -> AssembledTransaction
               -> Completion AssembledTransaction
}.
Arguments start_game {Game} w.
Arguments get_game {Game} w.
Arguments get_hand_value {Game} w.
Arguments calculateValidUntilLedger {Game} w.
Arguments resimulate {Game} w.

(** ** The constants module *)

Record Constants : Type := mkConstants {
  TWENTY_ONE_CONTRACT : string;
  NETWORK_PASSPHRASE : string;
  RPC_URL : string;
  DEFAULT_METHOD_OPTIONS : MethodOptions;
  DEFAULT_AUTH_TTL_MINUTES : Z;
  MULTI_SIG_AUTH_TTL_MINUTES : Z
}.

(* ================================================================== *)
(** * [authorizeEntry]

    The SDK's signing helper, as the service uses it: an entry with
    source-account credentials is returned as it is; otherwise a copy gets
    the expiration ledger, the preimage built from the copy is serialized
    and hashed ([hash(preimage.toXDR())], the payload), the callback signs
    the preimage, the signature is verified against the entry's address and
    stored.  The payload is computed before the callback is called, so a
    preimage that cannot be written fails the call with the callback never
    asked.  An exception of the callback is not caught. *)

Section AuthorizeEntry.

Variable sdk : Sdk.

Definition signatureScVal (publicKeyString : string) (sig : Bytes) : ScVal :=
  ScvVec
    [ScvMap
       [(ScvSymbol "public_key",
         ScvBytes (decodeEd25519PublicKey sdk publicKeyString));
        (ScvSymbol "signature", ScvBytes sig)]].

Definition authorizeEntry (entry : SorobanAuthorizationEntry)
           (signer : HashIdPreimage -> Async Bytes)
           (validUntilLedgerSeq : Z) (passphrase : string)
  : Async SorobanAuthorizationEntry :=
  match credentials entry with
  | SorobanCredentialsSourceAccount => Async.ret entry
  | SorobanCredentialsAddress addrAuth =>
      let preimage :=
        {| networkId := hash sdk passphrase;
           preimageNonce := nonce addrAuth;
           invocation := rootInvocation entry;
           preimageExpirationLedger := validUntilLedgerSeq |} in
      (_ <- Async.lift (preimage_toXDR sdk preimage) ;;
       sig <- signer preimage ;;
       publicKeyString <-
         Async.lift (Address_toString sdk (address addrAuth)) ;;
       valid <-
         Async.lift (Keypair_verify sdk publicKeyString preimage sig) ;;
       if negb valid
       then Async.throw (Error "signature doesn't match payload")
       else
         Async.ret
           {| credentials :=
                SorobanCredentialsAddress
                  {| address := address addrAuth;
                     nonce := nonce addrAuth;
                     signatureExpirationLedger := validUntilLedgerSeq;
                     signature := signatureScVal publicKeyString sig |};
              rootInvocation := rootInvocation entry |})%async
  end.

End AuthorizeEntry.

(* ================================================================== *)
(** * The service *)

(** What [parseAuthEntry] returns. *)
Module GameParams.

Record t : Type := mk {
  sessionId : Z;
  player1 : string;
  player1Points : Z
}.

End GameParams.

Section TwentyOneService.

Variable sdk : Sdk.
Variable consts : Constants.
Variable Game : Type.
Variable world : World Game.

(** [this.baseClient]: the client for read-only operations. *)
Definition baseClient : ClientOptions :=
  {| contractId := TWENTY_ONE_CONTRACT consts;
     networkPassphrase := NETWORK_PASSPHRASE consts;
     rpcUrl := RPC_URL consts;
     publicKey := None |}.

(** [new TwentyOneClient({ ..., publicKey })]: a client whose transactions
    have [key] as their source account. *)
Definition clientFor (key : string) : ClientOptions :=
  {| contractId := TWENTY_ONE_CONTRACT consts;
     networkPassphrase := NETWORK_PASSPHRASE consts;
     rpcUrl := RPC_URL consts;
     publicKey := Some key |}.

(** The awaited calls that leave the service, each recorded with its
    arguments. *)
Definition awaitStartGame (client : ClientOptions) (args : StartGameArgs)
           (methodOptions : MethodOptions) : Async AssembledTransaction :=
  Async.await (Call_start_game client args methodOptions)
              (fun t => start_game world t client args methodOptions).

Definition awaitValidUntilLedger (url : string) (ttlMinutes : Z) : Async Z :=
  Async.await (Call_calculateValidUntilLedger url ttlMinutes)
              (fun t => calculateValidUntilLedger world t url ttlMinutes).

(** ** [getGame] and [getHandValue] *)

Definition getGame (sessionId : Z) : Async (option Game) :=
  Async.try_catch
    (tx <- Async.await (Call_get_game baseClient sessionId)
             (fun t => get_game world t baseClient sessionId) ;;
     simulated <- Async.await Call_simulate (simulate tx) ;;
     r <- Async.lift (tx_result simulated) ;;
     match r with
     | Ok game => Async.ret (Some game)
     | Err _ => Async.ret None
     end)%async
    (fun _ => Async.ret None).

Definition getHandValue (sessionId : Z) (player : string)
  : Async (option Z) :=
  Async.try_catch
    (tx <- Async.await (Call_get_hand_value baseClient sessionId player)
             (fun t => get_hand_value world t baseClient sessionId player) ;;
     simulated <- Async.await Call_simulate (simulate tx) ;;
     r <- Async.lift (tx_result simulated) ;;
     match r with
     | Ok value => Async.ret (Some value)
     | Err _ => Async.ret None
     end)%async
    (fun _ => Async.ret None).

(** ** [prepareStartGame] *)

(** The body of the scan's [try] block for one entry: [true] when the entry
    is the one looked for ([break]), [false] when the loop goes on. *)
Definition isEntryOf (target : string) (entry : SorobanAuthorizationEntry)
  : Completion bool :=
  let credentialType := switch_name (credentials entry) in
  if negb (credentialType =? "sorobanCredentialsAddress")
  then Normal false
  else
    (addressCredentials <- credentials_address (credentials entry) ;;
     entryAddressString <-
       Address_toString sdk (address addressCredentials) ;;
     Normal (entryAddressString =? target))%completion.

(** The [for] loop over [authEntries]: the first entry for which the body
    breaks; an exception inside the body continues with the next entry. *)
Fixpoint findAuthEntry (authEntries : list SorobanAuthorizationEntry)
         (target : string) : option SorobanAuthorizationEntry :=
  match authEntries with
  | [] => None
  | entry :: rest =>
      match isEntryOf target entry with
      | Normal true => Some entry
      | Normal false => findAuthEntry rest target
      | Throw _ => findAuthEntry rest target
      end
  end.

(** [tx.simulationData?.result?.auth] *)
Definition simulatedAuth (tx : AssembledTransaction)
  : option (list SorobanAuthorizationEntry) :=
  match simulationData tx with
  | None => None
  | Some data =>
      match result data with
      | None => None
      | Some r => auth r
      end
  end.

(** The callback handed to [authorizeEntry]; the arguments of the wallet
    call, [preimage.toXDR('base64')] among them, are evaluated before the
    wallet is called. *)
Definition walletSigner (signer : Signer) (address : string)
           (preimage : HashIdPreimage) : Async Bytes :=
  match signAuthEntry signer with
  | None => Async.throw (Error "Wallet does not support auth entry signing")
  | Some sign =>
      let opts :=
        {| sign_networkPassphrase := NETWORK_PASSPHRASE consts;
           sign_address := address |} in
      (preimageXdr <- Async.lift (preimage_toXDR sdk preimage) ;;
       signResult <- Async.await (Call_signAuthEntry preimageXdr opts)
                       (fun t => sign t preimageXdr opts) ;;
       match error signResult with
       | Some e =>
           Async.throw
             (Error ("Failed to sign auth entry: " ++ wallet_message e))
       | None =>
           Async.ret (Buffer_from_base64 sdk (signedAuthEntry signResult))
       end)%async
  end.

Definition startGameArgs (sessionId : Z) (p1 p2 : string)
           (p1Points p2Points : Z) : StartGameArgs :=
  {| session_id := sessionId;
     player1 := p1;
     player2 := p2;
     player1_points := p1Points;
     player2_points := p2Points |}.

Definition prepareStartGame (sessionId : Z) (player1 player2 : string)
           (player1Points player2Points : Z) (player1Signer : Signer)
           (authTtlMinutes : option Z) : Async string :=
  let buildClient := clientFor player2 in
  let args :=
    startGameArgs sessionId player1 player2 player1Points player2Points in
  (tx <- awaitStartGame buildClient args (DEFAULT_METHOD_OPTIONS consts) ;;
   match simulatedAuth tx with
   | None => Async.throw (Error "No auth entries found in simulation")
   | Some authEntries =>
       match findAuthEntry authEntries player1 with
       | None =>
           Async.throw
             (Error ("No auth entry found for Player 1 (" ++ player1 ++ ")"))
       | Some player1AuthEntry =>
           validUntilLedgerSeq <-
             match authTtlMinutes with
             | Some minutes =>
                 if truthy minutes
                 then awaitValidUntilLedger (RPC_URL consts) minutes
                 else awaitValidUntilLedger
                        (RPC_URL consts) (MULTI_SIG_AUTH_TTL_MINUTES consts)
             | None =>
                 awaitValidUntilLedger
                   (RPC_URL consts) (MULTI_SIG_AUTH_TTL_MINUTES consts)
             end ;;
           match signAuthEntry player1Signer with
           | None =>
               Async.throw (Error "signAuthEntry function not available")
           | Some _ =>
               signedAuthEntry <-
                 authorizeEntry sdk player1AuthEntry
                                (walletSigner player1Signer player1)
                                validUntilLedgerSeq
                                (NETWORK_PASSPHRASE consts) ;;
               Async.ret (entry_toXDR sdk signedAuthEntry)
           end
       end
   end)%async.

(** ** [parseAuthEntry] *)

Definition parseAuthEntry (authEntryXDR : string)
  : Completion GameParams.t :=
  Js.try_catch
    (authEntry <- entry_fromXDR sdk authEntryXDR ;;
     let creds := credentials authEntry in
     if negb (switch_name creds =? "sorobanCredentialsAddress")
     then Throw (Error ("Unsupported credentials type: " ++ switch_name creds))
     else
       addressCredentials <- credentials_address creds ;;
       p1 <- Address_toString sdk (address addressCredentials) ;;
       contractFn <- function_contractFn (function (rootInvocation authEntry)) ;;
       let name := functionName contractFn in
       if negb (name =? "start_game")
       then Throw (Error ("Invalid function name: " ++ name
                          ++ ". Expected start_game"))
       else
         let a := args contractFn in
         if negb (Nat.eqb (List.length a) 2)
         then Throw (Error ("Invalid number of arguments: "
                            ++ string_of_nat (List.length a)
                            ++ ". Expected 2"))
         else
           arg0 <- index a 0 ;;
           sid <- ScVal_u32 arg0 ;;
           arg1 <- index a 1 ;;
           points <- ScVal_i128 arg1 ;;
           Normal {| GameParams.sessionId := sid;
                     GameParams.player1 := p1;
                     GameParams.player1Points := lo points |})%completion
    (fun err =>
       Throw (Error ("Failed to parse auth entry: "
                     ++ message_or err "unknown error"))).

(** ** [importAndSignAuthEntry] *)

(** The errors of the assembler, by the names the spec gives them. *)
Definition AddressMismatch : Exception := Error "AddressMismatch".
Definition UnsupportedCredential : Exception := Error "UnsupportedCredential".

(** A placeholder: an address entry that carries no signature yet. *)
Definition isStub (entry : SorobanAuthorizationEntry) : bool :=
  match credentials entry with
  | SorobanCredentialsAddress c =>
      match signature c with
      | ScvVoid => true
      | _ => false
      end
  | SorobanCredentialsSourceAccount => false
  end.

(** The list with its first placeholder of [target] replaced by [signed],
    or nothing when no placeholder is [target]'s: an entry of [target] that
    is signed already is not a placeholder, and is passed over. *)
Fixpoint replaceEntryOf (target : string) (signed : SorobanAuthorizationEntry)
         (entries : list SorobanAuthorizationEntry)
  : option (list SorobanAuthorizationEntry) :=
  match entries with
  | [] => None
  | entry :: rest =>
      match isEntryOf target entry with
      | Normal true =>
          if isStub entry
          then Some (signed :: rest)
          else option_map (cons entry) (replaceEntryOf target signed rest)
      | Normal false => option_map (cons entry) (replaceEntryOf target signed rest)
      | Throw _ => option_map (cons entry) (replaceEntryOf target signed rest)
      end
  end.

(** Every remaining placeholder of the local party is signed. *)
Fixpoint signRemaining (localAddress : string) (signer : Signer)
         (validUntilLedgerSeq : Z) (entries : list SorobanAuthorizationEntry)
  : Async (list SorobanAuthorizationEntry) :=
  match entries with
  | [] => Async.ret []
  | entry :: rest =>
      (signed <-
         match isEntryOf localAddress entry with
         | Normal true =>
             if isStub entry
             then authorizeEntry sdk entry (walletSigner signer localAddress)
                                 validUntilLedgerSeq
                                 (NETWORK_PASSPHRASE consts)
             else Async.ret entry
         | Normal false => Async.ret entry
         | Throw _ => Async.ret entry
         end ;;
       others <- signRemaining localAddress signer validUntilLedgerSeq rest ;;
       Async.ret (signed :: others))%async
  end.

Definition withAuth (tx : AssembledTransaction)
           (entries : list SorobanAuthorizationEntry) : AssembledTransaction :=
  {| built := built tx;
     simulationData :=
       Some {| result := Some {| auth := Some entries |} |} |}.

(** Modelled from the spec: [injectSignedAuthEntry] is imported from
    '@/utils/authEntryUtils', a module of the repository that is not among
    the sources.  It is the spec's TransactionAssembler (4.4) after the
    local build: the placeholder matching the remote signer's address is
    replaced by the decoded signed entry and the bundle is simulated again,
    then every remaining placeholder of the local party is signed.  A remote
    entry whose signer address corresponds to no placeholder of the local
    bundle (4.4, 7: the address is not found among the local stubs, an
    entry without signature each) fails at once with AddressMismatch; one
    that is not an address entry is an UnsupportedCredential. *)
Definition injectSignedAuthEntry (tx : AssembledTransaction)
           (player1AuthEntryXDR : string) (localAddress : string)
           (localSigner : Signer) : Async AssembledTransaction :=
  (remote <- Async.lift (entry_fromXDR sdk player1AuthEntryXDR) ;;
   match credentials remote with
   | SorobanCredentialsSourceAccount => Async.throw UnsupportedCredential
   | SorobanCredentialsAddress c =>
       remoteAddress <- Async.lift (Address_toString sdk (address c)) ;;
       let placeholders :=
         match simulatedAuth tx with
         | Some entries => entries
         | None => []
         end in
       match replaceEntryOf remoteAddress remote placeholders with
       | None => Async.throw AddressMismatch
       | Some merged =>
           resimulated <-
             Async.await (Call_resimulate (withAuth tx merged))
                         (fun t => resimulate world t (withAuth tx merged)) ;;
           validUntilLedgerSeq <-
             awaitValidUntilLedger (RPC_URL consts)
                                   (DEFAULT_AUTH_TTL_MINUTES consts) ;;
           signed <-
             signRemaining localAddress localSigner validUntilLedgerSeq
                           match simulatedAuth resimulated with
                           | Some entries => entries
                           | None => []
                           end ;;
           Async.ret (withAuth resimulated signed)
       end
   end)%async.

Definition importAndSignAuthEntry (player1AuthEntryXDR : string)
           (player2 : string) (player2Points : Z) (player2Signer : Signer)
  : Async string :=
  (gameParams <- Async.lift (parseAuthEntry player1AuthEntryXDR) ;;
   let client := clientFor player2 in
   tx <- awaitStartGame
           client
           (startGameArgs (GameParams.sessionId gameParams)
                          (GameParams.player1 gameParams)
                          player2
                          (GameParams.player1Points gameParams)
                          player2Points)
           (DEFAULT_METHOD_OPTIONS consts) ;;
   updatedTx <-
     injectSignedAuthEntry tx player1AuthEntryXDR player2 player2Signer ;;
   Async.ret (transaction_toXDR sdk updatedTx))%async.

End TwentyOneService.

Arguments awaitStartGame {Game} world client args methodOptions.
Arguments awaitValidUntilLedger {Game} world url ttlMinutes.
Arguments getGame consts {Game} world sessionId.
Arguments getHandValue consts {Game} world sessionId player.
Arguments prepareStartGame sdk consts {Game} world sessionId player1 player2
  player1Points player2Points player1Signer authTtlMinutes.
Arguments injectSignedAuthEntry sdk consts {Game} world tx
  player1AuthEntryXDR localAddress localSigner.
Arguments importAndSignAuthEntry sdk consts {Game} world
  player1AuthEntryXDR player2 player2Points player2Signer.

(* ================================================================== *)
(** * A codec to run the service with

    XDR as the schema lays it out (big-endian words, four-byte alignment,
    discriminated unions, counted arrays) for the types above, and base64
    for transport.  It gives the service something to compute with and shows
    that [CodecLaw] can be met. *)

Module Octet.

Definition ofZ (z : Z) : Byte.byte :=
  match Byte.of_N (Z.to_N (z mod 256)) with
  | Some b => b
  | None => Byte.x00
  end.

Definition toZ (b : Byte.byte) : Z := Z.of_N (Byte.to_N b).

End Octet.

Module Base64.

Definition alphabet : list ascii :=
  list_ascii_of_string
    "ABCDEFGHIJKLMNOPQRSTUVWXYZabcdefghijklmnopqrstuvwxyz0123456789+/".

Definition digit (n : Z) : ascii := nth (Z.to_nat n) alphabet "="%char.

Fixpoint position (c : ascii) (l : list ascii) (i : Z) : option Z :=
  match l with
  | [] => None
  | x :: r => if Ascii.eqb c x then Some i else position c r (Z.succ i)
  end.

Definition value (c : ascii) : option Z := position c alphabet 0%Z.

Fixpoint encode (bs : Bytes) : string :=
  match bs with
  | [] => ""
  | [a] =>
      let a := Octet.toZ a in
      String (digit (a / 4))
        (String (digit (a mod 4 * 16)) "==")
  | [a; b] =>
      let a := Octet.toZ a in
      let b := Octet.toZ b in
      String (digit (a / 4))
        (String (digit (a mod 4 * 16 + b / 16))
           (String (digit (b mod 16 * 4)) "="))
  | a :: b :: c :: rest =>
      let a := Octet.toZ a in
      let b := Octet.toZ b in
      let c := Octet.toZ c in
      String (digit (a / 4))
        (String (digit (a mod 4 * 16 + b / 16))
           (String (digit (b mod 16 * 4 + c / 64))
              (String (digit (c mod 64)) (encode rest))))
  end%Z.

(** The bytes of one group of four digits, the last [pad] of which are
    padding. *)
Definition group (v1 v2 v3 v4 : Z) (pad : nat) : Bytes :=
  let b1 := Octet.ofZ (v1 * 4 + v2 / 16) in
  let b2 := Octet.ofZ (v2 mod 16 * 16 + v3 / 4) in
  let b3 := Octet.ofZ (v3 mod 4 * 64 + v4) in
  match pad with
  | O => [b1; b2; b3]
  | S O => [b1; b2]
  | _ => [b1]
  end%Z.

Fixpoint decode (s : string) : option Bytes :=
  match s with
  | "" => Some []
  | String c1 (String c2 (String c3 (String c4 rest))) =>
      match value c1, value c2 with
      | Some v1, Some v2 =>
          match value c3, value c4, rest with
          | Some v3, Some v4, _ =>
              option_map (app (group v1 v2 v3 v4 0)) (decode rest)
          | Some v3, None, "" =>
              if Ascii.eqb c4 "=" then Some (group v1 v2 v3 0 1) else None
          | None, None, "" =>
              if Ascii.eqb c3 "=" && Ascii.eqb c4 "="
              then Some (group v1 v2 0 0 2) else None
          | _, _, _ => None
          end
      | _, _ => None
      end
  | _ => None
  end.

End Base64.

Module XdrCodec.

(** A reader takes what it reads off the front of the bytes. *)
Definition Reader (A : Type) : Type := Bytes -> option (A * Bytes).

Definition pure {A} (a : A) : Reader A := fun bs => Some (a, bs).

Definition fail {A} : Reader A := fun _ => None.

Definition andThen {A B} (r : Reader A) (k : A -> Reader B) : Reader B :=
  fun bs =>
    match r bs with
    | Some (a, rest) => k a rest
    | None => None
    end.

Declare Scope reader_scope.
Delimit Scope reader_scope with reader.
Notation "x <- c ;; k" := (andThen c (fun x => k))
  (at level 61, c at next level, right associativity) : reader_scope.

(** The reader takes [x] off the front of [bytes], whatever follows. *)
Definition Reads {A} (r : Reader A) (bytes : Bytes) (x : A) : Prop :=
  forall rest, r (bytes ++ rest)%list = Some (x, rest).

(** ** Words *)

(** The [k] low bytes of [n], most significant first; a negative [n] comes
    out in two's complement. *)
Fixpoint putWord (k : nat) (n : Z) : Bytes :=
  match k with
  | O => []
  | S k' => Octet.ofZ (n / 256 ^ Z.of_nat k') :: putWord k' n
  end.

Fixpoint wordValue (bs : Bytes) (acc : Z) : Z :=
  match bs with
  | [] => acc
  | b :: rest => wordValue rest (acc * 256 + Octet.toZ b)%Z
  end.

Definition take (n : nat) : Reader Bytes :=
  fun bs =>
    if Nat.ltb (List.length bs) n then None
    else Some (firstn n bs, skipn n bs).

Definition getUnsigned (k : nat) : Reader Z :=
  (w <- take k ;; pure (wordValue w 0))%reader.

Definition getSigned (k : nat) : Reader Z :=
  (u <- getUnsigned k ;;
   pure (if (u <? 2 ^ (8 * Z.of_nat k - 1))%Z then u
         else (u - 2 ^ (8 * Z.of_nat k))%Z))%reader.

Definition putBool (b : bool) : Bytes := putWord 4 (if b then 1 else 0)%Z.

Definition getBool : Reader bool :=
  (w <- getUnsigned 4 ;;
   if (w =? 0)%Z then pure false
   else if (w =? 1)%Z then pure true else fail)%reader.

(** ** Opaque data and strings *)

Definition padding (n : nat) : nat := ((4 - n mod 4) mod 4)%nat.

Definition putOpaque (b : Bytes) : Bytes :=
  (putWord 4 (Z.of_nat (List.length b)) ++ b
   ++ repeat Byte.x00 (padding (List.length b)))%list.

Definition getOpaque : Reader Bytes :=
  (n <- getUnsigned 4 ;;
   b <- take (Z.to_nat n) ;;
   _ <- take (padding (Z.to_nat n)) ;;
   pure b)%reader.

Definition putString (s : string) : Bytes :=
  putOpaque (list_byte_of_string s).

Definition getString (max : nat) : Reader string :=
  (b <- getOpaque ;;
   if Nat.leb (List.length b) max then pure (string_of_list_byte b)
   else fail)%reader.

(** ** Arrays *)

Fixpoint getMany {A} (r : Reader A) (n : nat) : Reader (list A) :=
  match n with
  | O => pure []
  | S n' => (x <- r ;; xs <- getMany r n' ;; pure (x :: xs))%reader
  end.

Definition putArray {A} (put : A -> Bytes) (l : list A) : Bytes :=
  (putWord 4 (Z.of_nat (List.length l)) ++ flat_map put l)%list.

Definition getArray {A} (r : Reader A) : Reader (list A) :=
  (n <- getUnsigned 4 ;; getMany r (Z.to_nat n))%reader.

(** ** The types of the schema *)

Definition putScAddress (a : ScAddress) : Bytes :=
  match a with
  | ScAddressTypeAccount key => putWord 4 0 ++ putWord 4 0 ++ key
  | ScAddressTypeContract h => putWord 4 1 ++ h
  end%list.

Definition getScAddress : Reader ScAddress :=
  (tag <- getUnsigned 4 ;;
   if (tag =? 0)%Z then
     keyType <- getUnsigned 4 ;;
     if (keyType =? 0)%Z
     then key <- take 32 ;; pure (ScAddressTypeAccount key)
     else fail
   else if (tag =? 1)%Z then
     h <- take 32 ;; pure (ScAddressTypeContract h)
   else fail)%reader.

Fixpoint putScVal (v : ScVal) : Bytes :=
  match v with
  | ScvBool b => putWord 4 0 ++ putBool b
  | ScvVoid => putWord 4 1
  | ScvU32 n => putWord 4 3 ++ putWord 4 n
  | ScvI32 n => putWord 4 4 ++ putWord 4 n
  | ScvU64 n => putWord 4 5 ++ putWord 8 n
  | ScvI64 n => putWord 4 6 ++ putWord 8 n
  | ScvI128 p => putWord 4 10 ++ putWord 8 (hi p) ++ putWord 8 (lo p)
  | ScvBytes b => putWord 4 13 ++ putOpaque b
  | ScvSymbol s => putWord 4 15 ++ putString s
  | ScvVec l => putWord 4 16 ++ putWord 4 1 ++ putArray putScVal l
  | ScvMap m =>
      putWord 4 17 ++ putWord 4 1
      ++ putArray (fun kv => putScVal (fst kv) ++ putScVal (snd kv)) m
  | ScvAddress a => putWord 4 18 ++ putScAddress a
  end%list.

Fixpoint getScVal (fuel : nat) : Reader ScVal :=
  match fuel with
  | O => fail
  | S fuel' =>
      (tag <- getUnsigned 4 ;;
       match tag with
       | 0 => b <- getBool ;; pure (ScvBool b)
       | 1 => pure ScvVoid
       | 3 => n <- getUnsigned 4 ;; pure (ScvU32 n)
       | 4 => n <- getSigned 4 ;; pure (ScvI32 n)
       | 5 => n <- getUnsigned 8 ;; pure (ScvU64 n)
       | 6 => n <- getSigned 8 ;; pure (ScvI64 n)
       | 10 =>
           h <- getSigned 8 ;;
           l <- getUnsigned 8 ;;
           pure (ScvI128 {| hi := h; lo := l |})
       | 13 => b <- getOpaque ;; pure (ScvBytes b)
       | 15 => s <- getString 32 ;; pure (ScvSymbol s)
       | 16 =>
           present <- getUnsigned 4 ;;
           if (present =? 1)%Z
           then l <- getArray (getScVal fuel') ;; pure (ScvVec l)
           else fail
       | 17 =>
           present <- getUnsigned 4 ;;
           if (present =? 1)%Z
           then
             m <- getArray (k <- getScVal fuel' ;;
                            v <- getScVal fuel' ;;
                            pure (k, v)) ;;
             pure (ScvMap m)
           else fail
       | 18 => a <- getScAddress ;; pure (ScvAddress a)
       | _ => fail
       end%Z)%reader
  end.

Definition putInvokeContractArgs (c : InvokeContractArgs) : Bytes :=
  (putScAddress (contractAddress c) ++ putString (functionName c)
   ++ putArray putScVal (args c))%list.

Definition getInvokeContractArgs (fuel : nat) : Reader InvokeContractArgs :=
  (a <- getScAddress ;;
   name <- getString 32 ;;
   l <- getArray (getScVal fuel) ;;
   pure {| contractAddress := a; functionName := name; args := l |})%reader.

Definition putAuthorizedFunction (f : SorobanAuthorizedFunction) : Bytes :=
  match f with
  | ContractFn c => putWord 4 0 ++ putInvokeContractArgs c
  | CreateContractHostFn deployer salt wasmHash =>
      putWord 4 1 ++ putWord 4 0 ++ putScAddress deployer ++ salt
      ++ putWord 4 0 ++ wasmHash
  end%list.

Definition getAuthorizedFunction (fuel : nat)
  : Reader SorobanAuthorizedFunction :=
  (tag <- getUnsigned 4 ;;
   if (tag =? 0)%Z then
     c <- getInvokeContractArgs fuel ;; pure (ContractFn c)
   else if (tag =? 1)%Z then
     preimageType <- getUnsigned 4 ;;
     if (preimageType =? 0)%Z then
       deployer <- getScAddress ;;
       salt <- take 32 ;;
       executableType <- getUnsigned 4 ;;
       if (executableType =? 0)%Z then
         wasmHash <- take 32 ;;
         pure (CreateContractHostFn deployer salt wasmHash)
       else fail
     else fail
   else fail)%reader.

Fixpoint putInvocation (i : SorobanAuthorizedInvocation) : Bytes :=
  match i with
  | mkInvocation f subs =>
      (putAuthorizedFunction f ++ putArray putInvocation subs)%list
  end.

Fixpoint getInvocation (fuel : nat) : Reader SorobanAuthorizedInvocation :=
  match fuel with
  | O => fail
  | S fuel' =>
      (f <- getAuthorizedFunction fuel ;;
       subs <- getArray (getInvocation fuel') ;;
       pure (mkInvocation f subs))%reader
  end.

Definition putCredentials (c : SorobanCredentials) : Bytes :=
  match c with
  | SorobanCredentialsSourceAccount => putWord 4 0
  | SorobanCredentialsAddress a =>
      putWord 4 1 ++ putScAddress (address a) ++ putWord 8 (nonce a)
      ++ putWord 4 (signatureExpirationLedger a) ++ putScVal (signature a)
  end%list.

Definition getCredentials (fuel : nat) : Reader SorobanCredentials :=
  (tag <- getUnsigned 4 ;;
   if (tag =? 0)%Z then pure SorobanCredentialsSourceAccount
   else if (tag =? 1)%Z then
     a <- getScAddress ;;
     n <- getSigned 8 ;;
     expiration <- getUnsigned 4 ;;
     sig <- getScVal fuel ;;
     pure (SorobanCredentialsAddress
             {| address := a;
                nonce := n;
                signatureExpirationLedger := expiration;
                signature := sig |})
   else fail)%reader.

Definition putEntry (e : SorobanAuthorizationEntry) : Bytes :=
  (putCredentials (credentials e) ++ putInvocation (rootInvocation e))%list.

Definition getEntry (fuel : nat) : Reader SorobanAuthorizationEntry :=
  (c <- getCredentials fuel ;;
   i <- getInvocation fuel ;;
   pure {| credentials := c; rootInvocation := i |})%reader.

(** [ENVELOPE_TYPE_SOROBAN_AUTHORIZATION] and its preimage. *)
Definition putPreimage (p : HashIdPreimage) : Bytes :=
  (putWord 4 9 ++ networkId p ++ putWord 8 (preimageNonce p)
   ++ putWord 4 (preimageExpirationLedger p)
   ++ putInvocation (invocation p))%list.

(** [toXDR('base64')] and [fromXDR(_, 'base64')]: nesting is bounded by the
    number of bytes, and nothing may follow the entry. *)
Definition toXDR (e : SorobanAuthorizationEntry) : string :=
  Base64.encode (putEntry e).

Definition fromXDR (s : string) : Completion SorobanAuthorizationEntry :=
  match Base64.decode s with
  | None => Throw (Error "XDR Read Error: invalid base64")
  | Some bs =>
      match getEntry (List.length bs) bs with
      | Some (e, []) => Normal e
      | Some (_, _ :: _) =>
          Throw (Error "XDR Read Error: invalid XDR contract typecast - source buffer not entirely consumed")
      | None => Throw (Error "XDR Read Error: attempt to read outside the boundary of the buffer")
      end
  end.

End XdrCodec.

(** ** Addresses as text

    The strkey form of an address: base32 over a version byte, the 32 bytes
    of the key or contract id, and a CRC16 of both, low byte first. *)

Module StrKey.

Definition alphabet : list ascii :=
  list_ascii_of_string "ABCDEFGHIJKLMNOPQRSTUVWXYZ234567".

Definition crcBit (crc : Z) : Z :=
  if Z.testbit crc 15
  then Z.land (Z.lxor (Z.shiftl crc 1) 4129) 65535
  else Z.land (Z.shiftl crc 1) 65535.

Definition crcByte (crc : Z) (b : Byte.byte) : Z :=
  let start := Z.lxor crc (Z.shiftl (Octet.toZ b) 8) in
  crcBit (crcBit (crcBit (crcBit (crcBit (crcBit (crcBit (crcBit start))))))).

Definition crc16 (bs : Bytes) : Z := fold_left crcByte bs 0%Z.

(** The [k] base32 digits of [v], most significant first. *)
Fixpoint digits (k : nat) (v : Z) : string :=
  match k with
  | O => ""
  | S k' =>
      String (nth (Z.to_nat ((v / 32 ^ Z.of_nat k') mod 32)) alphabet "="%char)
             (digits k' v)
  end.

Definition encode (version : Z) (payload : Bytes) : string :=
  let body := (Octet.ofZ version :: payload)%list in
  let crc := crc16 body in
  let all :=
    (body ++ [Octet.ofZ crc; Octet.ofZ (crc / 256)])%list in
  let bitCount := (8 * Z.of_nat (List.length all))%Z in
  let digitCount := ((bitCount + 4) / 5)%Z in
  digits (Z.to_nat digitCount)
         (XdrCodec.wordValue all 0 * 2 ^ (5 * digitCount - bitCount))%Z.

Fixpoint digitsValue (s : string) (acc : Z) : option Z :=
  match s with
  | "" => Some acc
  | String c rest =>
      match Base64.position c alphabet 0%Z with
      | Some d => digitsValue rest (acc * 32 + d)%Z
      | None => None
      end
  end.

(** The payload of a strkey of 56 digits (35 bytes); the checksum is not
    looked at. *)
Definition payload (s : string) : Bytes :=
  match digitsValue s 0%Z with
  | Some v => firstn 32 (skipn 1 (XdrCodec.putWord 35 v))
  | None => []
  end.

Definition ofScAddress (a : ScAddress) : Completion string :=
  match a with
  | ScAddressTypeAccount key =>
      if Nat.eqb (List.length key) 32 then Normal (encode 48 key)
      else Throw (Error "Unsupported address type")
  | ScAddressTypeContract h =>
      if Nat.eqb (List.length h) 32 then Normal (encode 16 h)
      else Throw (Error "Unsupported address type")
  end.

End StrKey.

(* ================================================================== *)
(** * Test doubles

    An SDK built on the codec above, with a toy digest and signature scheme
    in place of SHA-256 and Ed25519; wallets that sign, decline or raise;
    and a network that answers [start_game] the way the contract's
    [require_auth_for_args] does: when player 2 is the source account,
    player 1 gets an address entry over its own arguments and player 2 a
    source-account entry. *)

Module Fake.

(** A toy digest: 32 bytes, each the sum of the input bytes at its
    residue. *)
Fixpoint digestFrom (bs : Bytes) (i : nat) (acc : list Z) : list Z :=
  match bs with
  | [] => acc
  | b :: rest =>
      digestFrom rest (S i)
        (firstn (i mod 32) acc
         ++ [(nth (i mod 32) acc 0 * 31 + Octet.toZ b + 7)%Z]
         ++ skipn (S (i mod 32)) acc)%list
  end.

Definition digest (s : string) : Bytes :=
  List.map Octet.ofZ
           (digestFrom (list_byte_of_string s) 0 (repeat 0%Z 32)).

(** A toy signature: the digest of the key and the message. *)
Definition toySignature (publicKeyString message : string) : Bytes :=
  (digest (publicKeyString ++ message)
   ++ digest (message ++ publicKeyString))%list.

Fixpoint bytes_eqb (a b : Bytes) : bool :=
  match a, b with
  | [], [] => true
  | x :: a', y :: b' => Byte.eqb x y && bytes_eqb a' b'
  | _, _ => false
  end.

Definition preimageXdr (p : HashIdPreimage) : string :=
  Base64.encode (XdrCodec.putPreimage p).

Definition transactionXdr (tx : AssembledTransaction) : string :=
  built tx
  ++ match simulationData tx with
     | Some {| result := Some {| auth := Some entries |} |} =>
         String.concat "" (List.map (fun e => ";" ++ XdrCodec.toXDR e) entries)
     | _ => ""
     end.

Definition sdk : Sdk :=
  {| entry_fromXDR := XdrCodec.fromXDR;
     entry_toXDR := XdrCodec.toXDR;
     Address_toString := StrKey.ofScAddress;
     preimage_toXDR :=
       fun p =>
         if Wf.u32 (preimageExpirationLedger p)
         then Normal (preimageXdr p)
         else Throw (Error "XDR Write Error: invalid u32 value");
     Buffer_from_base64 :=
       fun s => match Base64.decode s with
                | Some b => b
                | None => []
                end;
     hash := digest;
     Keypair_verify :=
       fun key p sig =>
         match key with
         | String "G" _ =>
             Normal (bytes_eqb sig (toySignature key (preimageXdr p)))
         | _ => Throw (Error "invalid encoded string")
         end;
     decodeEd25519PublicKey := StrKey.payload;
     transaction_toXDR := transactionXdr |}.

Definition consts : Constants :=
  {| TWENTY_ONE_CONTRACT :=
       "CAAAAAAAAAAAAAAAAAAAAAAAAAAAAAAAAAAAAAAAAAAAAAAAAAAABSC4";
     NETWORK_PASSPHRASE := "Test SDF Network ; September 2015";
     RPC_URL := "https://soroban-testnet.stellar.org";
     DEFAULT_METHOD_OPTIONS := {| timeoutInSeconds := 30 |};
     DEFAULT_AUTH_TTL_MINUTES := 5;
     MULTI_SIG_AUTH_TTL_MINUTES := 60 |}.

(** ** Wallets *)

Definition signingWallet : Signer :=
  {| signTransaction := None;
     signAuthEntry :=
       Some (fun _ preimage opts =>
               Normal
                 {| signedAuthEntry :=
                      Base64.encode (toySignature (sign_address opts) preimage);
                    error := None |}) |}.

Definition decliningWallet : Signer :=
  {| signTransaction := None;
     signAuthEntry :=
       Some (fun _ _ _ =>
               Normal
                 {| signedAuthEntry := "";
                    error :=
                      Some {| wallet_message := "The user rejected this request.";
                              wallet_code := (-4)%Z |} |}) |}.

Definition raisingWallet : Signer :=
  {| signTransaction := None;
     signAuthEntry :=
       Some (fun _ _ _ => Throw (Error "Wallet is locked")) |}.

Definition noWallet : Signer :=
  {| signTransaction := None; signAuthEntry := None |}.

(** ** The network *)

Definition keyA : Bytes := repeat Byte.x01 32.
Definition keyB : Bytes := repeat Byte.x02 32.
Definition ADDR_A : string := StrKey.encode 48 keyA.
Definition ADDR_B : string := StrKey.encode 48 keyB.
Definition contract : ScAddress := ScAddressTypeContract (repeat Byte.x00 32).

Definition startGameInvocation (sid points : Z)
  : SorobanAuthorizedInvocation :=
  mkInvocation
    (ContractFn
       {| contractAddress := contract;
          functionName := "start_game";
          args := [ScvU32 sid; ScvI128 (i128_parts points)] |})
    [].

(** The placeholder of a player who is not the source account. *)
Definition placeholder (player : string) (sid points : Z)
  : SorobanAuthorizationEntry :=
  {| credentials :=
       SorobanCredentialsAddress
         {| address := ScAddressTypeAccount (StrKey.payload player);
            nonce := 7;
            signatureExpirationLedger := 0;
            signature := ScvVoid |};
     rootInvocation := startGameInvocation sid points |}.

Definition sourceEntry (sid points : Z) : SorobanAuthorizationEntry :=
  {| credentials := SorobanCredentialsSourceAccount;
     rootInvocation := startGameInvocation sid points |}.

(** What simulating [start_game] asks for, given the source account. *)
Definition requiredAuth (source : option string) (a : StartGameArgs)
  : list SorobanAuthorizationEntry :=
  let entryOf player points :=
    if match source with
       | Some s => String.eqb s player
       | None => false
       end
    then sourceEntry (session_id a) points
    else placeholder player (session_id a) points in
  [entryOf (player2 a) (player2_points a);
   entryOf (player1 a) (player1_points a)].

Definition currentLedger : Z := 1000.

(** A game, for the read-only queries. *)
Record Game : Type := mkGame { hand1 : Z; hand2 : Z }.

Definition queryOf {T} (r : ContractResult T) : QueryTransaction T :=
  {| simulate := fun _ => Normal {| tx_result := Normal r |} |}.

(** Session 42 exists; session 13 cannot be simulated; no other session
    exists. *)
Definition world : World Game :=
  {| start_game :=
       fun _ client a _ =>
         Normal
           {| built := "start_game";
              simulationData :=
                Some {| result :=
                          Some {| auth :=
                                    Some (requiredAuth (publicKey client) a) |} |} |};
     get_game :=
       fun _ _ sid =>
         if (sid =? 42)%Z then Normal (queryOf (Ok {| hand1 := 17; hand2 := 20 |}))
         else if (sid =? 13)%Z
              then Normal {| simulate := fun _ => Throw (Error "simulation failed") |}
              else Normal (queryOf (Err "GameNotFound"));
     get_hand_value :=
       fun _ _ sid player =>
         if (sid =? 42)%Z
         then Normal (queryOf (Ok (if String.eqb player ADDR_A then 17 else 20)%Z))
         else Throw (Error "network error");
     calculateValidUntilLedger :=
       fun _ _ minutes => Normal (currentLedger + minutes * 12)%Z;
     resimulate := fun _ tx => Normal tx |}.

(** A network whose simulation asks for no authorization at all, and one
    that asks only for the source account's. *)
Definition worldWithAuth (entries : option (list SorobanAuthorizationEntry))
  : World Game :=
  {| start_game :=
       fun _ _ _ _ =>
         Normal
           {| built := "start_game";
              simulationData := Some {| result := Some {| auth := entries |} |} |};
     get_game := get_game world;
     get_hand_value := get_hand_value world;
     calculateValidUntilLedger := calculateValidUntilLedger world;
     resimulate := resimulate world |}.

End Fake.

(* ================================================================== *)
(** * The handshake, run

    Session 42 between [ADDR_A] and [ADDR_B], 10 and 15 points, on the test
    doubles. *)

Module Scenario.

Import Fake.

(** The artifact player 1 exports with a 60 minute TTL. *)
Definition S1 : string :=
  Eval vm_compute in
    match fst (prepareStartGame sdk consts world 42 ADDR_A ADDR_B 10 15
                                signingWallet (Some 60%Z) []) with
    | Normal artifact => artifact
    | Throw _ => ""
    end.

(** The signed entry inside [S1]. *)
Definition E1 : SorobanAuthorizationEntry :=
  Eval vm_compute in
    match XdrCodec.fromXDR S1 with
    | Normal e => e
    | Throw _ => sourceEntry 0 0
    end.

(** An entry signed for another function of the contract. *)
Definition endGameEntry : SorobanAuthorizationEntry :=
  {| credentials := credentials E1;
     rootInvocation :=
       mkInvocation
         (ContractFn {| contractAddress := contract;
                        functionName := "end_game";
                        args := [ScvU32 42] |})
         [] |}.

Definition endGameArtifact : string :=
  Eval vm_compute in XdrCodec.toXDR endGameEntry.

(** An entry for [start_game] with one argument too many. *)
Definition threeArgumentsEntry : SorobanAuthorizationEntry :=
  {| credentials := credentials E1;
     rootInvocation :=
       mkInvocation
         (ContractFn {| contractAddress := contract;
                        functionName := "start_game";
                        args := [ScvU32 42; ScvI128 (i128_parts 10);
                                 ScvI128 (i128_parts 15)] |})
         [] |}.

Definition threeArgumentsArtifact : string :=
  Eval vm_compute in XdrCodec.toXDR threeArgumentsEntry.

(** An entry authorized by the source account. *)
Definition sourceArtifact : string :=
  Eval vm_compute in XdrCodec.toXDR (sourceEntry 42 10).

(** A third party, and a network that asks for its authorization instead of
    player 1's. *)
Definition ADDR_C : string := StrKey.encode 48 (repeat Byte.x03 32).

Definition strangers : list SorobanAuthorizationEntry :=
  [sourceEntry 42 15; placeholder ADDR_C 42 10].

Definition strangeWorld : World Game := worldWithAuth (Some strangers).

(** The same session with a stake of 2^64 points for player 1. *)
Definition bigStake : Z := 18446744073709551616.

(** A network whose bundle carries player 1's entry signed already, so that
    no placeholder is left for player 1. *)
Definition alreadySigned : list SorobanAuthorizationEntry :=
  [sourceEntry 42 15; E1].

Definition signedWorld : World Game := worldWithAuth (Some alreadySigned).

End Scenario.

(* ================================================================== *)
(** * Playing the game: [finalizeStartGame], [hit], [stick], [revealWinner]

    The methods that sign and submit.  They await the contract client, the
    TTL calculator and [signAndSendViaLaunchtube], the submission helper of
    the front end; each awaited call is a step of a trace of its own kind. *)

(** What [createSigningClient] hands to the client constructor: the options
    of a client whose source account is the public key, with the signer's
    capabilities spread over them. *)
Record SigningClientOptions : Type := mkSigningClientOptions {
  clientOptions : ClientOptions;
  capabilities : Signer
}.

Inductive Step : Type :=
| Step_hit (client : SigningClientOptions) (sessionId : Z) (player : string)
           (methodOptions : MethodOptions)
| Step_stick (client : SigningClientOptions) (sessionId : Z) (player : string)
             (methodOptions : MethodOptions)
| Step_reveal_winner (client : SigningClientOptions) (sessionId : Z)
                     (methodOptions : MethodOptions)
| Step_simulate (tx : AssembledTransaction)
| Step_calculateValidUntilLedger (url : string) (ttlMinutes : Z)
| Step_signAndSendViaLaunchtube (tx : AssembledTransaction)
                                (timeoutInSeconds : Z)
                                (validUntilLedgerSeq : Z).

Definition Play (A : Type) : Type := list Step -> Completion A * list Step.

Module Play.

Definition ret {A} (a : A) : Play A := fun t => (Normal a, t).

Definition bind {A B} (m : Play A) (k : A -> Play B) : Play B :=
  fun t =>
    match m t with
    | (Normal a, t') => k a t'
    | (Throw e, t') => (Throw e, t')
    end.

(** A synchronous expression evaluated inside an [async] method. *)
Definition lift {A} (c : Completion A) : Play A := fun t => (c, t).

(** [await f(...)]: the oracle sees the steps so far, and the step is
    recorded. *)
Definition await {A} (s : Step) (answer : list Step -> Completion A)
  : Play A :=
  fun t => (answer t, (t ++ [s])%list).

End Play.

Declare Scope play_scope.
Delimit Scope play_scope with play.
Notation "x <- c ;; k" := (Play.bind c (fun x => k))
  (at level 61, c at next level, right associativity) : play_scope.

(** A transaction that was sent; its [result] getter may throw. *)
Record SentTransaction (R : Type) : Type := mkSentTransaction {
  sent_result : Completion R
}.
Arguments sent_result {R} s.
Arguments mkSentTransaction {R} sent_result.

(** The collaborators of the playing methods: the client's contract
    methods, [txFromXDR] (synchronous), [simulate], the TTL calculator and
    the submission helper. *)
Module Table.

Record t (R : Type) : Type := mk {
  hit : list Step -> SigningClientOptions -> Z -> string -> MethodOptions
        -> Completion AssembledTransaction;
  stick : list Step -> SigningClientOptions -> Z -> string -> MethodOptions
          -> Completion AssembledTransaction;
  reveal_winner : list Step -> SigningClientOptions -> Z -> MethodOptions
                  -> Completion AssembledTransaction;
  txFromXDR : SigningClientOptions -> string
              -> Completion AssembledTransaction;
  simulate : list Step -> AssembledTransaction
             -> Completion AssembledTransaction;
  calculateValidUntilLedger : list Step -> string -> Z -> Completion Z;
  signAndSendViaLaunchtube : list Step -> AssembledTransaction -> Z -> Z
                             -> Completion (SentTransaction R)
}.
Arguments hit {R} t.
Arguments stick {R} t.
Arguments reveal_winner {R} t.
Arguments txFromXDR {R} t.
Arguments simulate {R} t.
Arguments calculateValidUntilLedger {R} t.
Arguments signAndSendViaLaunchtube {R} t.

End Table.

Section Playing.

Variable consts : Constants.
Variable R : Type.
Variable table : Table.t R.

(** [createSigningClient] *)
Definition createSigningClient (key : string) (signer : Signer)
  : SigningClientOptions :=
  {| clientOptions := clientFor consts key; capabilities := signer |}.

(** [finalizeStartGame]: [tx.simulate()] updates the transaction in place,
    so what is sent is the transaction as the simulation left it. *)
Definition finalizeStartGame (fullySignedTxXDR : string) (player2 : string)
           (player2Signer : Signer) : Play R :=
  let client := createSigningClient player2 player2Signer in
  (tx <- Play.lift (Table.txFromXDR table client fullySignedTxXDR) ;;
   simulated <- Play.await (Step_simulate tx)
                           (fun t => Table.simulate table t tx) ;;
   validUntilLedgerSeq <-
     Play.await
       (Step_calculateValidUntilLedger (RPC_URL consts)
                                       (DEFAULT_AUTH_TTL_MINUTES consts))
       (fun t => Table.calculateValidUntilLedger
                   table t (RPC_URL consts)
                   (DEFAULT_AUTH_TTL_MINUTES consts)) ;;
   sentTx <-
     Play.await
       (Step_signAndSendViaLaunchtube
          simulated (timeoutInSeconds (DEFAULT_METHOD_OPTIONS consts))
          validUntilLedgerSeq)
       (fun t => Table.signAndSendViaLaunchtube
                   table t simulated
                   (timeoutInSeconds (DEFAULT_METHOD_OPTIONS consts))
                   validUntilLedgerSeq) ;;
   Play.lift (sent_result sentTx))%play.

Definition hit (sessionId : Z) (player : string) (signer : Signer)
  : Play R :=
  let client := createSigningClient player signer in
  (tx <- Play.await
           (Step_hit client sessionId player (DEFAULT_METHOD_OPTIONS consts))
           (fun t => Table.hit table t client sessionId player
                               (DEFAULT_METHOD_OPTIONS consts)) ;;
   validUntilLedgerSeq <-
     Play.await
       (Step_calculateValidUntilLedger (RPC_URL consts)
                                       (DEFAULT_AUTH_TTL_MINUTES consts))
       (fun t => Table.calculateValidUntilLedger
                   table t (RPC_URL consts)
                   (DEFAULT_AUTH_TTL_MINUTES consts)) ;;
   sentTx <-
     Play.await
       (Step_signAndSendViaLaunchtube
          tx (timeoutInSeconds (DEFAULT_METHOD_OPTIONS consts))
          validUntilLedgerSeq)
       (fun t => Table.signAndSendViaLaunchtube
                   table t tx
                   (timeoutInSeconds (DEFAULT_METHOD_OPTIONS consts))
                   validUntilLedgerSeq) ;;
   Play.lift (sent_result sentTx))%play.

Definition stick (sessionId : Z) (player : string) (signer : Signer)
  : Play R :=
  let client := createSigningClient player signer in
  (tx <- Play.await
           (Step_stick client sessionId player (DEFAULT_METHOD_OPTIONS consts))
           (fun t => Table.stick table t client sessionId player
                                 (DEFAULT_METHOD_OPTIONS consts)) ;;
   validUntilLedgerSeq <-
     Play.await
       (Step_calculateValidUntilLedger (RPC_URL consts)
                                       (DEFAULT_AUTH_TTL_MINUTES consts))
       (fun t => Table.calculateValidUntilLedger
                   table t (RPC_URL consts)
                   (DEFAULT_AUTH_TTL_MINUTES consts)) ;;
   sentTx <-
     Play.await
       (Step_signAndSendViaLaunchtube
          tx (timeoutInSeconds (DEFAULT_METHOD_OPTIONS consts))
          validUntilLedgerSeq)
       (fun t => Table.signAndSendViaLaunchtube
                   table t tx
                   (timeoutInSeconds (DEFAULT_METHOD_OPTIONS consts))
                   validUntilLedgerSeq) ;;
   Play.lift (sent_result sentTx))%play.

Definition revealWinner (sessionId : Z) (player : string) (signer : Signer)
  : Play R :=
  let client := createSigningClient player signer in
  (tx <- Play.await
           (Step_reveal_winner client sessionId
                               (DEFAULT_METHOD_OPTIONS consts))
           (fun t => Table.reveal_winner table t client sessionId
                                         (DEFAULT_METHOD_OPTIONS consts)) ;;
   validUntilLedgerSeq <-
     Play.await
       (Step_calculateValidUntilLedger (RPC_URL consts)
                                       (DEFAULT_AUTH_TTL_MINUTES consts))
       (fun t => Table.calculateValidUntilLedger
                   table t (RPC_URL consts)
                   (DEFAULT_AUTH_TTL_MINUTES consts)) ;;
   sentTx <-
     Play.await
       (Step_signAndSendViaLaunchtube
          tx (timeoutInSeconds (DEFAULT_METHOD_OPTIONS consts))
          validUntilLedgerSeq)
       (fun t => Table.signAndSendViaLaunchtube
                   table t tx
                   (timeoutInSeconds (DEFAULT_METHOD_OPTIONS consts))
                   validUntilLedgerSeq) ;;
   Play.lift (sent_result sentTx))%play.

End Playing.

Arguments finalizeStartGame consts {R} table fullySignedTxXDR player2
  player2Signer.
Arguments hit consts {R} table sessionId player signer.
Arguments stick consts {R} table sessionId player signer.
Arguments revealWinner consts {R} table sessionId player signer.

(** ** The vocabulary of the playing methods' properties *)

(** What a playing method does once it holds its transaction: ask for the
    expiry with the default TTL, sign and send with the default timeout,
    read the result. *)
Definition submitTail (consts : Constants) {R} (table : Table.t R)
           (tx : AssembledTransaction) : Play R :=
  (validUntilLedgerSeq <-
     Play.await
       (Step_calculateValidUntilLedger (RPC_URL consts)
                                       (DEFAULT_AUTH_TTL_MINUTES consts))
       (fun t => Table.calculateValidUntilLedger
                   table t (RPC_URL consts)
                   (DEFAULT_AUTH_TTL_MINUTES consts)) ;;
   sentTx <-
     Play.await
       (Step_signAndSendViaLaunchtube
          tx (timeoutInSeconds (DEFAULT_METHOD_OPTIONS consts))
          validUntilLedgerSeq)
       (fun t => Table.signAndSendViaLaunchtube
                   table t tx
                   (timeoutInSeconds (DEFAULT_METHOD_OPTIONS consts))
                   validUntilLedgerSeq) ;;
   Play.lift (sent_result sentTx))%play.

(** The four playing methods with their arguments. *)
Inductive Operation : Type :=
| FinalizeStartGame (fullySignedTxXDR player2 : string)
                    (player2Signer : Signer)
| Hit (sessionId : Z) (player : string) (signer : Signer)
| Stick (sessionId : Z) (player : string) (signer : Signer)
| RevealWinner (sessionId : Z) (player : string) (signer : Signer).

Definition run (consts : Constants) {R} (table : Table.t R)
           (op : Operation) : Play R :=
  match op with
  | FinalizeStartGame xdr player2 signer =>
      finalizeStartGame consts table xdr player2 signer
  | Hit sessionId player signer => hit consts table sessionId player signer
  | Stick sessionId player signer =>
      stick consts table sessionId player signer
  | RevealWinner sessionId player signer =>
      revealWinner consts table sessionId player signer
  end.

(** The step is a submission. *)
Definition isSubmission (s : Step) : bool :=
  match s with
  | Step_signAndSendViaLaunchtube _ _ _ => true
  | _ => false
  end.

(** The TTL request of the playing methods. *)
Definition ttlStepOf (consts : Constants) : Step :=
  Step_calculateValidUntilLedger (RPC_URL consts)
                                 (DEFAULT_AUTH_TTL_MINUTES consts).

(** Every submission among the calls [more], made after the calls [t], is
    the last of them, comes right after the TTL request, and carries the
    default timeout and the ledger the TTL request was answered with. *)
Definition Guarded (consts : Constants) {R} (table : Table.t R)
           (t more : list Step) : Prop :=
  forall tx seconds validUntil,
    In (Step_signAndSendViaLaunchtube tx seconds validUntil) more ->
    exists before,
      more = (before
              ++ [ttlStepOf consts;
                  Step_signAndSendViaLaunchtube tx seconds validUntil])%list
      /\ (forall s, In s before -> isSubmission s = false)
      /\ seconds = timeoutInSeconds (DEFAULT_METHOD_OPTIONS consts)
      /\ Table.calculateValidUntilLedger
           table (t ++ before)%list (RPC_URL consts)
           (DEFAULT_AUTH_TTL_MINUTES consts)
         = Normal validUntil.

(* ================================================================== *)
(** * The publish script: names

    [titleCaseFromSlug], [toEnvKey] and [findGameComponent]
    of [scripts/publish.ts].  A JavaScript string is modelled by its
    characters as [ascii]; the case conversions below are JavaScript's on
    strings of 7-bit characters, which is what [Ascii7] says of a string. *)

Module Publish.

Definition Ascii7 (s : string) : Prop :=
  Forall (fun c => nat_of_ascii c < 128) (list_ascii_of_string s).

Definition isLower (c : ascii) : bool :=
  Nat.leb 97 (nat_of_ascii c) && Nat.leb (nat_of_ascii c) 122.

(** [c.toUpperCase()] for one character. *)
Definition upperChar (c : ascii) : ascii :=
  if isLower c then ascii_of_nat (nat_of_ascii c - 32) else c.

(** [s.toUpperCase()] *)
Fixpoint toUpperCase (s : string) : string :=
  match s with
  | "" => ""
  | String c rest => String (upperChar c) (toUpperCase rest)
  end.

(** The class [[-_]]. *)
Definition isSeparator (c : ascii) : bool :=
  Ascii.eqb c "-" || Ascii.eqb c "_".

(** [s.split(re)] for a [re] that matches one character of a class: the
    pieces between the matches, empty ones included; never an empty list. *)
Fixpoint split (separator : ascii -> bool) (s : string) : list string :=
  match s with
  | "" => [""]
  | String c rest =>
      if separator c then "" :: split separator rest
      else match split separator rest with
           | piece :: pieces => String c piece :: pieces
           | [] => [String c ""]
           end
  end.

(** [Boolean(word)]: the empty string is falsy. *)
Definition nonEmpty (word : string) : bool :=
  match word with
  | "" => false
  | String _ _ => true
  end.

(** [word.charAt(0).toUpperCase() + word.slice(1)] *)
Definition capitalize (word : string) : string :=
  match word with
  | "" => ""
  | String c rest => String (upperChar c) rest
  end.

Definition titleCaseFromSlug (slug : string) : string :=
  String.concat " "
    (List.map capitalize (List.filter nonEmpty (split isSeparator slug))).

(** [s.replace(/-/g, '_')] *)
Fixpoint dashesToUnderscores (s : string) : string :=
  match s with
  | "" => ""
  | String c rest =>
      String (if Ascii.eqb c "-" then "_"%char else c)
             (dashesToUnderscores rest)
  end.

Definition toEnvKey (slug : string) : string :=
  toUpperCase (dashesToUnderscores slug).

(** ** Finding the game's component

    What [findGameComponent] asks of the platform: the names in a
    directory, the text of a file (either may throw), and [path.join]. *)
Record Node : Type := mkNode {
  readdirSync : string -> Completion (list string);
  readFileSync : string -> Completion string;
  join : string -> string -> string
}.

(** [s.endsWith(suffix)] *)
Fixpoint endsWith (s suffix : string) : bool :=
  String.eqb s suffix
  || match s with
     | "" => false
     | String _ rest => endsWith rest suffix
     end.

(** [path.basename(name, ext)] of a name without a slash, as the names of
    [readdirSync] are: the name without its ending [ext]. *)
Definition basename (name ext : string) : string :=
  if endsWith name ext
  then substring 0 (String.length name - String.length ext) name
  else name.

(** The class [\s], on 7-bit characters: tab, line feed, vertical tab,
    form feed, carriage return and space. *)
Definition isWhitespace (c : ascii) : bool :=
  let n := nat_of_ascii c in
  (Nat.leb 9 n && Nat.leb n 13) || Nat.eqb n 32.

(** The class [[A-Za-z0-9_]]. *)
Definition isWordChar (c : ascii) : bool :=
  let n := nat_of_ascii c in
  (Nat.leb 65 n && Nat.leb n 90) || (Nat.leb 97 n && Nat.leb n 122)
  || (Nat.leb 48 n && Nat.leb n 57) || Nat.eqb n 95.

(** A literal at the start of [s]: what follows it. *)
Fixpoint literal (text s : string) : option string :=
  match text with
  | "" => Some s
  | String a text' =>
      match s with
      | String b s' => if Ascii.eqb a b then literal text' s' else None
      | "" => None
      end
  end.

Fixpoint takeWhile (class : ascii -> bool) (s : string) : string :=
  match s with
  | "" => ""
  | String c rest => if class c then String c (takeWhile class rest) else ""
  end.

Fixpoint dropWhile (class : ascii -> bool) (s : string) : string :=
  match s with
  | "" => ""
  | String c rest => if class c then dropWhile class rest else s
  end.

(** [class+] at the start of [s], greedy: the run matched and what follows
    it.  In the two expressions below what comes after a run cannot start
    with a character of the run's class, so no shorter run is ever tried
    with success. *)
Definition oneOrMore (class : ascii -> bool) (s : string)
  : option (string * string) :=
  match takeWhile class s with
  | "" => None
  | matched => Some (matched, dropWhile class s)
  end.

(** An expression without anchor: the match at the leftmost position that
    has one. *)
Fixpoint leftmost {A} (matchAt : string -> option A) (s : string)
  : option A :=
  match matchAt s with
  | Some found => Some found
  | None =>
      match s with
      | "" => None
      | String _ rest => leftmost matchAt rest
      end
  end.

(** [/export\s+default/] at the start of [s]. *)
Definition exportDefaultAt (s : string) : option unit :=
  match literal "export" s with
  | Some s1 =>
      match oneOrMore isWhitespace s1 with
      | Some (_, s2) =>
          match literal "default" s2 with
          | Some _ => Some tt
          | None => None
          end
      | None => None
      end
  | None => None
  end.

(** [/export\s+(?:function|const)\s+([A-Za-z0-9_]+)/] at the start of
    [s]: the captured group. *)
Definition namedExportAt (s : string) : option string :=
  match literal "export" s with
  | Some s1 =>
      match oneOrMore isWhitespace s1 with
      | Some (_, s2) =>
          match match literal "function" s2 with
                | Some s3 => Some s3
                | None => literal "const" s2
                end with
          | Some s3 =>
              match oneOrMore isWhitespace s3 with
              | Some (_, s4) =>
                  match oneOrMore isWordChar s4 with
                  | Some (name, _) => Some name
                  | None => None
                  end
              | None => None
              end
          | None => None
          end
      | None => None
      end
  | None => None
  end.

Record GameComponent : Type := mkGameComponent {
  fileBase : string;
  component : string;
  isDefault : bool
}.

Definition findGameComponent (node : Node) (gameDir : string)
  : Completion GameComponent :=
  (entries <- readdirSync node gameDir ;;
   let tsxFiles := List.filter (fun name => endsWith name ".tsx") entries in
   if Nat.eqb (List.length tsxFiles) 0
   then Throw (Error ("No .tsx files found in " ++ gameDir))
   else
     let preferred :=
       match List.find (fun name => endsWith name "Game.tsx") tsxFiles with
       | Some name => name
       | None => List.nth 0 tsxFiles ""
       end in
     let fileBase := basename preferred ".tsx" in
     contents <- readFileSync node (join node gameDir preferred) ;;
     let isDefault :=
       match leftmost exportDefaultAt contents with
       | Some _ => true
       | None => false
       end in
     if isDefault
     then Normal {| fileBase := fileBase; component := fileBase;
                    isDefault := isDefault |}
     else
       let namedMatch := leftmost namedExportAt contents in
       let component :=
         match namedMatch with
         | Some name => name
         | None => fileBase
         end in
       Normal {| fileBase := fileBase; component := component;
                 isDefault := isDefault |})%completion.

(** ** Words for the properties *)

(** Strings of 7-bit characters, checked. *)
Definition ascii7 (s : string) : bool :=
  forallb (fun c => Nat.ltb (nat_of_ascii c) 128) (list_ascii_of_string s).

(** All characters of [s] are of the class. *)
Definition Every (class : ascii -> bool) (s : string) : Prop :=
  Forall (fun c => class c = true) (list_ascii_of_string s).

(** What may follow a run: nothing, or a character outside the class. *)
Definition stops (class : ascii -> bool) (s : string) : Prop :=
  match s with
  | "" => True
  | String c _ => class c = false
  end.

(** The texts [/export\s+default/] matches at their start. *)
Definition ExportsDefault (from : string) : Prop :=
  exists space rest,
    from = ("export" ++ space ++ "default" ++ rest)
    /\ space <> "" /\ Every isWhitespace space.

(** The texts [/export\s+(?:function|const)\s+([A-Za-z0-9_]+)/] matches at
    their start, with the group it captures. *)
Definition ExportsNamed (name from : string) : Prop :=
  exists space1 keyword space2 rest,
    from = ("export" ++ space1 ++ keyword ++ space2 ++ name ++ rest)
    /\ (keyword = "function" \/ keyword = "const")
    /\ space1 <> "" /\ Every isWhitespace space1
    /\ space2 <> "" /\ Every isWhitespace space2
    /\ name <> "" /\ Every isWordChar name
    /\ stops isWordChar rest.

End Publish.

(* ================================================================== *)
(** * Test doubles for the playing methods and the publish script *)

Module Studio.

Import Fake Publish.

(** A table at which every call succeeds and the hand is worth 21. *)
Definition table : Table.t Z :=
  {| Table.hit :=
       fun _ _ _ _ _ => Normal {| built := "hit"; simulationData := None |};
     Table.stick :=
       fun _ _ _ _ _ => Normal {| built := "stick"; simulationData := None |};
     Table.reveal_winner :=
       fun _ _ _ _ =>
         Normal {| built := "reveal_winner"; simulationData := None |};
     Table.txFromXDR :=
       fun _ xdr => Normal {| built := xdr; simulationData := None |};
     Table.simulate := fun _ tx => Normal tx;
     Table.calculateValidUntilLedger :=
       fun _ _ minutes => Normal (currentLedger + minutes * 12)%Z;
     Table.signAndSendViaLaunchtube :=
       fun _ _ _ _ => Normal {| sent_result := Normal 21%Z |} |}.

(** Player 1's entry as the simulation asks for it, before it is signed. *)
Definition unsignedArtifact : string :=
  Eval vm_compute in XdrCodec.toXDR (placeholder ADDR_A 42 10).

(** The directory of a game, with one component file that exports its
    component by name. *)
Definition gameDir : string := "sgs_frontend/src/games/twenty-one".

Definition node : Node :=
  {| readdirSync :=
       fun dir =>
         if String.eqb dir gameDir
         then Normal ["bindings.ts"; "Board.tsx"; "TwentyOneGame.tsx";
                      "twentyOneService.ts"]
         else Throw (Error "ENOENT: no such file or directory");
     readFileSync :=
       fun file =>
         if String.eqb file (gameDir ++ "/TwentyOneGame.tsx")
         then Normal
                "import { useState } from 'react';
export function TwentyOneGame({ userAddress }) { return null; }
"
         else Throw (Error "ENOENT: no such file or directory");
     join := fun dir name => dir ++ "/" ++ name |}.

(** What [findGameComponent] finds there. *)
Definition found : GameComponent :=
  {| fileBase := "TwentyOneGame"; component := "TwentyOneGame";
     isDefault := false |}.

End Studio.

(* ================================================================== *)
(** * The vocabulary of the properties *)

(** The entry is an address entry whose signer, written as text, is
    [target]. *)
Definition EntryOf (sdk : Sdk) (target : string)
           (entry : SorobanAuthorizationEntry) : Prop :=
  exists c,
    credentials entry = SorobanCredentialsAddress c
    /\ Address_toString sdk (address c) = Normal target.

(** The invocation name and the number of arguments an entry carries, when
    its root invocation is a contract call. *)
Definition invocationName (entry : SorobanAuthorizationEntry)
  : option string :=
  match function (rootInvocation entry) with
  | ContractFn c => Some (functionName c)
  | CreateContractHostFn _ _ _ => None
  end.

Definition argumentCount (entry : SorobanAuthorizationEntry) : option nat :=
  match function (rootInvocation entry) with
  | ContractFn c => Some (List.length (args c))
  | CreateContractHostFn _ _ _ => None
  end.

(** The wallet's answer to one request is a refusal: it raised, or it
    declined, returning a result that carries an error. *)
Definition Refused (answer : Completion SignAuthEntryResult) : Prop :=
  (exists e, answer = Throw e)
  \/ (exists r w, answer = Normal r /\ error r = Some w).

(** What [prepareStartGame] throws after a refusal: the wallet's own
    exception when it raised, the failed-to-sign error with the wallet's
    message when it declined. *)
Definition refusal (answer : Completion SignAuthEntryResult) : Exception :=
  match answer with
  | Throw err => err
  | Normal r =>
      Error ("Failed to sign auth entry: "
             ++ match error r with
                | Some w => wallet_message w
                | None => ""
                end)
  end.

(** A wallet that answers every request by declining or by raising. *)
Definition DeclinesOrRaises (signer : Signer) : Prop :=
  exists sign,
    signAuthEntry signer = Some sign
    /\ forall t preimage opts, Refused (sign t preimage opts).

(** A signed [start_game] entry: the signer's credentials over the session
    id and the signer's points. *)
Definition startGameEntry (c : SorobanAddressCredentials)
           (contract : ScAddress) (sid points : Z)
           (subs : list SorobanAuthorizedInvocation)
  : SorobanAuthorizationEntry :=
  {| credentials := SorobanCredentialsAddress c;
     rootInvocation :=
       mkInvocation
         (ContractFn {| contractAddress := contract;
                        functionName := "start_game";
                        args := [ScvU32 sid; ScvI128 (i128_parts points)] |})
         subs |}.

Section Vocabulary.

Variable sdk : Sdk.
Variable consts : Constants.

(** The call that builds and simulates [start_game] with [p2] as the source
    account. *)
Definition buildCall (sid : Z) (p1 p2 : string) (pts1 pts2 : Z) : Call :=
  Call_start_game (clientFor consts p2) (startGameArgs sid p1 p2 pts1 pts2)
                  (DEFAULT_METHOD_OPTIONS consts).

(** The duration [prepareStartGame] hands to the TTL calculator. *)
Definition ttlMinutesUsed (authTtlMinutes : option Z) : Z :=
  match authTtlMinutes with
  | Some minutes =>
      if (minutes =? 0)%Z then MULTI_SIG_AUTH_TTL_MINUTES consts else minutes
  | None => MULTI_SIG_AUTH_TTL_MINUTES consts
  end.

(** What the wallet is asked to sign for an entry that expires at
    [validUntil]. *)
Definition preimageOf (entry : SorobanAuthorizationEntry)
           (c : SorobanAddressCredentials) (validUntil : Z) : HashIdPreimage :=
  {| networkId := hash sdk (NETWORK_PASSPHRASE consts);
     preimageNonce := nonce c;
     invocation := rootInvocation entry;
     preimageExpirationLedger := validUntil |}.

(** The request made to the wallet for the serialized preimage
    [request]. *)
Definition signOptions (p1 : string) : SignAuthEntryOptions :=
  {| sign_networkPassphrase := NETWORK_PASSPHRASE consts;
     sign_address := p1 |}.

Definition signCall (request : string) (p1 : string) : Call :=
  Call_signAuthEntry request (signOptions p1).

(** The entry [authorizeEntry] returns for a verified signature. *)
Definition signedEntry (entry : SorobanAuthorizationEntry)
           (c : SorobanAddressCredentials) (validUntil : Z) (p1 : string)
           (sig : Bytes) : SorobanAuthorizationEntry :=
  {| credentials :=
       SorobanCredentialsAddress
         {| address := address c;
            nonce := nonce c;
            signatureExpirationLedger := validUntil;
            signature := signatureScVal sdk p1 sig |};
     rootInvocation := rootInvocation entry |}.

End Vocabulary.

(* ================================================================== *)
(** * Properties of the service *)

Section Locator.

Variable sdk : Sdk.

Lemma isEntryOf_true (target : string) (entry : SorobanAuthorizationEntry) :
  isEntryOf sdk target entry = Normal true <-> EntryOf sdk target entry.
Proof.
  unfold isEntryOf, EntryOf.
  destruct (credentials entry) as [|c]; simpl.
  - split; [discriminate | intros [c [H _]]; discriminate].
  - destruct (Address_toString sdk (address c)) as [s|e] eqn:Hs; simpl.
    + split.
      * intros H. injection H as H. apply String.eqb_eq in H. subst s.
        exists c. split; [reflexivity | exact Hs].
      * intros [c' [Hc Ht]]. injection Hc as <-.
        rewrite Hs in Ht. injection Ht as ->.
        now rewrite String.eqb_refl.
    + split; [discriminate|].
      intros [c' [Hc Ht]]. injection Hc as <-. congruence.
Qed.

Lemma findAuthEntry_skip (target : string)
      (entry : SorobanAuthorizationEntry)
      (rest : list SorobanAuthorizationEntry) :
  ~ EntryOf sdk target entry ->
  findAuthEntry sdk (entry :: rest) target = findAuthEntry sdk rest target.
Proof.
  intros Hno. simpl.
  destruct (isEntryOf sdk target entry) as [[|]|e] eqn:H; try reflexivity.
  exfalso. apply Hno. now apply isEntryOf_true.
Qed.

Lemma findAuthEntry_first (target : string)
      (before after : list SorobanAuthorizationEntry)
      (entry : SorobanAuthorizationEntry) :
  (forall x, In x before -> ~ EntryOf sdk target x) ->
  EntryOf sdk target entry ->
  findAuthEntry sdk (before ++ entry :: after) target = Some entry.
Proof.
  intros Hbefore Hentry.
  induction before as [|x before IH]; simpl app.
  - simpl. apply isEntryOf_true in Hentry. now rewrite Hentry.
  - rewrite findAuthEntry_skip.
    + apply IH. intros y Hy. apply Hbefore. now right.
    + apply Hbefore. now left.
Qed.

Lemma findAuthEntry_none (target : string)
      (entries : list SorobanAuthorizationEntry) :
  (forall x, In x entries -> ~ EntryOf sdk target x) <->
  findAuthEntry sdk entries target = None.
Proof.
  induction entries as [|x entries IH].
  - simpl. split; [reflexivity | intros _ y []].
  - split.
    + intros H. rewrite findAuthEntry_skip by (apply H; now left).
      apply IH. intros y Hy. apply H. now right.
    + simpl. intros H y [<-|Hy].
      * intros Hx. apply isEntryOf_true in Hx. now rewrite Hx in H.
      * destruct (isEntryOf sdk target x) as [[|]|e]; try discriminate;
          now apply IH.
Qed.

Lemma findAuthEntry_some (target : string)
      (entries : list SorobanAuthorizationEntry)
      (entry : SorobanAuthorizationEntry) :
  findAuthEntry sdk entries target = Some entry ->
  exists before after,
    entries = (before ++ entry :: after)%list
    /\ (forall x, In x before -> ~ EntryOf sdk target x)
    /\ EntryOf sdk target entry.
Proof.
  induction entries as [|x entries IH]; simpl; [discriminate|].
  destruct (isEntryOf sdk target x) as [[|]|e] eqn:Hx.
  - intros H. injection H as <-. exists [], entries.
    repeat split; [intros y [] | now apply isEntryOf_true].
  - intros H. destruct (IH H) as (before & after & -> & Hb & He).
    exists (x :: before), after. repeat split; [|exact He].
    intros y [<-|Hy]; [|now apply Hb].
    intros Hy. apply isEntryOf_true in Hy. congruence.
  - intros H. destruct (IH H) as (before & after & -> & Hb & He).
    exists (x :: before), after. repeat split; [|exact He].
    intros y [<-|Hy]; [|now apply Hb].
    intros Hy. apply isEntryOf_true in Hy. congruence.
Qed.

(** C3 (locator determinism).  The scan of [prepareStartGame] returns the
    first address entry whose signer address is exactly the target: an entry
    with source-account credentials is passed over whatever else it holds;
    an entry the scan returns is an address entry of the list whose address
    text equals the target; the first matching entry wins over later ones;
    and a list with exactly one matching entry, wherever it stands among the
    others, yields that entry. *)
Theorem locator_determinism :
  (forall target entry rest,
      credentials entry = SorobanCredentialsSourceAccount ->
      findAuthEntry sdk (entry :: rest) target
      = findAuthEntry sdk rest target)
  /\ (forall target entries entry,
         findAuthEntry sdk entries target = Some entry ->
         In entry entries /\ EntryOf sdk target entry)
  /\ (forall target before entry after,
         (forall x, In x before -> ~ EntryOf sdk target x) ->
         EntryOf sdk target entry ->
         findAuthEntry sdk (before ++ entry :: after) target = Some entry)
  /\ (forall target before entry after,
         EntryOf sdk target entry ->
         (forall x, In x (before ++ after) -> ~ EntryOf sdk target x) ->
         findAuthEntry sdk (before ++ entry :: after) target = Some entry).
Proof.
  repeat split.
  - intros target entry rest Hsrc. apply findAuthEntry_skip.
    intros [c [Hc _]]. congruence.
  - apply findAuthEntry_some in H as (b & a & -> & _ & _).
    apply in_elt.
  - now apply findAuthEntry_some in H as (b & a & _ & _ & He).
  - intros target before entry after Hb He. now apply findAuthEntry_first.
  - intros target before entry after He Hothers.
    apply findAuthEntry_first; [|exact He].
    intros x Hx. apply Hothers. apply in_or_app. now left.
Qed.

End Locator.

Section Parse.

Variable sdk : Sdk.

(** What [parseAuthEntry] does on an entry that decodes, with the
    [try]/[catch] peeled off. *)
Lemma parseAuthEntry_address_contractFn
      (xdr : string) (e : SorobanAuthorizationEntry)
      (c : SorobanAddressCredentials) (p1 : string)
      (fn : InvokeContractArgs) :
  entry_fromXDR sdk xdr = Normal e ->
  credentials e = SorobanCredentialsAddress c ->
  Address_toString sdk (address c) = Normal p1 ->
  function (rootInvocation e) = ContractFn fn ->
  parseAuthEntry sdk xdr =
  if negb (functionName fn =? "start_game")
  then Throw (Error ("Failed to parse auth entry: Invalid function name: "
                     ++ functionName fn ++ ". Expected start_game"))
  else if negb (Nat.eqb (List.length (args fn)) 2)
  then Throw (Error ("Failed to parse auth entry: Invalid number of arguments: "
                     ++ string_of_nat (List.length (args fn))
                     ++ ". Expected 2"))
  else
    Js.try_catch
      (arg0 <- index (args fn) 0 ;;
       sid <- ScVal_u32 arg0 ;;
       arg1 <- index (args fn) 1 ;;
       points <- ScVal_i128 arg1 ;;
       Normal {| GameParams.sessionId := sid;
                 GameParams.player1 := p1;
                 GameParams.player1Points := lo points |})%completion
      (fun err =>
         Throw (Error ("Failed to parse auth entry: "
                       ++ message_or err "unknown error"))).
Proof.
  intros Hx Hc Ha Hf. unfold parseAuthEntry.
  rewrite Hx. simpl. rewrite Hc. simpl. rewrite Ha. simpl. rewrite Hf. simpl.
  destruct (functionName fn =? "start_game"); simpl; [|reflexivity].
  destruct (Nat.eqb (List.length (args fn)) 2); reflexivity.
Qed.

(** Every failure of [parseAuthEntry] is the wrapped error of its handler. *)
Lemma parseAuthEntry_throws (xdr : string) (err : Exception) :
  parseAuthEntry sdk xdr = Throw err ->
  exists msg, err = Error ("Failed to parse auth entry: " ++ msg).
Proof.
  unfold parseAuthEntry, Js.try_catch.
  match goal with |- match ?b with _ => _ end = _ -> _ => destruct b end.
  - discriminate.
  - intros H. injection H as <-. eexists. reflexivity.
Qed.

(** A successful parse determines the entry's shape. *)
Lemma parseAuthEntry_normal (xdr : string) (gp : GameParams.t) :
  parseAuthEntry sdk xdr = Normal gp ->
  exists e c fn points,
    entry_fromXDR sdk xdr = Normal e
    /\ credentials e = SorobanCredentialsAddress c
    /\ Address_toString sdk (address c) = Normal (GameParams.player1 gp)
    /\ function (rootInvocation e) = ContractFn fn
    /\ functionName fn = "start_game"
    /\ args fn = [ScvU32 (GameParams.sessionId gp); ScvI128 points]
    /\ GameParams.player1Points gp = lo points.
Proof.
  intros H.
  destruct (entry_fromXDR sdk xdr) as [e|ex] eqn:Hx;
    [|unfold parseAuthEntry in H; rewrite Hx in H; discriminate].
  destruct (credentials e) as [|c] eqn:Hc;
    [unfold parseAuthEntry in H; rewrite Hx in H; simpl in H;
     rewrite Hc in H; discriminate|].
  destruct (Address_toString sdk (address c)) as [p1|ex] eqn:Ha;
    [|unfold parseAuthEntry in H; rewrite Hx in H; simpl in H;
      rewrite Hc in H; simpl in H; rewrite Ha in H; discriminate].
  destruct (function (rootInvocation e)) as [fn|d s w] eqn:Hf;
    [|unfold parseAuthEntry in H; rewrite Hx in H; simpl in H;
      rewrite Hc in H; simpl in H; rewrite Ha in H; simpl in H;
      rewrite Hf in H; discriminate].
  rewrite (parseAuthEntry_address_contractFn xdr e c p1 fn Hx Hc Ha Hf) in H.
  destruct (functionName fn =? "start_game") eqn:Hn; [|discriminate].
  apply String.eqb_eq in Hn. simpl in H.
  destruct (args fn) as [|a0 [|a1 [|a2 rest]]] eqn:Hargs; try discriminate.
  destruct a0; try discriminate. destruct a1; try discriminate.
  injection H as <-. simpl.
  exists e, c, fn, i128. repeat split; assumption.
Qed.

(** C2 (shape rejection).  An artifact that decodes to an entry whose
    invocation name is not [start_game], or whose argument count is not 2,
    makes [parseAuthEntry] throw its wrapped error: no game parameters are
    returned.  When the credentials are an address the text of the error
    names the mismatch: the function name found, or else the number of
    arguments found. *)
Theorem shape_rejection
        (xdr : string) (e : SorobanAuthorizationEntry) :
  entry_fromXDR sdk xdr = Normal e ->
  invocationName e <> Some "start_game" \/ argumentCount e <> Some 2%nat ->
  (exists msg,
      parseAuthEntry sdk xdr
      = Throw (Error ("Failed to parse auth entry: " ++ msg)))
  /\ (forall c p1 fn,
         credentials e = SorobanCredentialsAddress c ->
         Address_toString sdk (address c) = Normal p1 ->
         function (rootInvocation e) = ContractFn fn ->
         parseAuthEntry sdk xdr
         = Throw
             (Error
                ("Failed to parse auth entry: "
                 ++ (if functionName fn =? "start_game"
                     then "Invalid number of arguments: "
                          ++ string_of_nat (List.length (args fn))
                          ++ ". Expected 2"
                     else "Invalid function name: " ++ functionName fn
                          ++ ". Expected start_game")))).
Proof.
  intros Hx Hshape.
  assert (Hnot : forall gp, parseAuthEntry sdk xdr <> Normal gp).
  { intros gp Hgp.
    destruct (parseAuthEntry_normal xdr gp Hgp)
      as (e' & c & fn & points & Hx' & _ & _ & Hf & Hn & Hargs & _).
    rewrite Hx in Hx'. injection Hx' as <-.
    unfold invocationName, argumentCount in Hshape. rewrite Hf in Hshape.
    rewrite Hn, Hargs in Hshape. simpl in Hshape.
    destruct Hshape as [H|H]; now apply H. }
  split.
  - destruct (parseAuthEntry sdk xdr) as [gp|err] eqn:Hp.
    + now destruct (Hnot gp).
    + destruct (parseAuthEntry_throws xdr err Hp) as [msg ->]. now exists msg.
  - intros c p1 fn Hc Ha Hf.
    rewrite (parseAuthEntry_address_contractFn xdr e c p1 fn Hx Hc Ha Hf).
    unfold invocationName, argumentCount in Hshape. rewrite Hf in Hshape.
    destruct (functionName fn =? "start_game") eqn:Hn; simpl; [|reflexivity].
    apply String.eqb_eq in Hn.
    destruct Hshape as [H|H]; [now rewrite Hn in H|].
    destruct (Nat.eqb (List.length (args fn)) 2) eqn:Hlen; [|reflexivity].
    apply Nat.eqb_eq in Hlen. rewrite Hlen in H. now destruct H.
Qed.

(** C9 (unsupported credential).  An artifact that decodes to an entry whose
    credentials are not an address makes [parseAuthEntry] throw the
    unsupported-credentials error, naming the kind found; nothing is read
    from the invocation. *)
Theorem unsupported_credential
        (xdr : string) (e : SorobanAuthorizationEntry) :
  entry_fromXDR sdk xdr = Normal e ->
  switch_name (credentials e) <> "sorobanCredentialsAddress" ->
  parseAuthEntry sdk xdr
  = Throw (Error ("Failed to parse auth entry: Unsupported credentials type: "
                  ++ switch_name (credentials e))).
Proof.
  intros Hx Hkind. unfold parseAuthEntry. rewrite Hx. simpl.
  destruct (credentials e) as [|c]; simpl; [reflexivity|].
  now destruct Hkind.
Qed.

(** What the parse of an encoded [start_game] entry returns: the session
    id, the signer's address, and the low word of the points. *)
Lemma parseAuthEntry_encoded
      (law : CodecLaw sdk) (e : SorobanAuthorizationEntry)
      (c : SorobanAddressCredentials) (p1 : string)
      (fn : InvokeContractArgs) (sid : Z) (points : Int128Parts) :
  Wf.entry e = true ->
  credentials e = SorobanCredentialsAddress c ->
  Address_toString sdk (address c) = Normal p1 ->
  function (rootInvocation e) = ContractFn fn ->
  functionName fn = "start_game" ->
  args fn = [ScvU32 sid; ScvI128 points] ->
  parseAuthEntry sdk (entry_toXDR sdk e)
  = Normal {| GameParams.sessionId := sid;
              GameParams.player1 := p1;
              GameParams.player1Points := lo points |}.
Proof.
  intros Hwf Hc Ha Hf Hn Hargs.
  rewrite (parseAuthEntry_address_contractFn _ e c p1 fn (law e Hwf) Hc Ha Hf).
  now rewrite Hn, Hargs.
Qed.

End Parse.

Section Prepare.

Variable sdk : Sdk.
Variable consts : Constants.
Variable Game : Type.
Variable world : World Game.

(** [prepareStartGame] when the build fails. *)
Lemma prepareStartGame_build_fails
      (sid : Z) (p1 p2 : string) (pts1 pts2 : Z) (signer : Signer)
      (ttl : option Z) (t : Trace) (err : Exception) :
  start_game world t (clientFor consts p2) (startGameArgs sid p1 p2 pts1 pts2)
             (DEFAULT_METHOD_OPTIONS consts) = Throw err ->
  prepareStartGame sdk consts world sid p1 p2 pts1 pts2 signer ttl t
  = (Throw err, (t ++ [buildCall consts sid p1 p2 pts1 pts2])%list).
Proof.
  intros Hb. unfold prepareStartGame, awaitStartGame, Async.bind, Async.await.
  now rewrite Hb.
Qed.

(** [prepareStartGame] up to the scan. *)
Lemma prepareStartGame_not_found
      (sid : Z) (p1 p2 : string) (pts1 pts2 : Z) (signer : Signer)
      (ttl : option Z) (t : Trace) (tx : AssembledTransaction) :
  start_game world t (clientFor consts p2) (startGameArgs sid p1 p2 pts1 pts2)
             (DEFAULT_METHOD_OPTIONS consts) = Normal tx ->
  match simulatedAuth tx with
  | None => True
  | Some entries => findAuthEntry sdk entries p1 = None
  end ->
  prepareStartGame sdk consts world sid p1 p2 pts1 pts2 signer ttl t
  = (Throw (Error match simulatedAuth tx with
                  | None => "No auth entries found in simulation"
                  | Some _ => "No auth entry found for Player 1 (" ++ p1 ++ ")"
                  end),
     (t ++ [buildCall consts sid p1 p2 pts1 pts2])%list).
Proof.
  intros Hb Hnone.
  unfold prepareStartGame, awaitStartGame, Async.bind, Async.await.
  rewrite Hb. destruct (simulatedAuth tx) as [entries|]; [|reflexivity].
  now rewrite Hnone.
Qed.

(** [prepareStartGame] from the scan on: the TTL call, then the wallet, then
    the verification of what the wallet returned. *)
Lemma prepareStartGame_found
      (sid : Z) (p1 p2 : string) (pts1 pts2 : Z) (signer : Signer)
      (ttl : option Z) (t : Trace) (tx : AssembledTransaction)
      (entries : list SorobanAuthorizationEntry)
      (entry : SorobanAuthorizationEntry) (c : SorobanAddressCredentials) :
  start_game world t (clientFor consts p2) (startGameArgs sid p1 p2 pts1 pts2)
             (DEFAULT_METHOD_OPTIONS consts) = Normal tx ->
  simulatedAuth tx = Some entries ->
  findAuthEntry sdk entries p1 = Some entry ->
  credentials entry = SorobanCredentialsAddress c ->
  Address_toString sdk (address c) = Normal p1 ->
  let t1 := (t ++ [buildCall consts sid p1 p2 pts1 pts2])%list in
  let ttlCall :=
    Call_calculateValidUntilLedger (RPC_URL consts) (ttlMinutesUsed consts ttl) in
  let t2 := (t1 ++ [ttlCall])%list in
  prepareStartGame sdk consts world sid p1 p2 pts1 pts2 signer ttl t
  = match calculateValidUntilLedger world t1 (RPC_URL consts)
                                    (ttlMinutesUsed consts ttl) with
    | Throw err => (Throw err, t2)
    | Normal validUntil =>
        match signAuthEntry signer with
        | None => (Throw (Error "signAuthEntry function not available"), t2)
        | Some sign =>
            match preimage_toXDR
                    sdk (preimageOf sdk consts entry c validUntil) with
            | Throw err => (Throw err, t2)
            | Normal request =>
                let t3 := (t2 ++ [signCall consts request p1])%list in
                match sign t2 request (signOptions consts p1) with
                | Throw err => (Throw err, t3)
                | Normal r =>
                    match error r with
                    | Some w =>
                        (Throw (Error ("Failed to sign auth entry: "
                                       ++ wallet_message w)), t3)
                    | None =>
                        let sig :=
                          Buffer_from_base64 sdk (signedAuthEntry r) in
                        match Keypair_verify
                                sdk p1
                                (preimageOf sdk consts entry c validUntil)
                                sig with
                        | Throw err => (Throw err, t3)
                        | Normal false =>
                            (Throw (Error "signature doesn't match payload"),
                             t3)
                        | Normal true =>
                            (Normal
                               (entry_toXDR
                                  sdk
                                  (signedEntry sdk entry c validUntil p1 sig)),
                             t3)
                        end
                    end
                end
            end
        end
    end.
Proof.
  intros Hb Hauth Hfind Hc Ha t1 ttlCall t2.
  subst t1 ttlCall t2. unfold buildCall, signCall, signOptions.
  unfold prepareStartGame, awaitStartGame, Async.bind at 1, Async.await at 1.
  rewrite Hb, Hauth, Hfind.
  assert (Httl :
    match ttl with
    | Some minutes =>
        if truthy minutes
        then awaitValidUntilLedger world (RPC_URL consts) minutes
        else awaitValidUntilLedger world (RPC_URL consts)
                                   (MULTI_SIG_AUTH_TTL_MINUTES consts)
    | None => awaitValidUntilLedger world (RPC_URL consts)
                                    (MULTI_SIG_AUTH_TTL_MINUTES consts)
    end = awaitValidUntilLedger world (RPC_URL consts) (ttlMinutesUsed consts ttl)).
  { unfold ttlMinutesUsed, truthy. destruct ttl as [m|]; [|reflexivity].
    now destruct (m =? 0)%Z. }
  rewrite Httl. clear Httl.
  unfold Async.bind at 1, awaitValidUntilLedger, Async.await.
  destruct (calculateValidUntilLedger world _ _ _) as [v|err]; [|reflexivity].
  destruct (signAuthEntry signer) as [sign|] eqn:Hsign; [|reflexivity].
  unfold Async.bind at 1, authorizeEntry. rewrite Hc.
  fold (preimageOf sdk consts entry c v).
  unfold Async.bind at 1, Async.lift at 1.
  destruct (preimage_toXDR sdk (preimageOf sdk consts entry c v))
    as [request|err] eqn:Hx; [|reflexivity].
  unfold Async.bind at 1, walletSigner. rewrite Hsign.
  unfold Async.bind at 1, Async.lift at 1. rewrite Hx.
  unfold Async.bind at 1, Async.await.
  destruct (sign _ _ _) as [r|err]; [|reflexivity].
  destruct (error r) as [w|]; [reflexivity|].
  unfold Async.ret at 1, Async.bind at 1, Async.lift at 1. rewrite Ha.
  unfold Async.bind at 1, Async.lift at 1.
  destruct (Keypair_verify sdk p1 _ _) as [[|]|err]; reflexivity.
Qed.

End Prepare.

(** ** Traces only grow *)

Create HintDb extends.

Lemma extends_ret {A} (a : A) : Extends (Async.ret a).
Proof. intros t. exists []. simpl. now rewrite app_nil_r. Qed.

Lemma extends_throw {A} (e : Exception) : Extends (@Async.throw A e).
Proof. intros t. exists []. simpl. now rewrite app_nil_r. Qed.

Lemma extends_lift {A} (c : Completion A) : Extends (Async.lift c).
Proof. intros t. exists []. simpl. now rewrite app_nil_r. Qed.

Lemma extends_await {A} (c : Call) (answer : Trace -> Completion A) :
  Extends (Async.await c answer).
Proof. intros t. now exists [c]. Qed.

Lemma extends_bind {A B} (m : Async A) (k : A -> Async B) :
  Extends m -> (forall a, Extends (k a)) -> Extends (Async.bind m k).
Proof.
  intros Hm Hk t. unfold Async.bind.
  destruct (Hm t) as [more1 H1].
  destruct (m t) as [[a|e] t'] eqn:Hmt; simpl in H1; subst t'.
  - destruct (Hk a (t ++ more1)%list) as [more2 H2].
    exists (more1 ++ more2)%list. now rewrite H2, app_assoc.
  - now exists more1.
Qed.

#[local] Hint Resolve extends_ret extends_throw extends_lift extends_await
  extends_bind : extends.

Lemma extends_walletSigner (sdk : Sdk) (consts : Constants) (signer : Signer)
      (address : string) (preimage : HashIdPreimage) :
  Extends (walletSigner sdk consts signer address preimage).
Proof.
  unfold walletSigner. destruct (signAuthEntry signer); auto with extends.
  apply extends_bind; auto with extends. intros request.
  apply extends_bind; auto with extends.
  intros r. destruct (error r); auto with extends.
Qed.

Lemma extends_authorizeEntry (sdk : Sdk) (entry : SorobanAuthorizationEntry)
      (signer : HashIdPreimage -> Async Bytes) (validUntil : Z)
      (passphrase : string) :
  (forall p, Extends (signer p)) ->
  Extends (authorizeEntry sdk entry signer validUntil passphrase).
Proof.
  intros Hs. unfold authorizeEntry.
  destruct (credentials entry); auto with extends.
  repeat (apply extends_bind; auto with extends; intros).
  destruct (negb _); auto with extends.
Qed.

Lemma extends_signRemaining (sdk : Sdk) (consts : Constants)
      (localAddress : string) (signer : Signer) (validUntil : Z)
      (entries : list SorobanAuthorizationEntry) :
  Extends (signRemaining sdk consts localAddress signer validUntil entries).
Proof.
  induction entries as [|entry rest IH]; simpl; auto with extends.
  apply extends_bind.
  - destruct (isEntryOf sdk localAddress entry) as [[|]|]; auto with extends.
    destruct (isStub entry); auto with extends.
    apply extends_authorizeEntry. intros p. apply extends_walletSigner.
  - intros signed. apply extends_bind; auto with extends.
Qed.

Lemma extends_injectSignedAuthEntry (sdk : Sdk) (consts : Constants)
      (Game : Type) (world : World Game) (tx : AssembledTransaction)
      (xdr localAddress : string) (signer : Signer) :
  Extends (injectSignedAuthEntry sdk consts world tx xdr localAddress signer).
Proof.
  unfold injectSignedAuthEntry.
  apply extends_bind; auto with extends. intros remote.
  destruct (credentials remote); auto with extends.
  apply extends_bind; auto with extends. intros remoteAddress.
  destruct (replaceEntryOf _ _ _ _); auto with extends.
  apply extends_bind; [apply extends_await|]. intros resimulated.
  apply extends_bind; [apply extends_await|]. intros validUntil.
  apply extends_bind; [apply extends_signRemaining|auto with extends].
Qed.

Section Handshake.

Variable sdk : Sdk.
Variable consts : Constants.
Variable Game : Type.
Variable world : World Game.

(** C4 (locator failure).  When the simulated transaction carries no
    authorization list, or a list (possibly empty) none of whose entries is
    an address entry of player 1, [prepareStartGame] throws its not-found
    error right after the build: nothing is signed and no artifact is
    returned. *)
Theorem locator_failure
        (sid : Z) (p1 p2 : string) (pts1 pts2 : Z) (signer : Signer)
        (ttl : option Z) (t : Trace) (tx : AssembledTransaction) :
  start_game world t (clientFor consts p2) (startGameArgs sid p1 p2 pts1 pts2)
             (DEFAULT_METHOD_OPTIONS consts) = Normal tx ->
  match simulatedAuth tx with
  | None => True
  | Some entries => forall x, In x entries -> ~ EntryOf sdk p1 x
  end ->
  prepareStartGame sdk consts world sid p1 p2 pts1 pts2 signer ttl t
  = (Throw (Error match simulatedAuth tx with
                  | None => "No auth entries found in simulation"
                  | Some _ => "No auth entry found for Player 1 (" ++ p1 ++ ")"
                  end),
     (t ++ [buildCall consts sid p1 p2 pts1 pts2])%list).
Proof.
  intros Hb Hnone. apply prepareStartGame_not_found; [exact Hb|].
  destruct (simulatedAuth tx) as [entries|]; [|exact I].
  now apply findAuthEntry_none.
Qed.

Lemma third_call (a b c x : Call) (before after : list Call) :
  [a; b; c] = (before ++ x :: after)%list ->
  a <> x -> b <> x ->
  before = [a; b] /\ x = c /\ after = [].
Proof.
  intros H Ha Hb.
  destruct before as [|y1 [|y2 [|y3 before]]]; simpl in H.
  - injection H as H _. now elim Ha.
  - injection H as _ H _. now elim Hb.
  - injection H as <- <- <- <-. now repeat split.
  - injection H as _ _ _ H. now destruct before.
Qed.

(** What the wallet's answer does to [prepareStartGame]: it ends after the
    build or after the TTL request with an exception, or it asks the wallet
    as its third and last call, and then a refusal is what it throws. *)
Lemma prepareStartGame_wallet
      (sid : Z) (p1 p2 : string) (pts1 pts2 : Z) (signer : Signer)
      (ttl : option Z) (t : Trace) :
  let out :=
    prepareStartGame sdk consts world sid p1 p2 pts1 pts2 signer ttl t in
  let build := buildCall consts sid p1 p2 pts1 pts2 in
  let ttlCall :=
    Call_calculateValidUntilLedger (RPC_URL consts)
                                   (ttlMinutesUsed consts ttl) in
  (exists err,
      fst out = Throw err
      /\ (snd out = (t ++ [build])%list
          \/ snd out = (t ++ [build; ttlCall])%list))
  \/ exists sign request,
      signAuthEntry signer = Some sign
      /\ snd out = (t ++ [build; ttlCall; signCall consts request p1])%list
      /\ (Refused (sign (t ++ [build; ttlCall])%list request
                        (signOptions consts p1)) ->
          fst out
          = Throw (refusal (sign (t ++ [build; ttlCall])%list request
                                 (signOptions consts p1)))).
Proof.
  cbv zeta.
  destruct (start_game world t (clientFor consts p2)
                       (startGameArgs sid p1 p2 pts1 pts2)
                       (DEFAULT_METHOD_OPTIONS consts)) as [tx|err] eqn:Hb.
  2:{ left. rewrite (prepareStartGame_build_fails _ _ _ _ _ _ _ _ _ _ _ _ _ Hb).
      exists err. split; [reflexivity | now left]. }
  destruct (simulatedAuth tx) as [entries|] eqn:Hauth.
  2:{ left. rewrite (prepareStartGame_not_found _ _ _ _ _ _ _ _ _ _ _ _ _ Hb);
        rewrite Hauth; [|exact I].
      eexists. split; [reflexivity | now left]. }
  destruct (findAuthEntry sdk entries p1) as [entry|] eqn:Hfind.
  2:{ left. rewrite (prepareStartGame_not_found _ _ _ _ _ _ _ _ _ _ _ _ _ Hb);
        rewrite Hauth; [|exact Hfind].
      eexists. split; [reflexivity | now left]. }
  destruct (findAuthEntry_some _ _ _ _ Hfind)
    as (_ & _ & _ & _ & c & Hc & Ha).
  rewrite (prepareStartGame_found _ _ _ _ _ _ _ _ _ _ _ _ _ _ _ _
                                  Hb Hauth Hfind Hc Ha).
  cbv zeta. rewrite <- !app_assoc. simpl app.
  destruct (calculateValidUntilLedger world _ _ _) as [v|err].
  2:{ left. exists err. split; [reflexivity | now right]. }
  destruct (signAuthEntry signer) as [sign|].
  2:{ left. eexists. split; [reflexivity | now right]. }
  destruct (preimage_toXDR sdk _) as [request|err].
  2:{ left. exists err. split; [reflexivity | now right]. }
  right. exists sign, request. split; [reflexivity|].
  unfold refusal.
  destruct (sign _ request _) as [r|err].
  - destruct (error r) as [w|] eqn:Hw.
    + split; [simpl; now rewrite <- app_assoc|]. intros _. reflexivity.
    + split.
      * destruct (Keypair_verify sdk p1 _ _) as [[|]|err]; simpl;
          now rewrite <- app_assoc.
      * intros [[e He]|(r' & w & Hr & Hw')]; [discriminate|].
        injection Hr as <-. congruence.
  - split; [simpl; now rewrite <- app_assoc|]. intros _. reflexivity.
Qed.

(** C6 (signing rejection).  [prepareStartGame] asks the wallet at most
    once, as its last call, and a request the wallet refuses - by raising,
    or by returning a result that carries an error - ends it with an
    exception: the wallet's own if the wallet raised, the failed-to-sign
    error with the wallet's message if it declined.  So no artifact is
    returned after a refusal, and a wallet that refuses every request never
    yields one.  The wallet is asked once the build, the scan, the TTL
    request and the serialization of the preimage have succeeded and the
    signer can sign auth entries; the refused request is then the last
    call. *)
Theorem signing_rejection
        (sid : Z) (p1 p2 : string) (pts1 pts2 : Z) (signer : Signer)
        (ttl : option Z) (t : Trace) :
  let out :=
    prepareStartGame sdk consts world sid p1 p2 pts1 pts2 signer ttl t in
  (DeclinesOrRaises signer -> exists err, fst out = Throw err)
  /\ (forall sign before request opts after,
         signAuthEntry signer = Some sign ->
         snd out
         = (t ++ before ++ Call_signAuthEntry request opts :: after)%list ->
         after = []
         /\ (Refused (sign (t ++ before)%list request opts) ->
             fst out
             = Throw (refusal (sign (t ++ before)%list request opts))))
  /\ (forall tx entries entry c validUntil sign request,
         start_game world t (clientFor consts p2)
                    (startGameArgs sid p1 p2 pts1 pts2)
                    (DEFAULT_METHOD_OPTIONS consts) = Normal tx ->
         simulatedAuth tx = Some entries ->
         findAuthEntry sdk entries p1 = Some entry ->
         credentials entry = SorobanCredentialsAddress c ->
         let t1 := (t ++ [buildCall consts sid p1 p2 pts1 pts2])%list in
         let t2 :=
           (t1 ++ [Call_calculateValidUntilLedger
                     (RPC_URL consts) (ttlMinutesUsed consts ttl)])%list in
         calculateValidUntilLedger world t1 (RPC_URL consts)
                                   (ttlMinutesUsed consts ttl)
         = Normal validUntil ->
         signAuthEntry signer = Some sign ->
         preimage_toXDR sdk (preimageOf sdk consts entry c validUntil)
         = Normal request ->
         Refused (sign t2 request (signOptions consts p1)) ->
         out
         = (Throw (refusal (sign t2 request (signOptions consts p1))),
            (t2 ++ [signCall consts request p1])%list)).
Proof.
  intros out.
  pose proof (prepareStartGame_wallet sid p1 p2 pts1 pts2 signer ttl t)
    as Hshape.
  cbv zeta in Hshape. fold out in Hshape.
  split; [|split].
  - intros (sign & Hsign & Hrefuses).
    destruct Hshape as [(err & Herr & _)|(sign' & request & Hs & _ & Hr)];
      [now exists err|].
    rewrite Hsign in Hs. injection Hs as <-.
    eexists. apply Hr. apply Hrefuses.
  - intros sign before request opts after Hsign Htrace.
    destruct Hshape
      as [(err & _ & [Hsnd|Hsnd])|(sign' & request' & Hs & Hsnd & Hr)];
      rewrite Hsnd in Htrace; apply app_inv_head in Htrace.
    + exfalso. assert (Hin : In (Call_signAuthEntry request opts)
                               [buildCall consts sid p1 p2 pts1 pts2])
        by (rewrite Htrace; apply in_elt).
      destruct Hin as [E|[]]. discriminate E.
    + exfalso.
      assert (Hin : In (Call_signAuthEntry request opts)
                       [buildCall consts sid p1 p2 pts1 pts2;
                        Call_calculateValidUntilLedger
                          (RPC_URL consts) (ttlMinutesUsed consts ttl)])
        by (rewrite Htrace; apply in_elt).
      destruct Hin as [E|[E|[]]]; discriminate E.
    + apply third_call in Htrace as (-> & E & ->); [|discriminate..].
      injection E as -> ->. split; [reflexivity|].
      rewrite Hsign in Hs. injection Hs as <-. exact Hr.
  - intros tx entries entry c validUntil sign request Hb Hauth Hfind Hc t1 t2
           Hcalc Hsign Hx Hrefused.
    assert (Ha : Address_toString sdk (address c) = Normal p1).
    { destruct (findAuthEntry_some _ _ _ _ Hfind)
        as (_ & _ & _ & _ & c' & Hc' & Ha).
      rewrite Hc in Hc'. now injection Hc' as <-. }
    subst out.
    rewrite (prepareStartGame_found _ _ _ _ _ _ _ _ _ _ _ _ _ _ _ _
                                    Hb Hauth Hfind Hc Ha).
    cbv zeta. fold t1. rewrite Hcalc, Hsign, Hx. fold t2.
    destruct Hrefused as [[e He]|(r & w & Hr & Hw)].
    + now rewrite He.
    + rewrite Hr. simpl. now rewrite Hw.
Qed.

(** C7 (TTL passthrough), as the code has it.  Once player 1's entry is
    found, [prepareStartGame] calls the TTL calculator exactly once, right
    after the build: with the supplied duration when one is supplied and is
    not 0, and with the multi-sig default when none is supplied or the
    supplied one is 0.  The ledger the calculator returns is the expiration
    of the entry that is exported. *)
Theorem ttl_passthrough
        (sid : Z) (p1 p2 : string) (pts1 pts2 : Z) (signer : Signer)
        (ttl : option Z) (t : Trace) (tx : AssembledTransaction)
        (entries : list SorobanAuthorizationEntry)
        (entry : SorobanAuthorizationEntry) :
  start_game world t (clientFor consts p2) (startGameArgs sid p1 p2 pts1 pts2)
             (DEFAULT_METHOD_OPTIONS consts) = Normal tx ->
  simulatedAuth tx = Some entries ->
  findAuthEntry sdk entries p1 = Some entry ->
  let minutes :=
    match ttl with
    | Some supplied =>
        if (supplied =? 0)%Z then MULTI_SIG_AUTH_TTL_MINUTES consts
        else supplied
    | None => MULTI_SIG_AUTH_TTL_MINUTES consts
    end in
  let t1 := (t ++ [buildCall consts sid p1 p2 pts1 pts2])%list in
  let out :=
    prepareStartGame sdk consts world sid p1 p2 pts1 pts2 signer ttl t in
  (exists more,
      snd out
      = (t1 ++ Call_calculateValidUntilLedger (RPC_URL consts) minutes
            :: more)%list
      /\ forall url m, ~ In (Call_calculateValidUntilLedger url m) more)
  /\ (forall artifact,
         fst out = Normal artifact ->
         exists validUntil signed c,
           calculateValidUntilLedger world t1 (RPC_URL consts) minutes
           = Normal validUntil
           /\ artifact = entry_toXDR sdk signed
           /\ rootInvocation signed = rootInvocation entry
           /\ credentials signed = SorobanCredentialsAddress c
           /\ signatureExpirationLedger c = validUntil).
Proof.
  intros Hb Hauth Hfind minutes t1 out.
  destruct (findAuthEntry_some _ _ _ _ Hfind)
    as (_ & _ & _ & _ & c & Hc & Ha).
  subst out.
  rewrite (prepareStartGame_found _ _ _ _ _ _ _ _ _ _ _ _ _ _ _ _
                                  Hb Hauth Hfind Hc Ha).
  cbv zeta. fold t1. change (ttlMinutesUsed consts ttl) with minutes.
  destruct (calculateValidUntilLedger world t1 (RPC_URL consts) minutes)
    as [v|err].
  2:{ split; [|discriminate]. exists []. split; [reflexivity|]. intros ? ? []. }
  destruct (signAuthEntry signer) as [sign|].
  2:{ split; [|discriminate]. exists []. split; [reflexivity|]. intros ? ? []. }
  destruct (preimage_toXDR sdk _) as [request|err].
  2:{ split; [|discriminate]. exists []. split; [reflexivity|]. intros ? ? []. }
  assert (Htrace :
            forall url m,
              ~ In (Call_calculateValidUntilLedger url m)
                   [signCall consts request p1]).
  { intros url m [H|[]]. discriminate. }
  destruct (sign _ _ _) as [r|err].
  2:{ split; [|discriminate]. exists [signCall consts request p1].
      split; [simpl; now rewrite <- app_assoc | exact Htrace]. }
  destruct (error r) as [w|].
  { split; [|discriminate]. exists [signCall consts request p1].
    split; [simpl; now rewrite <- app_assoc | exact Htrace]. }
  destruct (Keypair_verify sdk p1 _ _) as [[|]|err].
  - split.
    + exists [signCall consts request p1].
      split; [simpl; now rewrite <- app_assoc | exact Htrace].
    + intros artifact H. injection H as <-.
      eexists v, (signedEntry sdk entry c v p1 _), _.
      repeat split.
  - split; [|discriminate]. exists [signCall consts request p1].
    split; [simpl; now rewrite <- app_assoc | exact Htrace].
  - split; [|discriminate]. exists [signCall consts request p1].
    split; [simpl; now rewrite <- app_assoc | exact Htrace].
Qed.

(** C8 (rebuild from decoded arguments).  The first thing
    [prepareStartGame] does is build [start_game] with player 2 as the
    source account and the arguments it was given.  The first thing
    [importAndSignAuthEntry] does after a successful parse is build
    [start_game] with player 2 as the source account, the session id,
    player 1 address and player 1 points that were parsed, and the player 2
    address and points it was given; when the parse fails it builds
    nothing. *)
Theorem rebuild_from_decoded_arguments :
  (forall sid p1 p2 pts1 pts2 signer ttl t,
      exists more,
        snd (prepareStartGame sdk consts world sid p1 p2 pts1 pts2 signer
                              ttl t)
        = (t ++ Call_start_game
                  {| contractId := TWENTY_ONE_CONTRACT consts;
                     networkPassphrase := NETWORK_PASSPHRASE consts;
                     rpcUrl := RPC_URL consts;
                     publicKey := Some p2 |}
                  {| session_id := sid;
                     player1 := p1;
                     player2 := p2;
                     player1_points := pts1;
                     player2_points := pts2 |}
                  (DEFAULT_METHOD_OPTIONS consts)
             :: more)%list)
  /\ (forall xdr p2 pts2 signer t gp,
         parseAuthEntry sdk xdr = Normal gp ->
         exists more,
           snd (importAndSignAuthEntry sdk consts world xdr p2 pts2 signer t)
           = (t ++ Call_start_game
                     {| contractId := TWENTY_ONE_CONTRACT consts;
                        networkPassphrase := NETWORK_PASSPHRASE consts;
                        rpcUrl := RPC_URL consts;
                        publicKey := Some p2 |}
                     {| session_id := GameParams.sessionId gp;
                        player1 := GameParams.player1 gp;
                        player2 := p2;
                        player1_points := GameParams.player1Points gp;
                        player2_points := pts2 |}
                     (DEFAULT_METHOD_OPTIONS consts)
                :: more)%list)
  /\ (forall xdr p2 pts2 signer t err,
         parseAuthEntry sdk xdr = Throw err ->
         importAndSignAuthEntry sdk consts world xdr p2 pts2 signer t
         = (Throw err, t)).
Proof.
  repeat split.
  - intros sid p1 p2 pts1 pts2 signer ttl t.
    unfold prepareStartGame, awaitStartGame, Async.bind at 1, Async.await at 1.
    destruct (start_game world t _ _ _) as [tx|err]; [|now exists []].
    match goal with
    | |- exists more, snd (?k ?t1) = _ =>
        assert (Hk : Extends k); [|destruct (Hk t1) as [more Hmore]]
    end.
    { destruct (simulatedAuth tx); auto with extends.
      destruct (findAuthEntry _ _ _); auto with extends.
      apply extends_bind.
      - destruct ttl as [m|]; [destruct (truthy m)|]; apply extends_await.
      - intros v. destruct (signAuthEntry signer); auto with extends.
        apply extends_bind; auto with extends.
        apply extends_authorizeEntry. intros p. apply extends_walletSigner. }
    exists more. rewrite Hmore, <- app_assoc. reflexivity.
  - intros xdr p2 pts2 signer t gp Hparse.
    unfold importAndSignAuthEntry, Async.bind at 1, Async.lift at 1.
    rewrite Hparse.
    unfold awaitStartGame, Async.bind at 1, Async.await at 1.
    destruct (start_game world t _ _ _) as [tx|err]; [|now exists []].
    match goal with
    | |- exists more, snd (?k ?t1) = _ =>
        assert (Hk : Extends k); [|destruct (Hk t1) as [more Hmore]]
    end.
    { apply extends_bind; auto with extends.
      apply extends_injectSignedAuthEntry. }
    exists more. rewrite Hmore, <- app_assoc. reflexivity.
  - intros xdr p2 pts2 signer t err Hparse.
    unfold importAndSignAuthEntry, Async.bind at 1, Async.lift at 1.
    now rewrite Hparse.
Qed.


Lemma replaceEntryOf_none (target : string)
      (signed : SorobanAuthorizationEntry)
      (entries : list SorobanAuthorizationEntry) :
  (forall x, In x entries -> EntryOf sdk target x -> isStub x = false) ->
  replaceEntryOf sdk target signed entries = None.
Proof.
  induction entries as [|x entries IH]; intros Hno; simpl; [reflexivity|].
  assert (Hrest : replaceEntryOf sdk target signed entries = None)
    by (apply IH; intros y Hy; apply Hno; now right).
  rewrite Hrest.
  destruct (isEntryOf sdk target x) as [[|]|e] eqn:Hx; try reflexivity.
  rewrite (Hno x); [reflexivity | now left | now apply isEntryOf_true].
Qed.

(** C5 (merge address safety).  When the artifact parses and the local
    rebuild succeeds, but the rebuilt bundle has no placeholder of the
    remote signer - each of its entries is not an address entry of the
    signer, or is one that carries a signature already -
    [importAndSignAuthEntry] fails with AddressMismatch right after the
    build: the bundle is not simulated again, nothing is signed, and no
    transaction is returned. *)
Theorem merge_address_safety
        (xdr p2 : string) (pts2 : Z) (signer : Signer) (t : Trace)
        (gp : GameParams.t) (tx : AssembledTransaction) :
  parseAuthEntry sdk xdr = Normal gp ->
  start_game world t (clientFor consts p2)
             (startGameArgs (GameParams.sessionId gp) (GameParams.player1 gp)
                            p2 (GameParams.player1Points gp) pts2)
             (DEFAULT_METHOD_OPTIONS consts) = Normal tx ->
  match simulatedAuth tx with
  | None => True
  | Some placeholders =>
      forall x,
        In x placeholders ->
        EntryOf sdk (GameParams.player1 gp) x -> isStub x = false
  end ->
  importAndSignAuthEntry sdk consts world xdr p2 pts2 signer t
  = (Throw AddressMismatch,
     (t ++ [buildCall consts (GameParams.sessionId gp) (GameParams.player1 gp)
                      p2 (GameParams.player1Points gp) pts2])%list).
Proof.
  intros Hparse Hb Hno.
  destruct (parseAuthEntry_normal sdk xdr gp Hparse)
    as (remote & c & fn & points & Hx & Hc & Ha & _).
  unfold importAndSignAuthEntry, Async.bind at 1, Async.lift at 1.
  rewrite Hparse.
  unfold awaitStartGame, Async.bind at 1, Async.await at 1. rewrite Hb.
  unfold Async.bind at 1, injectSignedAuthEntry, Async.bind at 1,
    Async.lift at 1.
  rewrite Hx, Hc. unfold Async.bind at 1, Async.lift at 1. rewrite Ha.
  rewrite replaceEntryOf_none; [reflexivity|].
  destruct (simulatedAuth tx); [exact Hno | intros x []].
Qed.

(** C10 (read queries are total).  [getGame] and [getHandValue] never
    throw.  Each returns the unwrapped value when the transaction is built,
    simulated and its result is Ok, and [null] when building throws, when
    simulating throws, when reading the result throws, or when the result is
    an error. *)
Theorem read_queries_total :
  (forall sid t,
      exists r, fst (getGame consts world sid t) = Normal r)
  /\ (forall sid t,
         fst (getGame consts world sid t)
         = Normal
             match get_game world t (baseClient consts) sid with
             | Throw _ => None
             | Normal tx =>
                 match simulate tx
                         (t ++ [Call_get_game (baseClient consts) sid])%list
                 with
                 | Throw _ => None
                 | Normal simulated =>
                     match tx_result simulated with
                     | Throw _ => None
                     | Normal (Err _) => None
                     | Normal (Ok game) => Some game
                     end
                 end
             end)
  /\ (forall sid player t,
         exists r, fst (getHandValue consts world sid player t) = Normal r)
  /\ (forall sid player t,
         fst (getHandValue consts world sid player t)
         = Normal
             match get_hand_value world t (baseClient consts) sid player with
             | Throw _ => None
             | Normal tx =>
                 match simulate tx
                         (t ++ [Call_get_hand_value (baseClient consts)
                                                    sid player])%list
                 with
                 | Throw _ => None
                 | Normal simulated =>
                     match tx_result simulated with
                     | Throw _ => None
                     | Normal (Err _) => None
                     | Normal (Ok value) => Some value
                     end
                 end
             end).
Proof.
  assert (Hgame : forall sid t,
             fst (getGame consts world sid t)
             = Normal
                 match get_game world t (baseClient consts) sid with
                 | Throw _ => None
                 | Normal tx =>
                     match simulate tx
                             (t ++ [Call_get_game (baseClient consts) sid])%list
                     with
                     | Throw _ => None
                     | Normal simulated =>
                         match tx_result simulated with
                         | Throw _ => None
                         | Normal (Err _) => None
                         | Normal (Ok game) => Some game
                         end
                     end
                 end).
  { intros sid t.
    unfold getGame, Async.try_catch, Async.bind, Async.await, Async.lift,
      Async.ret.
    destruct (get_game world t (baseClient consts) sid) as [tx|e];
      [|reflexivity].
    destruct (simulate tx _) as [simulated|e]; [|reflexivity].
    destruct (tx_result simulated) as [[game|cause]|e]; reflexivity. }
  assert (Hhand : forall sid player t,
             fst (getHandValue consts world sid player t)
             = Normal
                 match get_hand_value world t (baseClient consts) sid player
                 with
                 | Throw _ => None
                 | Normal tx =>
                     match simulate tx
                             (t ++ [Call_get_hand_value (baseClient consts)
                                                        sid player])%list
                     with
                     | Throw _ => None
                     | Normal simulated =>
                         match tx_result simulated with
                         | Throw _ => None
                         | Normal (Err _) => None
                         | Normal (Ok value) => Some value
                         end
                     end
                 end).
  { intros sid player t.
    unfold getHandValue, Async.try_catch, Async.bind, Async.await, Async.lift,
      Async.ret.
    destruct (get_hand_value world t (baseClient consts) sid player)
      as [tx|e]; [|reflexivity].
    destruct (simulate tx _) as [simulated|e]; [|reflexivity].
    destruct (tx_result simulated) as [[value|cause]|e]; reflexivity. }
  repeat split.
  - intros sid t. rewrite Hgame. eexists. reflexivity.
  - exact Hgame.
  - intros sid player t. rewrite Hhand. eexists. reflexivity.
  - exact Hhand.
Qed.

End Handshake.

(* ================================================================== *)
(** * The codec inverts itself *)

Section OctetFacts.

Lemma toZ_range (b : Byte.byte) : (0 <= Octet.toZ b < 256)%Z.
Proof.
  unfold Octet.toZ. pose proof (Byte.to_N_bounded b). lia.
Qed.

Lemma ofZ_toZ (b : Byte.byte) : Octet.ofZ (Octet.toZ b) = b.
Proof.
  unfold Octet.ofZ. pose proof (toZ_range b) as Hb.
  rewrite Z.mod_small by exact Hb.
  unfold Octet.toZ. rewrite N2Z.id. now rewrite Byte.of_to_N.
Qed.

Lemma ofZ_eq (z : Z) (b : Byte.byte) :
  (z mod 256 = Octet.toZ b)%Z -> Octet.ofZ z = b.
Proof.
  intros H. rewrite <- (ofZ_toZ b). unfold Octet.ofZ at 1 2.
  rewrite H, (Z.mod_small (Octet.toZ b)); [reflexivity | apply toZ_range].
Qed.

Lemma toZ_ofZ (z : Z) : Octet.toZ (Octet.ofZ z) = (z mod 256)%Z.
Proof.
  pose proof (Z.mod_pos_bound z 256 eq_refl) as Hz.
  unfold Octet.ofZ.
  pose proof (Byte.to_of_N_option_map (Z.to_N (z mod 256))) as H.
  replace (N.leb (Z.to_N (z mod 256)) 255) with true in H
    by (symmetry; apply N.leb_le; lia).
  destruct (Byte.of_N (Z.to_N (z mod 256))) as [b|]; [|discriminate].
  simpl in H. injection H as H. unfold Octet.toZ. rewrite H. lia.
Qed.

End OctetFacts.

Section Base64Facts.

Lemma value_digit (n : Z) :
  (0 <= n < 64)%Z -> Base64.value (Base64.digit n) = Some n.
Proof.
  intros Hn.
  assert (Hall :
            forallb (fun k => match Base64.value (Base64.digit (Z.of_nat k)) with
                              | Some v => Z.eqb v (Z.of_nat k)
                              | None => false
                              end) (seq 0 64) = true) by (vm_compute; reflexivity).
  rewrite forallb_forall in Hall.
  specialize (Hall (Z.to_nat n)).
  rewrite Z2Nat.id in Hall by lia.
  assert (Hin : In (Z.to_nat n) (seq 0 64)) by (apply in_seq; lia).
  specialize (Hall Hin).
  destruct (Base64.value (Base64.digit n)) as [v|]; [|discriminate].
  apply Z.eqb_eq in Hall. now subst.
Qed.

Lemma value_padding : Base64.value "="%char = None.
Proof. reflexivity. Qed.

Lemma bytes_ind3 (P : Bytes -> Prop) :
  P [] ->
  (forall a, P [a]) ->
  (forall a b, P [a; b]) ->
  (forall a b c rest, P rest -> P (a :: b :: c :: rest)) ->
  forall bs, P bs.
Proof.
  intros H0 H1 H2 H3.
  fix IH 1.
  intros [|a [|b [|c rest]]];
    [exact H0 | apply H1 | apply H2 | apply H3; apply IH].
Qed.

Lemma decode_encode (bs : Bytes) :
  Base64.decode (Base64.encode bs) = Some bs.
Proof.
  induction bs as [|a|a b|a b c rest IH] using bytes_ind3.
  - reflexivity.
  - pose proof (toZ_range a) as Ha.
    cbn [Base64.encode]. cbv zeta. cbn [Base64.decode].
    rewrite !value_digit by (Z.div_mod_to_equations; lia).
    rewrite value_padding, !Ascii.eqb_refl. cbn [andb].
    unfold Base64.group. f_equal. f_equal.
    apply ofZ_eq. Z.div_mod_to_equations. lia.
  - pose proof (toZ_range a) as Ha. pose proof (toZ_range b) as Hb.
    cbn [Base64.encode]. cbv zeta. cbn [Base64.decode].
    rewrite !value_digit by (Z.div_mod_to_equations; lia).
    rewrite value_padding, !Ascii.eqb_refl.
    unfold Base64.group. f_equal. f_equal; [|f_equal].
    + apply ofZ_eq. Z.div_mod_to_equations. lia.
    + apply ofZ_eq. Z.div_mod_to_equations. lia.
  - pose proof (toZ_range a) as Ha. pose proof (toZ_range b) as Hb.
    pose proof (toZ_range c) as Hc.
    cbn [Base64.encode]. cbv zeta. cbn [Base64.decode].
    rewrite !value_digit by (Z.div_mod_to_equations; lia).
    rewrite IH. unfold Base64.group, option_map. f_equal. simpl app.
    f_equal; [|f_equal; [|f_equal]].
    + apply ofZ_eq. Z.div_mod_to_equations. lia.
    + apply ofZ_eq. Z.div_mod_to_equations. lia.
    + apply ofZ_eq. Z.div_mod_to_equations. lia.
Qed.

End Base64Facts.

Section XdrFacts.

Import XdrCodec.
Local Open Scope list_scope.

Lemma reads_pure {A} (x : A) : Reads (pure x) [] x.
Proof. intros rest. reflexivity. Qed.

Lemma reads_andThen {A B} (r : Reader A) (k : A -> Reader B)
      (b1 b2 : Bytes) (a : A) (x : B) :
  Reads r b1 a -> Reads (k a) b2 x -> Reads (andThen r k) (b1 ++ b2) x.
Proof.
  intros Hr Hk rest. unfold andThen. rewrite <- app_assoc, Hr. apply Hk.
Qed.

Lemma reads_map {A B} (r : Reader A) (f : A -> B) (b : Bytes) (a : A) :
  Reads r b a -> Reads (andThen r (fun y => pure (f y))) b (f a).
Proof.
  intros Hr. rewrite <- (app_nil_r b).
  eapply reads_andThen; [exact Hr | apply reads_pure].
Qed.

Lemma reads_take (b : Bytes) (n : nat) :
  List.length b = n -> Reads (take n) b b.
Proof.
  intros <- rest. unfold take.
  rewrite length_app.
  replace (List.length b + List.length rest <? List.length b)%nat
    with false by (symmetry; apply Nat.ltb_ge; lia).
  rewrite firstn_app, Nat.sub_diag, firstn_all, firstn_O, app_nil_r.
  rewrite skipn_app, Nat.sub_diag, skipn_all. reflexivity.
Qed.

Lemma length_putWord (k : nat) (n : Z) : List.length (putWord k n) = k.
Proof. induction k; simpl; [reflexivity | now rewrite IHk]. Qed.

Lemma wordValue_putWord (k : nat) (n acc : Z) :
  wordValue (putWord k n) acc
  = (acc * 256 ^ Z.of_nat k + n mod 256 ^ Z.of_nat k)%Z.
Proof.
  revert acc. induction k as [|k IH]; intros acc.
  - simpl. rewrite Z.mod_1_r. lia.
  - cbn [putWord wordValue]. rewrite IH, toZ_ofZ.
    rewrite Nat2Z.inj_succ, Z.pow_succ_r by lia.
    assert (Hp : (0 < 256 ^ Z.of_nat k)%Z) by (apply Z.pow_pos_nonneg; lia).
    rewrite (Z.mul_comm 256 (256 ^ Z.of_nat k)).
    rewrite (Z.rem_mul_r n (256 ^ Z.of_nat k) 256) by lia.
    lia.
Qed.

Lemma reads_word (k : nat) (n : Z) :
  Reads (getUnsigned k) (putWord k n) (n mod 256 ^ Z.of_nat k)%Z.
Proof.
  intros rest.
  pose proof (reads_map (take k) (fun w => wordValue w 0) (putWord k n)
                        (putWord k n)
                        (reads_take _ _ (length_putWord k n)) rest) as H.
  cbv beta in H. rewrite wordValue_putWord in H. exact H.
Qed.

Lemma reads_unsigned (k : nat) (n : Z) :
  (0 <= n < 256 ^ Z.of_nat k)%Z -> Reads (getUnsigned k) (putWord k n) n.
Proof.
  intros Hn. pose proof (reads_word k n) as H.
  now rewrite Z.mod_small in H.
Qed.

Lemma reads_signed (k : nat) (n : Z) :
  (0 < k)%nat ->
  (- 2 ^ (8 * Z.of_nat k - 1) <= n < 2 ^ (8 * Z.of_nat k - 1))%Z ->
  Reads (getSigned k) (putWord k n) n.
Proof.
  intros Hk Hn. unfold getSigned.
  assert (Hpow : (256 ^ Z.of_nat k = 2 ^ (8 * Z.of_nat k))%Z).
  { change 256%Z with (2 ^ 8)%Z. rewrite <- Z.pow_mul_r by lia. reflexivity. }
  assert (Hhalf : (2 ^ (8 * Z.of_nat k)
                   = 2 * 2 ^ (8 * Z.of_nat k - 1))%Z).
  { rewrite <- Z.pow_succ_r by lia. f_equal. lia. }
  assert (Hpos : (0 < 2 ^ (8 * Z.of_nat k - 1))%Z)
    by (apply Z.pow_pos_nonneg; lia).
  rewrite <- (app_nil_r (putWord k n)).
  eapply reads_andThen with (a := (n mod 256 ^ Z.of_nat k)%Z).
  - apply reads_word.
  - rewrite Hpow.
    destruct (Z.ltb_spec (n mod 2 ^ (8 * Z.of_nat k))
                         (2 ^ (8 * Z.of_nat k - 1))) as [Hlt|Hge].
    + replace (n mod 2 ^ (8 * Z.of_nat k))%Z with n; [apply reads_pure|].
      destruct (Z.le_gt_cases 0 n) as [H0|H0].
      * rewrite Z.mod_small; lia.
      * exfalso.
        rewrite <- (Z.mod_unique n (2 ^ (8 * Z.of_nat k)) (-1)
                                 (n + 2 ^ (8 * Z.of_nat k))) in Hlt; lia.
    + replace (n mod 2 ^ (8 * Z.of_nat k) - 2 ^ (8 * Z.of_nat k))%Z with n;
        [apply reads_pure|].
      destruct (Z.le_gt_cases 0 n) as [H0|H0].
      * exfalso. rewrite Z.mod_small in Hge; lia.
      * rewrite <- (Z.mod_unique n (2 ^ (8 * Z.of_nat k)) (-1)
                                 (n + 2 ^ (8 * Z.of_nat k))); lia.
Qed.

Lemma reads_u32 (n : Z) : Wf.u32 n = true -> Reads (getUnsigned 4) (putWord 4 n) n.
Proof.
  unfold Wf.u32. intros H. apply andb_prop in H as [H1 H2].
  apply reads_unsigned. change (256 ^ Z.of_nat 4)%Z with (2 ^ 32)%Z. lia.
Qed.

Lemma reads_u64 (n : Z) : Wf.u64 n = true -> Reads (getUnsigned 8) (putWord 8 n) n.
Proof.
  unfold Wf.u64. intros H. apply andb_prop in H as [H1 H2].
  apply reads_unsigned. change (256 ^ Z.of_nat 8)%Z with (2 ^ 64)%Z. lia.
Qed.

Lemma reads_i32 (n : Z) : Wf.i32 n = true -> Reads (getSigned 4) (putWord 4 n) n.
Proof.
  unfold Wf.i32. intros H. apply andb_prop in H as [H1 H2].
  apply reads_signed; [lia|].
  change (2 ^ (8 * Z.of_nat 4 - 1))%Z with (2 ^ 31)%Z. lia.
Qed.

Lemma reads_i64 (n : Z) : Wf.i64 n = true -> Reads (getSigned 8) (putWord 8 n) n.
Proof.
  unfold Wf.i64. intros H. apply andb_prop in H as [H1 H2].
  apply reads_signed; [lia|].
  change (2 ^ (8 * Z.of_nat 8 - 1))%Z with (2 ^ 63)%Z. lia.
Qed.

(** A tag or flag: a small constant word. *)
Lemma reads_tag (n : Z) :
  (0 <= n < 256)%Z -> Reads (getUnsigned 4) (putWord 4 n) n.
Proof.
  intros Hn. apply reads_unsigned.
  change (256 ^ Z.of_nat 4)%Z with 4294967296%Z. lia.
Qed.

Lemma reads_bool (b : bool) : Reads getBool (putBool b) b.
Proof.
  unfold getBool, putBool. rewrite <- (app_nil_r (putWord 4 _)).
  eapply reads_andThen; [apply reads_tag; destruct b; lia|].
  destruct b; apply reads_pure.
Qed.

Lemma reads_opaque (b : Bytes) :
  Wf.opaque b = true -> Reads getOpaque (putOpaque b) b.
Proof.
  unfold Wf.opaque. intros H. apply Z.ltb_lt in H.
  unfold getOpaque, putOpaque.
  eapply reads_andThen.
  { apply reads_unsigned. change (256 ^ Z.of_nat 4)%Z with (2 ^ 32)%Z. lia. }
  rewrite Nat2Z.id.
  eapply reads_andThen; [apply reads_take; reflexivity|].
  rewrite <- (app_nil_r (repeat _ _)).
  eapply reads_andThen; [apply reads_take; apply repeat_length|].
  apply reads_pure.
Qed.

Lemma length_list_byte_of_string (s : string) :
  List.length (list_byte_of_string s) = String.length s.
Proof.
  unfold list_byte_of_string. rewrite length_map.
  induction s as [|c s IH]; simpl; [reflexivity | now rewrite IH].
Qed.

Lemma reads_string (s : string) :
  Wf.symbol s = true -> Reads (getString 32) (putString s) s.
Proof.
  unfold Wf.symbol. intros H.
  unfold getString, putString.
  rewrite <- (app_nil_r (putOpaque _)).
  eapply reads_andThen.
  { apply reads_opaque. unfold Wf.opaque. apply Z.ltb_lt.
    rewrite length_list_byte_of_string. apply Nat.leb_le in H.
    change (2 ^ 32)%Z with 4294967296%Z. lia. }
  cbv beta.
  rewrite length_list_byte_of_string, H, string_of_list_byte_of_string.
  apply reads_pure.
Qed.

Lemma reads_many {A} (r : Reader A) (put : A -> Bytes) (l : list A) :
  (forall x, In x l -> Reads r (put x) x) ->
  Reads (getMany r (List.length l)) (flat_map put l) l.
Proof.
  induction l as [|x l IH]; intros H.
  - apply reads_pure.
  - cbn [List.length getMany flat_map].
    eapply reads_andThen; [apply H; now left|].
    rewrite <- (app_nil_r (flat_map put l)).
    eapply reads_andThen; [apply IH; intros y Hy; apply H; now right|].
    apply reads_pure.
Qed.

Lemma reads_array {A} (r : Reader A) (put : A -> Bytes) (l : list A) :
  Wf.count l = true ->
  (forall x, In x l -> Reads r (put x) x) ->
  Reads (getArray r) (putArray put l) l.
Proof.
  unfold Wf.count. intros Hc H. apply Z.ltb_lt in Hc.
  unfold getArray, putArray.
  eapply reads_andThen.
  { apply reads_unsigned. change (256 ^ Z.of_nat 4)%Z with (2 ^ 32)%Z. lia. }
  rewrite Nat2Z.id. now apply reads_many.
Qed.

Lemma reads_scAddress (a : ScAddress) :
  Wf.scAddress a = true -> Reads getScAddress (putScAddress a) a.
Proof.
  unfold Wf.scAddress, Wf.bytes32, getScAddress.
  destruct a as [key|h]; intros H; apply Nat.eqb_eq in H; cbn [putScAddress].
  - eapply reads_andThen; [apply reads_tag; lia|]. cbv beta iota.
    change (0 =? 0)%Z with true. cbv iota.
    eapply reads_andThen; [apply reads_tag; lia|].
    change (0 =? 0)%Z with true. cbv iota.
    apply (reads_map (take 32) ScAddressTypeAccount). now apply reads_take.
  - eapply reads_andThen; [apply reads_tag; lia|].
    change (1 =? 0)%Z with false. change (1 =? 1)%Z with true. cbv iota.
    apply (reads_map (take 32) ScAddressTypeContract). now apply reads_take.
Qed.

Lemma length_putScVal_min (v : ScVal) : 4 <= List.length (putScVal v).
Proof.
  destruct v; cbn [putScVal]; rewrite ?length_app, ?length_putWord; lia.
Qed.

Lemma length_flat_map_In {A} (put : A -> Bytes) (l : list A) (x : A) :
  In x l -> List.length (put x) <= List.length (flat_map put l).
Proof.
  induction l as [|y l IH]; intros [].
  - subst. cbn [flat_map]. rewrite length_app. lia.
  - cbn [flat_map]. rewrite length_app. specialize (IH H). lia.
Qed.

Ltac read_tag :=
  eapply reads_andThen; [apply reads_tag; lia|]; cbv beta iota.

Lemma reads_scVal (fuel : nat) (v : ScVal) :
  List.length (putScVal v) <= fuel ->
  Wf.scVal v = true ->
  Reads (getScVal fuel) (putScVal v) v.
Proof.
  revert v. induction fuel as [|fuel IH]; intros v Hlen Hwf.
  { pose proof (length_putScVal_min v). lia. }
  destruct v; cbn [putScVal getScVal Wf.scVal] in *.
  - read_tag. apply (reads_map getBool ScvBool), reads_bool.
  - rewrite <- (app_nil_r (putWord 4 1)). read_tag. apply reads_pure.
  - read_tag. now apply (reads_map (getUnsigned 4) ScvU32), reads_u32.
  - read_tag. now apply (reads_map (getSigned 4) ScvI32), reads_i32.
  - read_tag. now apply (reads_map (getUnsigned 8) ScvU64), reads_u64.
  - read_tag. now apply (reads_map (getSigned 8) ScvI64), reads_i64.
  - read_tag. destruct i128 as [h l]. cbn [hi lo] in *.
    apply andb_prop in Hwf as [Hh Hl].
    eapply reads_andThen; [now apply reads_i64|].
    now apply (reads_map (getUnsigned 8)
                         (fun l => ScvI128 {| hi := h; lo := l |})), reads_u64.
  - read_tag. now apply (reads_map getOpaque ScvBytes), reads_opaque.
  - read_tag. now apply (reads_map (getString 32) ScvSymbol), reads_string.
  - read_tag. read_tag. change (1 =? 1)%Z with true. cbv iota.
    apply andb_prop in Hwf as [Hcount Hall]. rewrite forallb_forall in Hall.
    apply (reads_map (getArray (getScVal fuel)) ScvVec).
    apply reads_array; [exact Hcount|]. intros x Hx.
    apply IH; [|now apply Hall].
    pose proof (length_flat_map_In putScVal vec x Hx).
    unfold putArray in Hlen. rewrite !length_app, !length_putWord in Hlen. lia.
  - read_tag. read_tag. change (1 =? 1)%Z with true. cbv iota.
    apply andb_prop in Hwf as [Hcount Hall]. rewrite forallb_forall in Hall.
    apply (reads_map
             (getArray (k <- getScVal fuel ;;
                        v <- getScVal fuel ;; pure (k, v))%reader)
             ScvMap).
    apply reads_array; [exact Hcount|]. intros [k v] Hx.
    pose proof (length_flat_map_In
                  (fun kv => putScVal (fst kv) ++ putScVal (snd kv))
                  map (k, v) Hx) as Hkv.
    cbn [fst snd] in *. rewrite length_app in Hkv.
    unfold putArray in Hlen. rewrite !length_app, !length_putWord in Hlen.
    specialize (Hall (k, v) Hx). cbn [fst snd] in Hall.
    apply andb_prop in Hall as [Hk Hv].
    eapply reads_andThen; [apply IH; [lia | exact Hk]|].
    apply (reads_map (getScVal fuel) (fun v => (k, v))).
    apply IH; [lia | exact Hv].
  - read_tag. now apply (reads_map getScAddress ScvAddress), reads_scAddress.
Qed.

Lemma reads_invokeContractArgs (fuel : nat) (c : InvokeContractArgs) :
  List.length (putInvokeContractArgs c) <= fuel ->
  Wf.invokeContractArgs c = true ->
  Reads (getInvokeContractArgs fuel) (putInvokeContractArgs c) c.
Proof.
  destruct c as [a name l]. unfold Wf.invokeContractArgs,
    putInvokeContractArgs, getInvokeContractArgs.
  cbn [contractAddress functionName args]. intros Hlen Hwf.
  apply andb_prop in Hwf as [Hwf Hall]. apply andb_prop in Hwf as [Hwf Hcount].
  apply andb_prop in Hwf as [Ha Hname]. rewrite forallb_forall in Hall.
  eapply reads_andThen; [now apply reads_scAddress|].
  eapply reads_andThen; [now apply reads_string|].
  apply (reads_map (getArray (getScVal fuel))
                   (fun l => {| contractAddress := a;
                                functionName := name;
                                args := l |})).
  apply reads_array; [exact Hcount|]. intros x Hx.
  apply reads_scVal; [|now apply Hall].
  pose proof (length_flat_map_In putScVal l x Hx).
  unfold putArray in Hlen. rewrite !length_app in Hlen. lia.
Qed.

Lemma reads_authorizedFunction (fuel : nat) (f : SorobanAuthorizedFunction) :
  List.length (putAuthorizedFunction f) <= fuel ->
  Wf.authorizedFunction f = true ->
  Reads (getAuthorizedFunction fuel) (putAuthorizedFunction f) f.
Proof.
  destruct f as [c|deployer salt wasmHash];
    cbn [putAuthorizedFunction Wf.authorizedFunction];
    unfold getAuthorizedFunction; intros Hlen Hwf.
  - read_tag. change (0 =? 0)%Z with true. cbv iota.
    apply (reads_map (getInvokeContractArgs fuel) ContractFn).
    apply reads_invokeContractArgs; [|exact Hwf].
    rewrite length_app in Hlen. lia.
  - apply andb_prop in Hwf as [Hwf Hw]. apply andb_prop in Hwf as [Hd Hs].
    unfold Wf.bytes32 in Hs, Hw.
    apply Nat.eqb_eq in Hs. apply Nat.eqb_eq in Hw.
    read_tag. change (1 =? 0)%Z with false. change (1 =? 1)%Z with true.
    cbv iota.
    read_tag. change (0 =? 0)%Z with true. cbv iota.
    eapply reads_andThen; [now apply reads_scAddress|].
    eapply reads_andThen; [now apply reads_take|].
    read_tag. change (0 =? 0)%Z with true. cbv iota.
    apply (reads_map (take 32) (CreateContractHostFn deployer salt)).
    now apply reads_take.
Qed.

Lemma length_putAuthorizedFunction_min (f : SorobanAuthorizedFunction) :
  4 <= List.length (putAuthorizedFunction f).
Proof.
  destruct f; cbn [putAuthorizedFunction];
    rewrite ?length_app, ?length_putWord; lia.
Qed.

Lemma reads_invocation (fuel : nat) (i : SorobanAuthorizedInvocation) :
  List.length (putInvocation i) <= fuel ->
  Wf.authorizedInvocation i = true ->
  Reads (getInvocation fuel) (putInvocation i) i.
Proof.
  revert i. induction fuel as [|fuel IH]; intros [f subs] Hlen Hwf;
    cbn [putInvocation getInvocation Wf.authorizedInvocation] in *;
    rewrite length_app in Hlen;
    pose proof (length_putAuthorizedFunction_min f) as Hmin; [lia|].
  apply andb_prop in Hwf as [Hwf Hall]. apply andb_prop in Hwf as [Hf Hcount].
  rewrite forallb_forall in Hall.
  eapply reads_andThen; [apply reads_authorizedFunction; [lia | exact Hf]|].
  apply (reads_map (getArray (getInvocation fuel)) (mkInvocation f)).
  apply reads_array; [exact Hcount|]. intros x Hx.
  apply IH; [|now apply Hall].
  pose proof (length_flat_map_In putInvocation subs x Hx).
  unfold putArray in Hlen. rewrite !length_app, !length_putWord in Hlen. lia.
Qed.

Lemma reads_credentials (fuel : nat) (c : SorobanCredentials) :
  List.length (putCredentials c) <= fuel ->
  Wf.sorobanCredentials c = true ->
  Reads (getCredentials fuel) (putCredentials c) c.
Proof.
  destruct c as [|[a n expiration sig]];
    cbn [putCredentials Wf.sorobanCredentials address nonce
         signatureExpirationLedger signature];
    unfold getCredentials; intros Hlen Hwf.
  - rewrite <- (app_nil_r (putWord 4 0)). read_tag. apply reads_pure.
  - apply andb_prop in Hwf as [Hwf Hsig]. apply andb_prop in Hwf as [Hwf He].
    apply andb_prop in Hwf as [Ha Hn].
    read_tag. change (1 =? 0)%Z with false. change (1 =? 1)%Z with true.
    cbv iota.
    eapply reads_andThen; [now apply reads_scAddress|].
    eapply reads_andThen; [now apply reads_i64|].
    eapply reads_andThen; [now apply reads_u32|].
    apply (reads_map (getScVal fuel)
                     (fun sig =>
                        SorobanCredentialsAddress
                          {| address := a;
                             nonce := n;
                             signatureExpirationLedger := expiration;
                             signature := sig |})).
    apply reads_scVal; [|exact Hsig].
    rewrite !length_app in Hlen. lia.
Qed.

Lemma reads_entry (fuel : nat) (e : SorobanAuthorizationEntry) :
  List.length (putEntry e) <= fuel ->
  Wf.entry e = true ->
  Reads (getEntry fuel) (putEntry e) e.
Proof.
  destruct e as [c i]. unfold putEntry, getEntry, Wf.entry.
  cbn [credentials rootInvocation]. intros Hlen Hwf.
  apply andb_prop in Hwf as [Hc Hi]. rewrite length_app in Hlen.
  eapply reads_andThen; [apply reads_credentials; [lia | exact Hc]|].
  apply (reads_map (getInvocation fuel)
                   (fun i => {| credentials := c; rootInvocation := i |})).
  apply reads_invocation; [lia | exact Hi].
Qed.

(** Decoding an encoded entry gives the entry back. *)
Lemma fromXDR_toXDR (e : SorobanAuthorizationEntry) :
  Wf.entry e = true -> fromXDR (toXDR e) = Normal e.
Proof.
  intros Hwf. unfold fromXDR, toXDR. rewrite decode_encode.
  pose proof (reads_entry (List.length (putEntry e)) e (le_n _) Hwf []) as H.
  rewrite app_nil_r in H. now rewrite H.
Qed.

Lemma fake_codec_law : CodecLaw Fake.sdk.
Proof. intros e Hwf. now apply fromXDR_toXDR. Qed.

End XdrFacts.

Section Examples.

Import Fake Scenario.

Local Open Scope Z_scope.

Lemma entryOf_placeholder_A :
  EntryOf sdk ADDR_A (placeholder ADDR_A 42 10).
Proof.
  eexists. split; [reflexivity | vm_compute; reflexivity].
Qed.

Lemma not_entryOf_sourceEntry (target : string) (sid points : Z) :
  ~ EntryOf sdk target (sourceEntry sid points).
Proof. intros [c [Hc _]]. discriminate. Qed.

Lemma not_entryOf_A_strangers :
  forall x, In x strangers -> ~ EntryOf sdk ADDR_A x.
Proof.
  intros x [<-|[<-|[]]].
  - apply not_entryOf_sourceEntry.
  - intros [c [Hc Ha]]. injection Hc as <-. vm_compute in Ha. discriminate.
Qed.

(** The end-to-end scenario of the spec: the artifact [S1] parses to the
    shared arguments, and player 2's import ends with a transaction. *)
Example handshake_scenario :
  fst (prepareStartGame sdk consts world 42 ADDR_A ADDR_B 10 15
                        signingWallet (Some 60) [])
  = Normal S1
  /\ parseAuthEntry sdk S1
     = Normal {| GameParams.sessionId := 42;
                 GameParams.player1 := ADDR_A;
                 GameParams.player1Points := 10 |}
  /\ exists tx,
      fst (importAndSignAuthEntry sdk consts world S1 ADDR_B 15
                                  signingWallet [])
      = Normal tx.
Proof.
  split; [vm_compute; reflexivity|].
  split; [vm_compute; reflexivity|].
  eexists. vm_compute. reflexivity.
Qed.

(** C1 (round trip), at the failing input.  Player 1 stakes 2^64 points,
    the smallest value whose high word is not zero.  The exported artifact
    decodes to an entry whose second argument is an [i128] of value 2^64,
    and it parses: the session id and the address come back, and the points
    come back as 0. *)
Theorem round_trip_loses_high_word :
  exists artifact e fn points,
    fst (prepareStartGame sdk consts world 42 ADDR_A ADDR_B bigStake 15
                          signingWallet (Some 60) [])
    = Normal artifact
    /\ entry_fromXDR sdk artifact = Normal e
    /\ function (rootInvocation e) = ContractFn fn
    /\ args fn = [ScvU32 42; ScvI128 points]
    /\ i128_value points = bigStake
    /\ bigStake = 2 ^ 64
    /\ parseAuthEntry sdk artifact
       = Normal {| GameParams.sessionId := 42;
                   GameParams.player1 := ADDR_A;
                   GameParams.player1Points := 0 |}.
Proof.
  do 4 eexists.
  split; [vm_compute; reflexivity|].
  split; [vm_compute; reflexivity|].
  split; [reflexivity|].
  split; [reflexivity|].
  split; [reflexivity|].
  split; [reflexivity|].
  vm_compute. reflexivity.
Qed.

(** The read-only queries on the three kinds of session: one that exists,
    one whose simulation throws, one the contract does not know. *)
Example read_queries_scenario :
  fst (getGame consts world 42 []) = Normal (Some {| hand1 := 17; hand2 := 20 |})
  /\ fst (getGame consts world 13 []) = Normal None
  /\ fst (getGame consts world 1 []) = Normal None
  /\ fst (getHandValue consts world 42 ADDR_A []) = Normal (Some 17)
  /\ fst (getHandValue consts world 1 ADDR_A []) = Normal None.
Proof. repeat split. Qed.

(** The texts of the three rejections of [parseAuthEntry]. *)
Example parse_rejections :
  parseAuthEntry sdk endGameArtifact
  = Throw (Error "Failed to parse auth entry: Invalid function name: end_game. Expected start_game")
  /\ parseAuthEntry sdk threeArgumentsArtifact
     = Throw (Error "Failed to parse auth entry: Invalid number of arguments: 3. Expected 2")
  /\ parseAuthEntry sdk sourceArtifact
     = Throw (Error "Failed to parse auth entry: Unsupported credentials type: sorobanCredentialsSourceAccount").
Proof. repeat split; vm_compute; reflexivity. Qed.

(** An expiry that is not a [u32] - here a TTL of -100 minutes, which puts
    it 1200 ledgers before the current one - cannot be written into the
    preimage: [prepareStartGame] fails after the TTL request and the wallet,
    which would have declined, is never asked. *)
Example expiry_outside_u32 :
  prepareStartGame sdk consts world 42 ADDR_A ADDR_B 10 15
                   decliningWallet (Some (-100)) []
  = (Throw (Error "XDR Write Error: invalid u32 value"),
     [buildCall consts 42 ADDR_A ADDR_B 10 15;
      Call_calculateValidUntilLedger (RPC_URL consts) (-100)]).
Proof. vm_compute. reflexivity. Qed.

Lemma shape_rejection_witness :
  (exists msg,
      parseAuthEntry sdk endGameArtifact
      = Throw (Error ("Failed to parse auth entry: " ++ msg)))
  /\ (forall c p1 fn,
         credentials endGameEntry = SorobanCredentialsAddress c ->
         Address_toString sdk (address c) = Normal p1 ->
         function (rootInvocation endGameEntry) = ContractFn fn ->
         parseAuthEntry sdk endGameArtifact
         = Throw
             (Error
                ("Failed to parse auth entry: "
                 ++ (if (functionName fn =? "start_game")%string
                     then "Invalid number of arguments: "
                          ++ string_of_nat (List.length (args fn))
                          ++ ". Expected 2"
                     else "Invalid function name: " ++ functionName fn
                          ++ ". Expected start_game")))).
Proof.
  apply (shape_rejection sdk endGameArtifact endGameEntry).
  - vm_compute. reflexivity.
  - left. vm_compute. discriminate.
Defined.

Lemma unsupported_credential_witness :
  parseAuthEntry sdk sourceArtifact
  = Throw (Error ("Failed to parse auth entry: Unsupported credentials type: "
                  ++ switch_name (credentials (sourceEntry 42 10)))).
Proof.
  apply (unsupported_credential sdk sourceArtifact (sourceEntry 42 10)).
  - vm_compute. reflexivity.
  - vm_compute. discriminate.
Defined.

Lemma locator_determinism_witness :
  findAuthEntry sdk
                ([sourceEntry 42 15]
                 ++ placeholder ADDR_A 42 10 :: [placeholder ADDR_C 42 10])
                ADDR_A
  = Some (placeholder ADDR_A 42 10).
Proof.
  apply (proj1 (proj2 (proj2 (locator_determinism sdk)))).
  - intros x [<-|[]]. apply not_entryOf_sourceEntry.
  - exact entryOf_placeholder_A.
Defined.

Lemma locator_failure_witness :
  prepareStartGame sdk consts strangeWorld 42 ADDR_A ADDR_B 10 15
                   signingWallet (Some 60) []
  = (Throw (Error ("No auth entry found for Player 1 (" ++ ADDR_A ++ ")")),
     [buildCall consts 42 ADDR_A ADDR_B 10 15]).
Proof.
  apply (locator_failure sdk consts Game strangeWorld 42 ADDR_A ADDR_B 10 15
                         signingWallet (Some 60) []
                         {| built := "start_game";
                            simulationData :=
                              Some {| result :=
                                        Some {| auth := Some strangers |} |} |}).
  - reflexivity.
  - exact not_entryOf_A_strangers.
Defined.

(** The bundle of [signedWorld] has an entry of player 1, but it is signed:
    no placeholder is left to merge into. *)
Lemma no_placeholder_of_A :
  forall x, In x alreadySigned -> EntryOf sdk ADDR_A x -> isStub x = false.
Proof.
  intros x [<-|[<-|[]]] _; reflexivity.
Qed.

Lemma merge_address_safety_witness :
  importAndSignAuthEntry sdk consts signedWorld S1 ADDR_B 15 signingWallet []
  = (Throw AddressMismatch, [buildCall consts 42 ADDR_A ADDR_B 10 15]).
Proof.
  apply (merge_address_safety
           sdk consts Game signedWorld S1 ADDR_B 15 signingWallet []
           {| GameParams.sessionId := 42;
              GameParams.player1 := ADDR_A;
              GameParams.player1Points := 10 |}
           {| built := "start_game";
              simulationData :=
                Some {| result := Some {| auth := Some alreadySigned |} |} |}).
  - vm_compute. reflexivity.
  - reflexivity.
  - exact no_placeholder_of_A.
Defined.

Lemma decliningWallet_declines : DeclinesOrRaises decliningWallet.
Proof.
  eexists. split; [reflexivity|]. intros t preimage opts. right.
  eexists. eexists. split; reflexivity.
Qed.

Lemma signing_rejection_witness :
  exists err,
    fst (prepareStartGame sdk consts world 42 ADDR_A ADDR_B 10 15
                          decliningWallet (Some 60) [])
    = Throw err.
Proof.
  pose proof (signing_rejection sdk consts Game world 42 ADDR_A ADDR_B
                                10 15 decliningWallet (Some 60) [])
    as Hrejection.
  cbv zeta in Hrejection. exact (proj1 Hrejection decliningWallet_declines).
Defined.

Lemma ttl_passthrough_witness :
  exists more,
    snd (prepareStartGame sdk consts world 42 ADDR_A ADDR_B 10 15
                          signingWallet (Some 30) [])
    = ([buildCall consts 42 ADDR_A ADDR_B 10 15]
       ++ Call_calculateValidUntilLedger (RPC_URL consts) 30 :: more)%list
    /\ forall url m, ~ In (Call_calculateValidUntilLedger url m) more.
Proof.
  apply (proj1 (ttl_passthrough
                  sdk consts Game world 42 ADDR_A ADDR_B 10 15 signingWallet
                  (Some 30) []
                  {| built := "start_game";
                     simulationData :=
                       Some {| result :=
                                 Some {| auth :=
                                           Some [sourceEntry 42 15;
                                                 placeholder ADDR_A 42 10] |} |} |}
                  [sourceEntry 42 15; placeholder ADDR_A 42 10]
                  (placeholder ADDR_A 42 10)
                  ltac:(vm_compute; reflexivity)
                  eq_refl
                  ltac:(vm_compute; reflexivity))).
Defined.

(** C7 as stated fails: a call that supplies a duration of 0 minutes has the
    TTL calculator called with the default of 60, never with 0. *)
Lemma ttl_zero_uses_default :
  ~ (forall minutes : Z,
        In (Call_calculateValidUntilLedger (RPC_URL consts) minutes)
           (snd (prepareStartGame sdk consts world 42 ADDR_A ADDR_B 10 15
                                  signingWallet (Some minutes) []))).
Proof.
  intros H. specialize (H 0). vm_compute in H.
  destruct H as [H|[H|[H|[]]]]; discriminate.
Qed.

Lemma rebuild_from_decoded_arguments_witness :
  exists more,
    snd (importAndSignAuthEntry sdk consts world S1 ADDR_B 15 signingWallet [])
    = ([] ++ Call_start_game
               {| contractId := TWENTY_ONE_CONTRACT consts;
                  networkPassphrase := NETWORK_PASSPHRASE consts;
                  rpcUrl := RPC_URL consts;
                  publicKey := Some ADDR_B |}
               {| session_id := 42;
                  player1 := ADDR_A;
                  player2 := ADDR_B;
                  player1_points := 10;
                  player2_points := 15 |}
               (DEFAULT_METHOD_OPTIONS consts)
          :: more)%list.
Proof.
  apply (proj1 (proj2 (rebuild_from_decoded_arguments sdk consts Game world))
               S1 ADDR_B 15 signingWallet []
               {| GameParams.sessionId := 42;
                  GameParams.player1 := ADDR_A;
                  GameParams.player1Points := 10 |}).
  vm_compute. reflexivity.
Defined.


End Examples.

Section RoundTrip.

Variable sdk : Sdk.

Local Open Scope Z_scope.

(** X1 (round trip within 64 bits).  For a codec that inverts itself, parsing
    the encoding of a signed [start_game] entry gives back the session id,
    the signer's address and the points, provided the points are at least 0
    and below 2^64. *)
Theorem round_trip_low_word
        (law : CodecLaw sdk) (c : SorobanAddressCredentials)
        (contract : ScAddress) (sid points : Z)
        (subs : list SorobanAuthorizedInvocation) (p1 : string) :
  Wf.entry (startGameEntry c contract sid points subs) = true ->
  Address_toString sdk (address c) = Normal p1 ->
  0 <= points < 2 ^ 64 ->
  parseAuthEntry sdk
                 (entry_toXDR sdk (startGameEntry c contract sid points subs))
  = Normal {| GameParams.sessionId := sid;
              GameParams.player1 := p1;
              GameParams.player1Points := points |}.
Proof.
  intros Hwf Ha Hpoints.
  rewrite (parseAuthEntry_encoded
             sdk law (startGameEntry c contract sid points subs) c p1
             {| contractAddress := contract;
                functionName := "start_game";
                args := [ScvU32 sid; ScvI128 (i128_parts points)] |}
             sid (i128_parts points) Hwf eq_refl Ha eq_refl eq_refl eq_refl).
  unfold i128_parts. cbn [lo]. now rewrite Z.mod_small.
Qed.


End RoundTrip.

Lemma round_trip_low_word_witness :
  parseAuthEntry
    Fake.sdk
    (entry_toXDR
       Fake.sdk
       (startGameEntry
          {| address := ScAddressTypeAccount Fake.keyA;
             nonce := 7;
             signatureExpirationLedger := 1720;
             signature := ScvVoid |}
          Fake.contract 42 10 []))
  = Normal {| GameParams.sessionId := 42%Z;
              GameParams.player1 := Fake.ADDR_A;
              GameParams.player1Points := 10%Z |}.
Proof.
  apply (round_trip_low_word Fake.sdk fake_codec_law).
  - vm_compute. reflexivity.
  - vm_compute. reflexivity.
  - lia.
Defined.

(* ================================================================== *)
(** * Properties of the playing methods *)

Section PlayingFacts.

Variable consts : Constants.
Variable R : Type.
Variable table : Table.t R.

Local Open Scope list_scope.

Notation "'ttlStep'" := (ttlStepOf consts).
Notation "'timeout'" := (timeoutInSeconds (DEFAULT_METHOD_OPTIONS consts)).

(** The shared tail, run. *)
Lemma submitTail_run (tx : AssembledTransaction) (t : list Step) :
  submitTail consts table tx t
  = match Table.calculateValidUntilLedger
            table t (RPC_URL consts) (DEFAULT_AUTH_TTL_MINUTES consts) with
    | Throw e => (Throw e, t ++ [ttlStep])
    | Normal validUntil =>
        let sendStep := Step_signAndSendViaLaunchtube tx timeout validUntil in
        match Table.signAndSendViaLaunchtube
                table (t ++ [ttlStep]) tx timeout validUntil with
        | Throw e => (Throw e, (t ++ [ttlStep]) ++ [sendStep])
        | Normal sentTx =>
            (sent_result sentTx, (t ++ [ttlStep]) ++ [sendStep])
        end
    end.
Proof.
  unfold submitTail, Play.bind, Play.await, Play.lift.
  destruct (Table.calculateValidUntilLedger table t _ _) as [v|e];
    [|reflexivity].
  cbv zeta. destruct (Table.signAndSendViaLaunchtube table _ tx _ v);
    reflexivity.
Qed.

(** Each method is its first call followed by the shared tail. *)
Lemma hit_tail (sessionId : Z) (player : string) (signer : Signer) :
  hit consts table sessionId player signer
  = Play.bind
      (Play.await
         (Step_hit (createSigningClient consts player signer) sessionId
                   player (DEFAULT_METHOD_OPTIONS consts))
         (fun t => Table.hit table t (createSigningClient consts player signer)
                             sessionId player (DEFAULT_METHOD_OPTIONS consts)))
      (submitTail consts table).
Proof. reflexivity. Qed.

Lemma stick_tail (sessionId : Z) (player : string) (signer : Signer) :
  stick consts table sessionId player signer
  = Play.bind
      (Play.await
         (Step_stick (createSigningClient consts player signer) sessionId
                     player (DEFAULT_METHOD_OPTIONS consts))
         (fun t => Table.stick table t
                               (createSigningClient consts player signer)
                               sessionId player
                               (DEFAULT_METHOD_OPTIONS consts)))
      (submitTail consts table).
Proof. reflexivity. Qed.

Lemma revealWinner_tail (sessionId : Z) (player : string) (signer : Signer) :
  revealWinner consts table sessionId player signer
  = Play.bind
      (Play.await
         (Step_reveal_winner (createSigningClient consts player signer)
                             sessionId (DEFAULT_METHOD_OPTIONS consts))
         (fun t => Table.reveal_winner
                     table t (createSigningClient consts player signer)
                     sessionId (DEFAULT_METHOD_OPTIONS consts)))
      (submitTail consts table).
Proof. reflexivity. Qed.

Lemma finalizeStartGame_tail (xdr player2 : string) (signer : Signer) :
  finalizeStartGame consts table xdr player2 signer
  = Play.bind
      (Play.lift (Table.txFromXDR
                    table (createSigningClient consts player2 signer) xdr))
      (fun tx =>
         Play.bind
           (Play.await (Step_simulate tx)
                       (fun t => Table.simulate table t tx))
           (submitTail consts table)).
Proof. reflexivity. Qed.

Lemma guarded_nil (t : list Step) : Guarded consts table t [].
Proof. intros tx to v []. Qed.

Lemma guarded_single (t : list Step) (s : Step) :
  isSubmission s = false -> Guarded consts table t [s].
Proof.
  intros Hs tx to v [H|[]]. subst s. discriminate.
Qed.

Lemma submitTail_guarded (first : list Step) (tx : AssembledTransaction)
      (t : list Step) :
  (forall s, In s first -> isSubmission s = false) ->
  exists more,
    snd (submitTail consts table tx (t ++ first)) = t ++ more
    /\ Guarded consts table t more.
Proof.
  intros Hfirst. rewrite submitTail_run.
  destruct (Table.calculateValidUntilLedger table (t ++ first) _ _)
    as [v|e] eqn:Hv.
  - cbv zeta.
    exists (first ++ [ttlStep; Step_signAndSendViaLaunchtube tx timeout v]).
    split.
    + destruct (Table.signAndSendViaLaunchtube table _ tx _ v); simpl;
        now rewrite <- !app_assoc.
    + intros tx' to' v' Hin. apply in_app_or in Hin.
      destruct Hin as [Hin|[Hin|[Hin|[]]]].
      * apply Hfirst in Hin. discriminate.
      * discriminate.
      * injection Hin as <- <- <-. exists first. repeat split; assumption.
  - exists (first ++ [ttlStep]). split.
    + simpl. now rewrite <- app_assoc.
    + intros tx' to' v' Hin. apply in_app_or in Hin.
      destruct Hin as [Hin|[Hin|[]]].
      * apply Hfirst in Hin. discriminate.
      * discriminate.
Qed.

(** X4 (submissions are guarded).  Whatever the collaborators answer, a
    playing method ([finalizeStartGame], [hit], [stick], [revealWinner])
    only adds calls to the trace, and submits at most once, as its last
    call: the submission comes right after a TTL request for
    [DEFAULT_AUTH_TTL_MINUTES], carries the ledger that request was
    answered with, and carries the timeout of [DEFAULT_METHOD_OPTIONS]. *)
Theorem submissions_are_guarded (op : Operation) (t : list Step) :
  exists more,
    snd (run consts table op t) = t ++ more
    /\ forall tx seconds validUntil,
        In (Step_signAndSendViaLaunchtube tx seconds validUntil) more ->
        exists before,
          more
          = before
            ++ [Step_calculateValidUntilLedger
                  (RPC_URL consts) (DEFAULT_AUTH_TTL_MINUTES consts);
                Step_signAndSendViaLaunchtube tx seconds validUntil]
          /\ (forall s, In s before -> isSubmission s = false)
          /\ seconds = timeoutInSeconds (DEFAULT_METHOD_OPTIONS consts)
          /\ Table.calculateValidUntilLedger
               table (t ++ before) (RPC_URL consts)
               (DEFAULT_AUTH_TTL_MINUTES consts)
             = Normal validUntil.
Proof.
  assert (Hawait :
            forall (s : Step) (answer : list Step
                                        -> Completion AssembledTransaction),
              isSubmission s = false ->
              exists more,
                snd (Play.bind (Play.await s answer)
                               (submitTail consts table) t)
                = t ++ more
                /\ Guarded consts table t more).
  { intros s answer Hs. unfold Play.bind, Play.await.
    destruct (answer t) as [tx|e].
    - apply submitTail_guarded. intros s' [<-|[]]. exact Hs.
    - exists [s]. split; [reflexivity | now apply guarded_single]. }
  destruct op as [xdr player2 signer|sid player signer|sid player signer
                  |sid player signer]; cbn [run].
  - rewrite finalizeStartGame_tail. unfold Play.bind at 1, Play.lift.
    destruct (Table.txFromXDR table _ xdr) as [tx|e].
    + now apply Hawait.
    + exists []. split; [simpl; now rewrite app_nil_r | apply guarded_nil].
  - rewrite hit_tail. now apply Hawait.
  - rewrite stick_tail. now apply Hawait.
  - rewrite revealWinner_tail. now apply Hawait.
Qed.

Lemma submitTail_result (tx : AssembledTransaction) (t : list Step) (r : R) :
  fst (submitTail consts table tx t) = Normal r ->
  exists validUntil sentTx,
    snd (submitTail consts table tx t)
    = t ++ [ttlStep; Step_signAndSendViaLaunchtube tx timeout validUntil]
    /\ Table.signAndSendViaLaunchtube table (t ++ [ttlStep]) tx timeout
                                      validUntil
       = Normal sentTx
    /\ sent_result sentTx = Normal r.
Proof.
  rewrite submitTail_run.
  destruct (Table.calculateValidUntilLedger table t _ _) as [v|e];
    [|discriminate].
  cbv zeta.
  destruct (Table.signAndSendViaLaunchtube table _ tx _ v) as [sentTx|e] eqn:E;
    [|discriminate].
  simpl. intros Hr. exists v, sentTx.
  rewrite <- app_assoc. repeat split; [exact E | exact Hr].
Qed.

(** X5 (a result comes from a submission).  A playing method returns a
    value only after it has submitted: the trace then ends with the TTL
    request and the submission, the submission succeeded, and the value is
    the [result] of the transaction that was sent.  No value is made up
    when a call fails. *)
Theorem result_comes_from_submission
        (op : Operation) (t : list Step) (r : R) :
  fst (run consts table op t) = Normal r ->
  exists before tx validUntil sentTx,
    snd (run consts table op t)
    = t ++ before
        ++ [Step_calculateValidUntilLedger
              (RPC_URL consts) (DEFAULT_AUTH_TTL_MINUTES consts);
            Step_signAndSendViaLaunchtube
              tx (timeoutInSeconds (DEFAULT_METHOD_OPTIONS consts))
              validUntil]
    /\ Table.signAndSendViaLaunchtube
         table
         (t ++ before
            ++ [Step_calculateValidUntilLedger
                  (RPC_URL consts) (DEFAULT_AUTH_TTL_MINUTES consts)])
         tx (timeoutInSeconds (DEFAULT_METHOD_OPTIONS consts)) validUntil
       = Normal sentTx
    /\ sent_result sentTx = Normal r.
Proof.
  assert (Hawait :
            forall (s : Step) (answer : list Step
                                        -> Completion AssembledTransaction),
              fst (Play.bind (Play.await s answer)
                             (submitTail consts table) t) = Normal r ->
              exists before tx validUntil sentTx,
                snd (Play.bind (Play.await s answer)
                               (submitTail consts table) t)
                = t ++ before
                    ++ [ttlStep;
                        Step_signAndSendViaLaunchtube tx timeout validUntil]
                /\ Table.signAndSendViaLaunchtube
                     table (t ++ before ++ [ttlStep]) tx timeout validUntil
                   = Normal sentTx
                /\ sent_result sentTx = Normal r).
  { intros s answer. unfold Play.bind, Play.await.
    destruct (answer t) as [tx|e]; [|discriminate].
    intros Hr. destruct (submitTail_result tx (t ++ [s]) r Hr)
      as (v & sentTx & Htrace & Hsend & Hres).
    exists [s], tx, v, sentTx. rewrite Htrace.
    rewrite <- !app_assoc in *. repeat split; assumption. }
  destruct op as [xdr player2 signer|sid player signer|sid player signer
                  |sid player signer]; cbn [run].
  - rewrite finalizeStartGame_tail. unfold Play.bind at 1 3, Play.lift.
    destruct (Table.txFromXDR table _ xdr) as [tx|e]; [|discriminate].
    apply Hawait.
  - rewrite hit_tail. apply Hawait.
  - rewrite stick_tail. apply Hawait.
  - rewrite revealWinner_tail. apply Hawait.
Qed.

(** X6 ([finalizeStartGame] simulates before it submits).  An XDR string
    the client cannot read fails the method before anything is awaited.
    Otherwise the first call simulates the imported transaction; when that
    fails nothing else is called; when it succeeds the trace continues with
    the TTL request, and a submission, if one follows, carries the
    transaction as simulated. *)
Theorem finalize_simulates_first
        (xdr player2 : string) (signer : Signer) (t : list Step) :
  let client := createSigningClient consts player2 signer in
  let out := finalizeStartGame consts table xdr player2 signer t in
  match Table.txFromXDR table client xdr with
  | Throw e => out = (Throw e, t)
  | Normal tx =>
      match Table.simulate table t tx with
      | Throw e => out = (Throw e, t ++ [Step_simulate tx])
      | Normal simulated =>
          exists rest,
            snd out
            = t ++ Step_simulate tx
                :: Step_calculateValidUntilLedger
                     (RPC_URL consts) (DEFAULT_AUTH_TTL_MINUTES consts)
                :: rest
            /\ forall tx' seconds validUntil,
                In (Step_signAndSendViaLaunchtube tx' seconds validUntil)
                   rest ->
                tx' = simulated
      end
  end.
Proof.
  cbv zeta. rewrite finalizeStartGame_tail.
  unfold Play.bind at 1, Play.lift.
  destruct (Table.txFromXDR table _ xdr) as [tx|e]; [|reflexivity].
  unfold Play.bind, Play.await.
  destruct (Table.simulate table t tx) as [simulated|e]; [|reflexivity].
  rewrite submitTail_run.
  destruct (Table.calculateValidUntilLedger table _ _ _) as [v|e].
  - cbv zeta.
    exists [Step_signAndSendViaLaunchtube simulated timeout v]. split.
    + destruct (Table.signAndSendViaLaunchtube table _ simulated _ v);
        simpl; now rewrite <- !app_assoc.
    + intros tx' to' v' [H|[]]. now injection H.
  - exists []. split; [simpl; now rewrite <- app_assoc | intros ? ? ? []].
Qed.

End PlayingFacts.

(* ================================================================== *)
(** * More about the handshake *)

Section HandshakeCalls.

Variable sdk : Sdk.
Variable consts : Constants.
Variable Game : Type.
Variable world : World Game.

Local Open Scope list_scope.

(** X7 (the calls of [prepareStartGame]).  [prepareStartGame] makes at
    most three awaited calls, in this order: the build, one TTL request,
    one wallet request.  The wallet is asked only for player 1's address
    and the configured network passphrase, and an artifact is returned only
    when all three calls were made. *)
Theorem prepareStartGame_calls
        (sid : Z) (p1 p2 : string) (pts1 pts2 : Z) (signer : Signer)
        (ttl : option Z) (t : Trace) :
  let out :=
    prepareStartGame sdk consts world sid p1 p2 pts1 pts2 signer ttl t in
  let build := buildCall consts sid p1 p2 pts1 pts2 in
  let ttlCall :=
    Call_calculateValidUntilLedger (RPC_URL consts)
                                   (ttlMinutesUsed consts ttl) in
  (snd out = t ++ [build] /\ exists err, fst out = Throw err)
  \/ (snd out = t ++ [build; ttlCall] /\ exists err, fst out = Throw err)
  \/ exists preimage,
      snd out
      = t ++ [build; ttlCall;
              Call_signAuthEntry
                preimage
                {| sign_networkPassphrase := NETWORK_PASSPHRASE consts;
                   sign_address := p1 |}].
Proof.
  cbv zeta.
  destruct (start_game world t (clientFor consts p2)
                       (startGameArgs sid p1 p2 pts1 pts2)
                       (DEFAULT_METHOD_OPTIONS consts)) as [tx|err] eqn:Hb.
  2:{ left. rewrite (prepareStartGame_build_fails _ _ _ _ _ _ _ _ _ _ _ _ _ Hb).
      split; [reflexivity | now exists err]. }
  destruct (simulatedAuth tx) as [entries|] eqn:Hauth.
  2:{ left. rewrite (prepareStartGame_not_found _ _ _ _ _ _ _ _ _ _ _ _ _ Hb);
        rewrite Hauth; [split; [reflexivity | eexists; reflexivity] | exact I]. }
  destruct (findAuthEntry sdk entries p1) as [entry|] eqn:Hfind.
  2:{ left. rewrite (prepareStartGame_not_found _ _ _ _ _ _ _ _ _ _ _ _ _ Hb);
        rewrite Hauth;
        [split; [reflexivity | eexists; reflexivity] | exact Hfind]. }
  destruct (findAuthEntry_some _ _ _ _ Hfind)
    as (_ & _ & _ & _ & c & Hc & Ha).
  rewrite (prepareStartGame_found _ _ _ _ _ _ _ _ _ _ _ _ _ _ _ _
                                  Hb Hauth Hfind Hc Ha).
  cbv zeta. unfold buildCall, signCall, signOptions.
  destruct (calculateValidUntilLedger world _ _ _) as [v|err].
  2:{ right. left. rewrite <- app_assoc.
      split; [reflexivity | now exists err]. }
  destruct (signAuthEntry signer) as [sign|].
  2:{ right. left. rewrite <- app_assoc.
      split; [reflexivity | eexists; reflexivity]. }
  destruct (preimage_toXDR sdk _) as [request|err].
  2:{ right. left. rewrite <- app_assoc.
      split; [reflexivity | now exists err]. }
  right. right. exists request.
  destruct (sign _ _ _) as [r|err];
    [destruct (error r);
     [|destruct (Keypair_verify sdk p1 _ _) as [[|]|err]]|];
    simpl; rewrite <- !app_assoc; reflexivity.
Qed.

(** X8 (no wallet capability).  With a signer that has no [signAuthEntry],
    [prepareStartGame] never returns an artifact; but it notices only after
    the build, the scan and the TTL request: when those succeed it fails
    with the capability error, having made both calls. *)
Theorem prepareStartGame_without_wallet
        (sid : Z) (p1 p2 : string) (pts1 pts2 : Z) (signer : Signer)
        (ttl : option Z) (t : Trace) :
  signAuthEntry signer = None ->
  (exists err,
      fst (prepareStartGame sdk consts world sid p1 p2 pts1 pts2 signer ttl t)
      = Throw err)
  /\ forall tx entries entry validUntil,
      start_game world t (clientFor consts p2)
                 (startGameArgs sid p1 p2 pts1 pts2)
                 (DEFAULT_METHOD_OPTIONS consts) = Normal tx ->
      simulatedAuth tx = Some entries ->
      findAuthEntry sdk entries p1 = Some entry ->
      calculateValidUntilLedger
        world (t ++ [buildCall consts sid p1 p2 pts1 pts2]) (RPC_URL consts)
        (ttlMinutesUsed consts ttl)
      = Normal validUntil ->
      prepareStartGame sdk consts world sid p1 p2 pts1 pts2 signer ttl t
      = (Throw (Error "signAuthEntry function not available"),
         t ++ [buildCall consts sid p1 p2 pts1 pts2;
               Call_calculateValidUntilLedger (RPC_URL consts)
                                              (ttlMinutesUsed consts ttl)]).
Proof.
  intros Hnone. split.
  - destruct (start_game world t (clientFor consts p2)
                         (startGameArgs sid p1 p2 pts1 pts2)
                         (DEFAULT_METHOD_OPTIONS consts)) as [tx|err] eqn:Hb.
    2:{ rewrite (prepareStartGame_build_fails _ _ _ _ _ _ _ _ _ _ _ _ _ Hb).
        now exists err. }
    destruct (simulatedAuth tx) as [entries|] eqn:Hauth.
    2:{ rewrite (prepareStartGame_not_found _ _ _ _ _ _ _ _ _ _ _ _ _ Hb);
          rewrite Hauth; [eexists; reflexivity | exact I]. }
    destruct (findAuthEntry sdk entries p1) as [entry|] eqn:Hfind.
    2:{ rewrite (prepareStartGame_not_found _ _ _ _ _ _ _ _ _ _ _ _ _ Hb);
          rewrite Hauth; [eexists; reflexivity | exact Hfind]. }
    destruct (findAuthEntry_some _ _ _ _ Hfind)
      as (_ & _ & _ & _ & c & Hc & Ha).
    rewrite (prepareStartGame_found _ _ _ _ _ _ _ _ _ _ _ _ _ _ _ _
                                    Hb Hauth Hfind Hc Ha).
    cbv zeta. rewrite Hnone.
    destruct (calculateValidUntilLedger world _ _ _) as [v|err];
      eexists; reflexivity.
  - intros tx entries entry validUntil Hb Hauth Hfind Httl.
    destruct (findAuthEntry_some _ _ _ _ Hfind)
      as (_ & _ & _ & _ & c & Hc & Ha).
    rewrite (prepareStartGame_found _ _ _ _ _ _ _ _ _ _ _ _ _ _ _ _
                                    Hb Hauth Hfind Hc Ha).
    cbv zeta. rewrite Httl, Hnone, <- app_assoc. reflexivity.
Qed.

(** X9 (the calls of the read-only queries).  [getGame] and
    [getHandValue] make one or two awaited calls: the build with the base
    client, which names no source account, and, when the build succeeds,
    the simulation.  They never ask for a TTL, a signature or a
    submission. *)
Theorem read_queries_calls :
  publicKey (baseClient consts) = None
  /\ (forall sid t,
         snd (getGame consts world sid t)
         = t ++ Call_get_game (baseClient consts) sid
             :: match get_game world t (baseClient consts) sid with
                | Normal _ => [Call_simulate]
                | Throw _ => []
                end)
  /\ (forall sid player t,
         snd (getHandValue consts world sid player t)
         = t ++ Call_get_hand_value (baseClient consts) sid player
             :: match get_hand_value world t (baseClient consts) sid player
                with
                | Normal _ => [Call_simulate]
                | Throw _ => []
                end).
Proof.
  split; [reflexivity|]. split.
  - intros sid t.
    unfold getGame, Async.try_catch, Async.bind, Async.await, Async.lift,
      Async.ret.
    destruct (get_game world t (baseClient consts) sid) as [tx|e];
      [|reflexivity].
    destruct (simulate tx _) as [simulated|e];
      [destruct (tx_result simulated) as [[game|cause]|e]|];
      simpl; now rewrite <- app_assoc.
  - intros sid player t.
    unfold getHandValue, Async.try_catch, Async.bind, Async.await, Async.lift,
      Async.ret.
    destruct (get_hand_value world t (baseClient consts) sid player)
      as [tx|e]; [|reflexivity].
    destruct (simulate tx _) as [simulated|e];
      [destruct (tx_result simulated) as [[value|cause]|e]|];
      simpl; now rewrite <- app_assoc.
Qed.

End HandshakeCalls.

Section ParseFacts.

Variable sdk : Sdk.

(** X10 (what [parseAuthEntry] reads).  The outcome of [parseAuthEntry]
    depends on three things only: the text of the credentials' address, the
    function name and the argument list.  Two artifacts that decode to
    address entries agreeing on these parse alike, whatever their nonces,
    expiration ledgers, signatures, contract addresses and
    sub-invocations: none of those is checked. *)
Theorem parse_reads_three_things
        (xdr1 xdr2 : string) (e1 e2 : SorobanAuthorizationEntry)
        (c1 c2 : SorobanAddressCredentials) (fn1 fn2 : InvokeContractArgs) :
  entry_fromXDR sdk xdr1 = Normal e1 ->
  entry_fromXDR sdk xdr2 = Normal e2 ->
  credentials e1 = SorobanCredentialsAddress c1 ->
  credentials e2 = SorobanCredentialsAddress c2 ->
  Address_toString sdk (address c1) = Address_toString sdk (address c2) ->
  function (rootInvocation e1) = ContractFn fn1 ->
  function (rootInvocation e2) = ContractFn fn2 ->
  functionName fn1 = functionName fn2 ->
  args fn1 = args fn2 ->
  parseAuthEntry sdk xdr1 = parseAuthEntry sdk xdr2.
Proof.
  intros Hx1 Hx2 Hc1 Hc2 Ha Hf1 Hf2 Hn Hargs.
  destruct (Address_toString sdk (address c1)) as [p1|err] eqn:Ha1.
  - rewrite (parseAuthEntry_address_contractFn sdk xdr1 e1 c1 p1 fn1
                                               Hx1 Hc1 Ha1 Hf1).
    rewrite (parseAuthEntry_address_contractFn sdk xdr2 e2 c2 p1 fn2
                                               Hx2 Hc2 (eq_sym Ha) Hf2).
    now rewrite Hn, Hargs.
  - unfold parseAuthEntry. rewrite Hx1, Hx2. simpl.
    rewrite Hc1, Hc2. simpl. now rewrite Ha1, <- Ha.
Qed.

(** X11 (failures of [parseAuthEntry] are wrapped).  [parseAuthEntry]
    never lets an exception of the SDK through as it is: whatever it throws
    is an [Error] whose message starts with the parse prefix.  An artifact
    that cannot be decoded, and an address that has no text form, give the
    prefix followed by the message of the SDK's error, or by
    'unknown error' when what the SDK threw is not an [Error]. *)
Theorem parse_failures_are_wrapped (xdr : string) :
  (forall err,
      parseAuthEntry sdk xdr = Throw err ->
      exists msg, err = Error ("Failed to parse auth entry: " ++ msg))
  /\ (forall err,
         entry_fromXDR sdk xdr = Throw err ->
         parseAuthEntry sdk xdr
         = Throw (Error ("Failed to parse auth entry: "
                         ++ message_or err "unknown error")))
  /\ (forall e c err,
         entry_fromXDR sdk xdr = Normal e ->
         credentials e = SorobanCredentialsAddress c ->
         Address_toString sdk (address c) = Throw err ->
         parseAuthEntry sdk xdr
         = Throw (Error ("Failed to parse auth entry: "
                         ++ message_or err "unknown error"))).
Proof.
  split; [apply parseAuthEntry_throws|]. split.
  - intros err Hx. unfold parseAuthEntry. now rewrite Hx.
  - intros e c err Hx Hc Ha. unfold parseAuthEntry. rewrite Hx. simpl.
    rewrite Hc. simpl. now rewrite Ha.
Qed.

(** X12 (the scan over a concatenation).  Scanning two lists one after the
    other is scanning the first and, only when it holds no entry of the
    target, the second; so adding entries at the end never changes an entry
    that was found. *)
Theorem findAuthEntry_app
        (target : string) (l1 l2 : list SorobanAuthorizationEntry) :
  findAuthEntry sdk (l1 ++ l2) target
  = match findAuthEntry sdk l1 target with
    | Some entry => Some entry
    | None => findAuthEntry sdk l2 target
    end.
Proof.
  induction l1 as [|x l1 IH]; [reflexivity|].
  simpl. destruct (isEntryOf sdk target x) as [[|]|e];
    [reflexivity | exact IH | exact IH].
Qed.

End ParseFacts.

(* ================================================================== *)
(** * Properties of the publish script's names *)

Section PublishNames.

Import Publish.

Lemma upperChar_not_lower (c : ascii) :
  nat_of_ascii c < 128 -> isLower (upperChar c) = false.
Proof.
  intros Hc. unfold upperChar. destruct (isLower c) eqn:Hl; [|exact Hl].
  unfold isLower in *. apply andb_prop in Hl as [H1 H2].
  apply Nat.leb_le in H1, H2.
  rewrite nat_ascii_embedding by lia.
  apply andb_false_iff. left. apply Nat.leb_gt. lia.
Qed.

Lemma upperChar_fixed (c : ascii) : isLower c = false -> upperChar c = c.
Proof. intros H. unfold upperChar. now rewrite H. Qed.

Lemma upperChar_idempotent (c : ascii) :
  upperChar (upperChar c) = upperChar c.
Proof.
  destruct (isLower c) eqn:Hl.
  - apply upperChar_fixed. unfold upperChar. rewrite Hl.
    unfold isLower in *. apply andb_prop in Hl as [H1 H2].
    apply Nat.leb_le in H1, H2.
    rewrite nat_ascii_embedding by lia.
    apply andb_false_iff. left. apply Nat.leb_gt. lia.
  - rewrite (upperChar_fixed c Hl). exact (upperChar_fixed c Hl).
Qed.

Lemma upperChar_dash (c : ascii) :
  Ascii.eqb (upperChar c) "-" = Ascii.eqb c "-".
Proof.
  unfold upperChar. destruct (isLower c) eqn:Hl; [|reflexivity].
  unfold isLower in Hl. apply andb_prop in Hl as [H1 H2].
  apply Nat.leb_le in H1, H2.
  destruct (Ascii.eqb c "-") eqn:Hc.
  - apply Ascii.eqb_eq in Hc. subst c.
    change (nat_of_ascii "-") with 45 in H1. lia.
  - apply Ascii.eqb_neq. intros H.
    apply (f_equal nat_of_ascii) in H.
    rewrite nat_ascii_embedding in H by lia.
    change (nat_of_ascii "-") with 45 in H. lia.
Qed.

(** One character of an environment key. *)
Lemma keyChar_facts (c : ascii) :
  let key c := upperChar (if Ascii.eqb c "-" then "_"%char else c) in
  Ascii.eqb (key c) "-" = false
  /\ (nat_of_ascii c < 128 -> isLower (key c) = false)
  /\ key (key c) = key c
  /\ key (upperChar c) = key c
  /\ key (if Ascii.eqb c "-" then "_"%char else c) = key c.
Proof.
  cbv zeta. destruct (Ascii.eqb c "-") eqn:E.
  - apply Ascii.eqb_eq in E. subst c. repeat split.
  - rewrite !upperChar_dash, !E, upperChar_idempotent.
    repeat split. apply upperChar_not_lower.
Qed.

(** X13 (the shape of an environment key).  For a slug of 7-bit
    characters, [toEnvKey] keeps the length, leaves no dash and no
    lower-case letter, and changes nothing when applied again.  It does not
    tell a dash from an underscore, nor upper from lower case: a slug, its
    upper-case form and its form with underscores for dashes all get the
    same key. *)
Theorem toEnvKey_shape (slug : string) :
  Ascii7 slug ->
  String.length (toEnvKey slug) = String.length slug
  /\ Forall (fun c => Ascii.eqb c "-" = false /\ isLower c = false)
            (list_ascii_of_string (toEnvKey slug))
  /\ toEnvKey (toEnvKey slug) = toEnvKey slug
  /\ toEnvKey (toUpperCase slug) = toEnvKey slug
  /\ toEnvKey (dashesToUnderscores slug) = toEnvKey slug.
Proof.
  unfold Ascii7, toEnvKey. induction slug as [|c slug IH]; intros H7.
  - repeat split; constructor.
  - inversion H7 as [|? ? Hc Hrest]; subst.
    destruct (IH Hrest) as (Hlen & Hall & Hidem & Hup & Hdash).
    destruct (keyChar_facts c) as (K1 & K2 & K3 & K4 & K5).
    cbn [dashesToUnderscores toUpperCase String.length list_ascii_of_string].
    repeat split.
    + now rewrite Hlen.
    + constructor; [|exact Hall]. split; [exact K1 | exact (K2 Hc)].
    + now rewrite Hidem, K3.
    + now rewrite Hup, K4.
    + now rewrite Hdash, K5.
Qed.

Lemma split_not_nil (separator : ascii -> bool) (s : string) :
  split separator s <> [].
Proof.
  destruct s as [|c s]; simpl; [discriminate|].
  destruct (separator c); [discriminate|].
  destruct (split separator s); discriminate.
Qed.

Lemma split_app (separator : ascii -> bool) (a b : string) (c : ascii) :
  separator c = true ->
  split separator (a ++ String c b)
  = (split separator a ++ split separator b)%list.
Proof.
  intros Hc. induction a as [|d a IH]; simpl.
  - now rewrite Hc.
  - destruct (separator d); [now rewrite IH|].
    rewrite IH. pose proof (split_not_nil separator a) as Hn.
    destruct (split separator a); [contradiction | reflexivity].
Qed.

(** The words of a slug: the non-empty pieces between separators. *)
Lemma words_app (a b : string) (c : ascii) :
  isSeparator c = true ->
  filter nonEmpty (split isSeparator (a ++ String c b))
  = (filter nonEmpty (split isSeparator a)
     ++ filter nonEmpty (split isSeparator b))%list.
Proof.
  intros Hc. now rewrite split_app, filter_app.
Qed.

Lemma append_assoc (a b c : string) : (a ++ b) ++ c = a ++ (b ++ c).
Proof. induction a as [|x a IH]; simpl; [reflexivity | now rewrite IH]. Qed.

Lemma concat_app_space (l1 l2 : list string) :
  String.concat " " (l1 ++ l2)
  = match l1, l2 with
    | [], _ => String.concat " " l2
    | _, [] => String.concat " " l1
    | _, _ => String.concat " " l1 ++ " " ++ String.concat " " l2
    end.
Proof.
  induction l1 as [|x l1 IH]; [reflexivity|].
  destruct l2 as [|y l2]; [now rewrite app_nil_r|].
  destruct l1 as [|x' l1].
  - reflexivity.
  - change (String.concat " " ((x :: x' :: l1) ++ y :: l2))
      with (x ++ " " ++ String.concat " " ((x' :: l1) ++ y :: l2)).
    rewrite IH.
    change (String.concat " " (x :: x' :: l1))
      with (x ++ " " ++ String.concat " " (x' :: l1)).
    now rewrite !append_assoc.
Qed.

Lemma capitalize_nonEmpty (w : string) : nonEmpty (capitalize w) = nonEmpty w.
Proof. now destruct w. Qed.

Lemma concat_nonEmpty (ws : list string) :
  Forall (fun w => nonEmpty w = true) ws ->
  String.concat " " ws = "" -> ws = [].
Proof.
  intros Hall H. destruct ws as [|w ws]; [reflexivity|].
  inversion Hall as [|? ? Hw _]; subst.
  destruct w as [|c w]; [discriminate|].
  destruct ws; discriminate.
Qed.

Lemma words_nonEmpty (slug : string) :
  Forall (fun w => nonEmpty w = true)
         (List.map capitalize
                   (filter nonEmpty (split isSeparator slug))).
Proof.
  apply Forall_forall. intros w Hw. apply in_map_iff in Hw as (v & <- & Hv).
  apply filter_In in Hv as [_ Hv]. now rewrite capitalize_nonEmpty.
Qed.

(** X14 (the title of joined slugs).  Joining two slugs with a dash or an
    underscore joins their titles with one space; a side that has no word
    (empty, or separators only) contributes nothing, not even the space.
    So leading, trailing and repeated separators leave no trace. *)
Theorem title_of_joined_slugs (a b : string) (c : ascii) :
  isSeparator c = true ->
  titleCaseFromSlug (a ++ String c b)
  = match titleCaseFromSlug a, titleCaseFromSlug b with
    | "", title => title
    | title, "" => title
    | titleA, titleB => titleA ++ " " ++ titleB
    end.
Proof.
  intros Hc. unfold titleCaseFromSlug.
  rewrite (words_app a b c Hc), map_app, concat_app_space.
  pose proof (words_nonEmpty a) as Ha. pose proof (words_nonEmpty b) as Hb.
  destruct (List.map capitalize (filter nonEmpty (split isSeparator a)))
    as [|wa wsa] eqn:Ea.
  - reflexivity.
  - destruct (List.map capitalize (filter nonEmpty (split isSeparator b)))
      as [|wb wsb] eqn:Eb.
    + simpl (String.concat " " []).
      destruct (String.concat " " (wa :: wsa)) eqn:E; [|reflexivity].
      apply concat_nonEmpty in E; [discriminate | exact Ha].
    + destruct (String.concat " " (wa :: wsa)) eqn:E1.
      { apply concat_nonEmpty in E1; [discriminate | exact Ha]. }
      destruct (String.concat " " (wb :: wsb)) eqn:E2.
      { apply concat_nonEmpty in E2; [discriminate | exact Hb]. }
      reflexivity.
Qed.

Notation "'chars'" := list_ascii_of_string.

Lemma chars_append (a b : string) : chars (a ++ b) = (chars a ++ chars b)%list.
Proof. induction a as [|c a IH]; simpl; [reflexivity | now rewrite IH]. Qed.

Lemma chars_concat (glue : string) (ws : list string) (c : ascii) :
  In c (chars (String.concat glue ws)) ->
  In c (chars glue) \/ exists w, In w ws /\ In c (chars w).
Proof.
  induction ws as [|w ws IH]; simpl; [intros []|].
  destruct ws as [|w' ws].
  - intros H. right. exists w. split; [now left | exact H].
  - rewrite !chars_append. intros H.
    apply in_app_or in H as [H|H]; [right; exists w; split; [now left|exact H]|].
    apply in_app_or in H as [H|H]; [now left|].
    destruct (IH H) as [Hg|(v & Hv & Hc)]; [now left|].
    right. exists v. split; [now right | exact Hc].
Qed.

Lemma split_pieces (separator : ascii -> bool) (s w : string) (c : ascii) :
  In w (split separator s) -> In c (chars w) ->
  In c (chars s) /\ separator c = false.
Proof.
  revert w. induction s as [|d s IH]; intros w; simpl.
  - intros [<-|[]] [].
  - destruct (separator d) eqn:Hd.
    + intros [<-|Hw] Hc; [destruct Hc|].
      destruct (IH w Hw Hc) as [H1 H2]. split; [now right | exact H2].
    + pose proof (split_not_nil separator s) as Hn.
      destruct (split separator s) as [|p ps]; [contradiction|].
      intros [<-|Hw] Hc.
      * destruct Hc as [<-|Hc]; [split; [now left | exact Hd]|].
        destruct (IH p (or_introl eq_refl) Hc) as [H1 H2].
        split; [now right | exact H2].
      * destruct (IH w (or_intror Hw) Hc) as [H1 H2].
        split; [now right | exact H2].
Qed.

Lemma split_none (separator : ascii -> bool) (w : string) :
  (forall c, In c (chars w) -> separator c = false) ->
  split separator w = [w].
Proof.
  induction w as [|d w IH]; intros H; simpl; [reflexivity|].
  rewrite (H d (or_introl eq_refl)), IH; [reflexivity|].
  intros c Hc. apply H. now right.
Qed.

Lemma split_concat (separator : ascii -> bool) (glue : ascii)
      (ws : list string) :
  separator glue = true ->
  ws <> [] ->
  (forall w c, In w ws -> In c (chars w) -> separator c = false) ->
  split separator (String.concat (String glue "") ws) = ws.
Proof.
  intros Hg. induction ws as [|w ws IH]; intros Hne Hws; [contradiction|].
  destruct ws as [|w' ws].
  - simpl. apply split_none. intros c Hc. apply (Hws w c); [now left|exact Hc].
  - change (String.concat (String glue "") (w :: w' :: ws))
      with (w ++ String glue (String.concat (String glue "") (w' :: ws))).
    rewrite split_app by exact Hg.
    rewrite IH; [|discriminate|intros v c Hv; apply Hws; now right].
    rewrite split_none; [reflexivity|].
    intros c Hc. apply (Hws w c); [now left | exact Hc].
Qed.

Lemma capitalize_chars (w : string) (c : ascii) :
  nat_of_ascii c < 65 \/ 90 < nat_of_ascii c ->
  In c (chars (capitalize w)) -> In c (chars w).
Proof.
  intros Hc. destruct w as [|d w]; simpl; [intros []|].
  intros [H|H]; [|now right].
  unfold upperChar in H. destruct (isLower d) eqn:Hd; [|now left].
  exfalso. subst c. unfold isLower in Hd. apply andb_prop in Hd as [H1 H2].
  apply Nat.leb_le in H1, H2.
  rewrite nat_ascii_embedding in Hc by lia. lia.
Qed.

(** X15 (the words of a title).  For a slug without spaces, splitting the
    title at its spaces gives back exactly the capitalized non-empty pieces
    of the slug: the title has no leading, trailing or doubled space.  No
    dash or underscore survives in it, and it is empty exactly when the
    slug has no character other than separators. *)
Theorem title_words (slug : string) :
  ~ In " "%char (chars slug) ->
  let words := filter nonEmpty (split isSeparator slug) in
  (words <> [] ->
   split (fun c => Ascii.eqb c " ") (titleCaseFromSlug slug)
   = List.map capitalize words)
  /\ (forall c, In c (chars (titleCaseFromSlug slug)) ->
                isSeparator c = false)
  /\ (titleCaseFromSlug slug = ""
      <-> forall c, In c (chars slug) -> isSeparator c = true).
Proof.
  intros Hspace. cbv zeta. unfold titleCaseFromSlug.
  assert (Hpiece : forall w c,
             In w (filter nonEmpty (split isSeparator slug)) ->
             In c (chars w) ->
             In c (chars slug) /\ isSeparator c = false).
  { intros w c Hw Hc. apply filter_In in Hw as [Hw _].
    now apply (split_pieces isSeparator slug w c). }
  assert (Hsp : nat_of_ascii " " < 65 \/ 90 < nat_of_ascii " ")
    by (left; cbv; lia).
  assert (Hdash : nat_of_ascii "-" < 65 \/ 90 < nat_of_ascii "-")
    by (left; cbv; lia).
  assert (Hunder : nat_of_ascii "_" < 65 \/ 90 < nat_of_ascii "_")
    by (right; cbv; lia).
  split; [|split].
  - intros Hne. apply (split_concat (fun c => Ascii.eqb c " ") " ").
    + reflexivity.
    + destruct (filter nonEmpty (split isSeparator slug));
        [contradiction | discriminate].
    + intros w c Hw Hc. apply in_map_iff in Hw as (v & <- & Hv).
      destruct (Ascii.eqb c " ") eqn:E; [|reflexivity].
      apply Ascii.eqb_eq in E. subst c. exfalso. apply Hspace.
      apply (capitalize_chars v " " Hsp) in Hc.
      now destruct (Hpiece v " "%char Hv Hc).
  - intros c Hc. apply chars_concat in Hc as [[<-|[]]|(w & Hw & Hc)];
      [reflexivity|].
    apply in_map_iff in Hw as (v & <- & Hv).
    destruct (isSeparator c) eqn:E; [|reflexivity].
    unfold isSeparator in E. apply orb_prop in E as [E|E];
      apply Ascii.eqb_eq in E; subst c; exfalso.
    + apply (capitalize_chars v "-" Hdash) in Hc.
      now destruct (Hpiece v "-"%char Hv Hc).
    + apply (capitalize_chars v "_" Hunder) in Hc.
      now destruct (Hpiece v "_"%char Hv Hc).
  - split.
    + intros Hempty. apply concat_nonEmpty in Hempty;
        [|apply words_nonEmpty].
      apply map_eq_nil in Hempty.
      clear Hpiece Hspace. induction slug as [|d slug IH]; [intros c []|].
      simpl in Hempty. destruct (isSeparator d) eqn:Hd.
      * simpl in Hempty. intros c [<-|Hc]; [exact Hd | now apply IH].
      * pose proof (split_not_nil isSeparator slug) as Hn.
        destruct (split isSeparator slug); [contradiction | discriminate].
    + intros Hall.
      replace (filter nonEmpty (split isSeparator slug)) with (@nil string);
        [reflexivity|].
      symmetry. clear Hpiece Hspace.
      induction slug as [|d slug IH]; [reflexivity|].
      simpl. rewrite (Hall d (or_introl eq_refl)). simpl.
      apply IH. intros c Hc. apply Hall. now right.
Qed.

End PublishNames.

(* ================================================================== *)
(** * The publish script: the component of a game *)

Section PublishComponent.
Import Publish.
Local Open Scope list_scope.

Notation "'chars'" := list_ascii_of_string.
Lemma endsWith_iff (s suffix : string) :
  endsWith s suffix = true <-> exists before, s = (before ++ suffix)%string.
Proof.
  induction s as [|c s IH].
  - cbn [endsWith]. rewrite orb_false_r, String.eqb_eq. split.
    + intros <-. now exists ""%string.
    + intros (before & H). destruct before; simpl in H; [auto | discriminate].
  - cbn [endsWith]. rewrite orb_true_iff, String.eqb_eq, IH. clear IH. split.
    + intros [<-|(before & ->)]; [now exists ""%string|].
      now exists (String c before).
    + intros (before & H). destruct before as [|d before]; simpl in H.
      * now left.
      * injection H as _ ->. right. now exists before.
Qed.

Lemma append_assoc' (a b c : string) :
  ((a ++ b) ++ c)%string = (a ++ (b ++ c))%string.
Proof. induction a as [|x a IH]; simpl; [reflexivity | now rewrite IH]. Qed.

Lemma length_append (a b : string) :
  String.length (a ++ b)%string = String.length a + String.length b.
Proof. induction a as [|x a IH]; simpl; [reflexivity | now rewrite IH]. Qed.

Lemma substring_before (a b : string) :
  substring 0 (String.length a) (a ++ b)%string = a.
Proof.
  induction a as [|x a IH]; simpl.
  - now destruct b.
  - now rewrite IH.
Qed.

Lemma basename_append (name ext : string) :
  endsWith name ext = true -> (basename name ext ++ ext)%string = name.
Proof.
  intros H. unfold basename. rewrite H.
  apply endsWith_iff in H as (before & ->).
  rewrite length_append, Nat.add_sub. now rewrite substring_before.
Qed.

Lemma game_file_is_tsx (name : string) :
  endsWith name "Game.tsx" = true -> endsWith name ".tsx" = true.
Proof.
  rewrite !endsWith_iff. intros (before & ->).
  exists (before ++ "Game")%string. now rewrite append_assoc'.
Qed.

Lemma find_first {A} (p : A -> bool) (l : list A) (x : A) :
  find p l = Some x ->
  exists before after,
    l = before ++ x :: after /\ p x = true
    /\ Forall (fun y => p y = false) before.
Proof.
  induction l as [|y l IH]; simpl; [discriminate|].
  destruct (p y) eqn:Hy.
  - intros [= ->]. exists [], l. repeat split; [exact Hy | constructor].
  - intros H. destruct (IH H) as (before & after & -> & Hx & Hb).
    exists (y :: before), after. repeat split; [exact Hx|].
    now constructor.
Qed.

Lemma find_none {A} (p : A -> bool) (l : list A) :
  find p l = None -> Forall (fun y => p y = false) l.
Proof.
  induction l as [|y l IH]; simpl; [constructor|].
  destruct (p y) eqn:Hy; [discriminate|]. intros H. constructor; auto.
Qed.


Lemma literal_iff (text s rest : string) :
  literal text s = Some rest <-> s = (text ++ rest)%string.
Proof.
  revert s. induction text as [|a text IH]; intros s; simpl.
  - split; [now intros [= ->] | now intros ->].
  - destruct s as [|b s]; [split; discriminate|].
    destruct (Ascii.eqb a b) eqn:E.
    + apply Ascii.eqb_eq in E. subst b. rewrite IH. split.
      * now intros ->.
      * now intros [= ->].
    + apply Ascii.eqb_neq in E. split; [discriminate|].
      intros [= H _]. now elim E.
Qed.

Lemma take_drop (class : ascii -> bool) (s : string) :
  s = (takeWhile class s ++ dropWhile class s)%string
  /\ Every class (takeWhile class s).
Proof.
  unfold Every.
  induction s as [|c s [IH1 IH2]]; simpl; [split; [reflexivity|constructor]|].
  destruct (class c) eqn:E; simpl.
  - split; [now rewrite <- IH1 | now constructor].
  - split; [reflexivity | constructor].
Qed.

Lemma oneOrMore_spec (class : ascii -> bool) (s matched rest : string) :
  oneOrMore class s = Some (matched, rest) ->
  s = (matched ++ rest)%string /\ matched <> ""%string
  /\ Every class matched.
Proof.
  unfold oneOrMore. destruct (take_drop class s) as [H1 H2].
  destruct (takeWhile class s) as [|c t] eqn:E; [discriminate|].
  intros [= <- <-]. repeat split; [exact H1 | discriminate | exact H2].
Qed.

Lemma oneOrMore_app (class : ascii -> bool) (matched rest : string) :
  matched <> ""%string -> Every class matched -> stops class rest ->
  oneOrMore class (matched ++ rest)%string = Some (matched, rest).
Proof.
  intros Hne Hall Hstop. unfold oneOrMore. unfold Every in Hall.
  assert (H : takeWhile class (matched ++ rest)%string = matched
              /\ dropWhile class (matched ++ rest)%string = rest).
  { clear Hne. induction matched as [|c m IH]; simpl.
    - destruct rest as [|d rest]; [now split|]. simpl in Hstop.
      simpl. now rewrite Hstop.
    - inversion Hall as [|? ? Hc Hm]; subst. rewrite Hc.
      destruct (IH Hm) as [-> ->]. now split. }
  destruct H as [-> ->]. destruct matched; [contradiction | reflexivity].
Qed.

Lemma leftmost_sound {A} (matchAt : string -> option A) (s : string)
      (found : A) :
  leftmost matchAt s = Some found ->
  exists before from, s = (before ++ from)%string /\ matchAt from = Some found.
Proof.
  induction s as [|c s IH]; simpl.
  - destruct (matchAt ""%string) eqn:E; [|discriminate].
    intros [= <-]. now exists ""%string, ""%string.
  - destruct (matchAt (String c s)) eqn:E.
    + intros [= <-]. now exists ""%string, (String c s).
    + intros H. destruct (IH H) as (before & from & -> & Hm).
      now exists (String c before), from.
Qed.

Lemma leftmost_complete {A} (matchAt : string -> option A)
      (before from : string) (found : A) :
  matchAt from = Some found ->
  leftmost matchAt (before ++ from)%string <> None.
Proof.
  intros Hm. induction before as [|c before IH]; simpl.
  - destruct from; simpl; now rewrite Hm.
  - destruct (matchAt (String c (before ++ from))); [discriminate | exact IH].
Qed.

Lemma exportDefaultAt_iff (from : string) :
  exportDefaultAt from = Some tt <-> ExportsDefault from.
Proof.
  unfold exportDefaultAt, ExportsDefault. split.
  - destruct (literal "export" from) as [s1|] eqn:E1; [|discriminate].
    destruct (oneOrMore isWhitespace s1) as [[space s2]|] eqn:E2;
      [|discriminate].
    destruct (literal "default" s2) as [s3|] eqn:E3; [|discriminate].
    intros _. apply literal_iff in E1, E3.
    apply oneOrMore_spec in E2 as (-> & Hne & Hall). subst.
    now exists space, s3.
  - intros (space & rest & -> & Hne & Hall).
    rewrite (proj2 (literal_iff "export" _ _) eq_refl).
    rewrite (oneOrMore_app isWhitespace space ("default" ++ rest)%string);
      [|exact Hne|exact Hall|reflexivity].
    now rewrite (proj2 (literal_iff "default" _ _) eq_refl).
Qed.

Lemma oneOrMore_stops (class : ascii -> bool) (s matched rest : string) :
  oneOrMore class s = Some (matched, rest) -> stops class rest.
Proof.
  unfold oneOrMore. destruct (takeWhile class s); [discriminate|].
  intros [= _ <-]. induction s as [|c s IH]; simpl; [exact I|].
  destruct (class c) eqn:E; [exact IH | exact E].
Qed.

Lemma namedExportAt_sound (from name : string) :
  namedExportAt from = Some name -> ExportsNamed name from.
Proof.
  unfold namedExportAt, ExportsNamed.
  destruct (literal "export" from) as [s1|] eqn:E1; [|discriminate].
  destruct (oneOrMore isWhitespace s1) as [[space1 s2]|] eqn:E2;
    [|discriminate].
  assert (Hk : forall s3,
             match literal "function" s2 with
             | Some s3 => Some s3
             | None => literal "const" s2
             end = Some s3 ->
             exists keyword, s2 = (keyword ++ s3)%string
               /\ (keyword = "function"%string \/ keyword = "const"%string)).
  { intros s3. destruct (literal "function" s2) as [t|] eqn:Ef.
    - intros [= ->]. apply literal_iff in Ef.
      exists "function"%string. split; [exact Ef | now left].
    - intros Ec. apply literal_iff in Ec.
      exists "const"%string. split; [exact Ec | now right]. }
  destruct (match literal "function" s2 with
            | Some s3 => Some s3
            | None => literal "const" s2
            end) as [s3|]; [|discriminate].
  destruct (Hk s3 eq_refl) as (keyword & Es2 & Hkw). clear Hk.
  destruct (oneOrMore isWhitespace s3) as [[space2 s4]|] eqn:E3;
    [|discriminate].
  destruct (oneOrMore isWordChar s4) as [[word rest]|] eqn:E4;
    [|discriminate].
  intros [= <-]. apply literal_iff in E1.
  pose proof (oneOrMore_stops _ _ _ _ E4) as Hstop.
  apply oneOrMore_spec in E2 as (-> & Hne1 & Hall1).
  apply oneOrMore_spec in E3 as (-> & Hne2 & Hall2).
  apply oneOrMore_spec in E4 as (-> & Hne3 & Hall3).
  subst. exists space1, keyword, space2, rest. repeat split; auto.
Qed.

Lemma word_stops_space (name rest : string) :
  name <> ""%string -> Every isWordChar name ->
  stops isWhitespace (name ++ rest)%string.
Proof.
  destruct name as [|c name]; [contradiction|]. intros _ H.
  unfold Every in H. inversion H as [|? ? Hc _]; subst. simpl.
  destruct (isWhitespace c) eqn:Hw; [exfalso | reflexivity].
  unfold isWordChar in Hc. unfold isWhitespace in Hw.
  cbv beta zeta in Hc, Hw.
  rewrite ?orb_true_iff, ?andb_true_iff, ?Nat.leb_le, ?Nat.eqb_eq in Hc.
  rewrite ?orb_true_iff, ?andb_true_iff, ?Nat.leb_le, ?Nat.eqb_eq in Hw.
  lia.
Qed.

Lemma namedExportAt_complete (from name : string) :
  ExportsNamed name from -> namedExportAt from = Some name.
Proof.
  intros (space1 & keyword & space2 & rest & -> & Hkw & Hne1 & Hall1
          & Hne2 & Hall2 & Hne3 & Hall3 & Hstop).
  unfold namedExportAt.
  rewrite (proj2 (literal_iff "export" _ _) eq_refl).
  pose proof (word_stops_space name rest Hne3 Hall3) as Hs.
  destruct Hkw as [-> | ->].
  - rewrite (oneOrMore_app isWhitespace space1); [|exact Hne1|exact Hall1|
                                                   reflexivity].
    rewrite (proj2 (literal_iff "function" _ _) eq_refl).
    rewrite (oneOrMore_app isWhitespace space2); [|exact Hne2|exact Hall2|
                                                   exact Hs].
    now rewrite (oneOrMore_app isWordChar name rest).
  - rewrite (oneOrMore_app isWhitespace space1); [|exact Hne1|exact Hall1|
                                                   reflexivity].
    assert (Hf : literal "function" ("const" ++ space2 ++ name ++ rest)%string
                 = None) by reflexivity.
    rewrite Hf.
    rewrite (proj2 (literal_iff "const" _ _) eq_refl).
    rewrite (oneOrMore_app isWhitespace space2); [|exact Hne2|exact Hall2|
                                                   exact Hs].
    now rewrite (oneOrMore_app isWordChar name rest).
Qed.


End PublishComponent.

(* ================================================================== *)
(** * The added properties on the test doubles *)

Section MoreExamples.

Import Fake Scenario Publish.

Lemma prepareStartGame_without_wallet_witness :
  exists err,
    fst (prepareStartGame sdk consts world 42 ADDR_A ADDR_B 10 15
                          noWallet (Some 60%Z) [])
    = Throw err.
Proof.
  exact (proj1 (prepareStartGame_without_wallet
                  sdk consts Game world 42 ADDR_A ADDR_B 10 15 noWallet
                  (Some 60%Z) [] eq_refl)).
Defined.

Lemma parse_reads_three_things_witness :
  parseAuthEntry sdk S1 = parseAuthEntry sdk Studio.unsignedArtifact.
Proof.
  eapply (parse_reads_three_things sdk S1 Studio.unsignedArtifact
                                   E1 (placeholder ADDR_A 42 10)).
  - vm_compute. reflexivity.
  - vm_compute. reflexivity.
  - vm_compute. reflexivity.
  - vm_compute. reflexivity.
  - vm_compute. reflexivity.
  - vm_compute. reflexivity.
  - vm_compute. reflexivity.
  - reflexivity.
  - reflexivity.
Defined.

Lemma result_comes_from_submission_witness :
  exists before tx validUntil sentTx,
    snd (run consts Studio.table (Hit 42 ADDR_A signingWallet) [])
    = ([] ++ before
         ++ [Step_calculateValidUntilLedger
               (RPC_URL consts) (DEFAULT_AUTH_TTL_MINUTES consts);
             Step_signAndSendViaLaunchtube
               tx (timeoutInSeconds (DEFAULT_METHOD_OPTIONS consts))
               validUntil])%list
    /\ Table.signAndSendViaLaunchtube
         Studio.table
         ([] ++ before
            ++ [Step_calculateValidUntilLedger
                  (RPC_URL consts) (DEFAULT_AUTH_TTL_MINUTES consts)])%list
         tx (timeoutInSeconds (DEFAULT_METHOD_OPTIONS consts)) validUntil
       = Normal sentTx
    /\ sent_result sentTx = Normal 21%Z.
Proof.
  apply (result_comes_from_submission
           consts Z Studio.table (Hit 42 ADDR_A signingWallet) [] 21%Z).
  reflexivity.
Defined.

Lemma ascii7_true (s : string) : ascii7 s = true -> Ascii7 s.
Proof.
  unfold ascii7, Ascii7. rewrite forallb_forall, Forall_forall.
  intros H c Hc. apply Nat.ltb_lt. now apply H.
Qed.

Lemma toEnvKey_shape_witness :
  String.length (toEnvKey "twenty-one") = String.length "twenty-one"
  /\ Forall (fun c => Ascii.eqb c "-" = false /\ isLower c = false)
            (list_ascii_of_string (toEnvKey "twenty-one"))
  /\ toEnvKey (toEnvKey "twenty-one") = toEnvKey "twenty-one"
  /\ toEnvKey (toUpperCase "twenty-one") = toEnvKey "twenty-one"
  /\ toEnvKey (dashesToUnderscores "twenty-one") = toEnvKey "twenty-one".
Proof.
  apply (toEnvKey_shape "twenty-one"). apply ascii7_true. reflexivity.
Defined.

Lemma title_of_joined_slugs_witness :
  titleCaseFromSlug "twenty-one" = "Twenty One".
Proof.
  exact (title_of_joined_slugs "twenty" "one" "-" eq_refl).
Defined.

Lemma title_words_witness :
  (filter nonEmpty (split isSeparator "number_guess-2") <> [] ->
   split (fun c => Ascii.eqb c " ") (titleCaseFromSlug "number_guess-2")
   = List.map capitalize
              (filter nonEmpty (split isSeparator "number_guess-2")))
  /\ (forall c,
         In c (list_ascii_of_string (titleCaseFromSlug "number_guess-2")) ->
         isSeparator c = false)
  /\ (titleCaseFromSlug "number_guess-2" = ""
      <-> forall c, In c (list_ascii_of_string "number_guess-2") ->
                    isSeparator c = true).
Proof.
  apply (title_words "number_guess-2").
  simpl. intuition discriminate.
Defined.


End MoreExamples.
